(** * lzpi: an LZ77 stream codec with a KMP match finder

    Shallow embedding of [lzpi.c] and verification of its specification.

    Conventions of the embedding:
    - [size_t] is a 64-bit unsigned integer: a [Z] reduced by [wrap] after
      every arithmetic operation; [uint32_t]/[unsigned] values are reduced by
      [wrap32] and [uint8_t] values by [u8];
    - a C array is a total function from index to element. The accesses to
      [bf] go through [ring_mask] and those to [buf] through a [uint8_t]
      index, so they are in range by construction; the failure table of
      [kmp_search] is indexed below the size of the lookahead, which the
      window invariants bound by [RING_SIZE]; the accesses to [ctx->m] are
      checked explicitly and yield [None] out of range;
    - the byte source ([FILE *i]) is the finite list of bytes still to be
      read together with what follows them: the end of the file, or a read
      error and the value, any integer, that it leaves in [errno]; a list
      of bytes given where a source is expected is the source that delivers
      these bytes and then the end of the file;
    - the byte sink ([FILE *o]) records the bytes written, its
      error indicator, and carries an oracle telling which write fails and
      which value, any integer, that failure leaves in [errno];
    - automatic variables the source leaves uninitialised are parameters;
    - a loop is a [Fixpoint] on a fuel, [None] (or the state reached, where
      the function returns no status) being the result of running out of
      it; the proofs show that the fuel given suffices, but for [compress]
      on a source whose read error leaves 0 in [errno], a case in which the
      loop of the source need not end. *)

From Stdlib Require Import ZArith List Lia Bool.
From Stdlib Require String Ascii.
Import ListNotations.
Import String.StringSyntax Ascii.AsciiSyntax.
Delimit Scope char_scope with char.
Delimit Scope string_scope with string.
Local Open Scope Z_scope.

Ltac Zify.zify_post_hook ::= Z.to_euclidean_division_equations.

(** ** Machine integers *)

Definition SIZE_MOD : Z := 18446744073709551616.   (* SIZE_MAX + 1 = 2^64 *)
Definition wrap (x : Z) : Z := x mod SIZE_MOD.       (* size_t *)
Definition wrap32 (x : Z) : Z := x mod 4294967296.   (* uint32_t, unsigned *)
Definition u8 (x : Z) : Z := x mod 256.              (* uint8_t *)

(** Constants of [<limits.h>], [<stdio.h>] and [<errno.h>]. *)
Definition CHAR_BIT : Z := 8.
Definition EOF : Z := -1.
Definition EIO : positive := 5%positive.

(** [#define RING_SIZE ((size_t)1 << 8)] *)
Definition RING_SIZE : Z := wrap (Z.shiftl 1 8).

(** [rol]: rotate a 32-bit value left by one bit. *)
Definition rol (v : Z) : Z := Z.lor (wrap32 (Z.shiftl v 1)) (Z.shiftr v 31).

(** Arrays as total functions, with a point update. *)
Definition upd {A : Type} (f : Z -> A) (k : Z) (v : A) : Z -> A :=
  fun x => if x =? k then v else f x.

(** ** Rings *)

Record ring : Type := mk_ring { r_hd : Z; r_tl : Z }.

Definition ring_size (r : ring) : Z := wrap (r_hd r - r_tl r).
Definition ring_capacity (r : ring) : Z := wrap (RING_SIZE - ring_size r).
Definition ring_mask (val : Z) : Z :=
  Z.land val (wrap (wrap (Z.shiftl RING_SIZE 1) - 1)).
Definition ring_run (r : ring) : Z :=
  wrap (wrap (Z.shiftl RING_SIZE 1) - ring_mask (r_hd r)).

(** ** The sliding window *)

Record wnd : Type := mk_wnd {
  dictionary : ring;
  lookahead : ring;
  bf : Z -> Z
}.

Definition wnd_init (w : wnd) : wnd :=
  {| dictionary := mk_ring 0 0; lookahead := mk_ring 0 0; bf := bf w |}.

Definition wnd_shift (w : wnd) (n : Z) : wnd :=
  let c := ring_capacity (dictionary w) in
  {| dictionary :=
       {| r_hd := wrap (r_hd (dictionary w) + n);
          r_tl := wrap (r_tl (dictionary w)
                        + (if n >? c then wrap (n - c) else 0)) |};
     lookahead :=
       {| r_hd := r_hd (lookahead w);
          r_tl := wrap (r_tl (lookahead w) + n) |};
     bf := bf w |}.

(** The source of [compress]: [data] are the bytes still to be read;
    when they are used up the stream is at the end of the file
    ([rerr = None]) or has a read error that leaves [e] in [errno]
    ([rerr = Some e]). *)
Record source : Type := mk_source {
  data : list Z;
  rerr : option Z
}.

(** The source that delivers the bytes [s] and then the end of the file. *)
Definition eof_source (s : list Z) : source := {| data := s; rerr := None |}.
#[warning="-uniform-inheritance"]
Coercion eof_source : list >-> source.

(** [feof(i)], [ferror(i)] and [errno] after a read that has come short:
    the bytes of the source are used up, and the stream is at the end of
    the file or has a read error. *)
Definition feof (i : source) : bool :=
  match rerr i with None => true | Some _ => false end.
Definition ferror_in (i : source) : bool :=
  match rerr i with None => false | Some _ => true end.
Definition errno_in (i : source) : Z :=
  match rerr i with None => 0 | Some e => e end.

(** [fread(p, 1, u, i)]: the bytes obtained are stored from index [p] on;
    fewer than [u] are obtained only when the bytes of the source are used
    up. *)
Fixpoint store_bytes (b : Z -> Z) (p : Z) (bs : list Z) : Z -> Z :=
  match bs with
  | [] => b
  | x :: r => store_bytes (upd b p x) (p + 1) r
  end.

Definition fread (b : Z -> Z) (p u : Z) (i : source) : Z * (Z -> Z) * source :=
  let got := firstn (Z.to_nat u) (data i) in
  (Z.of_nat (length got), store_bytes b p got,
   {| data := skipn (Z.to_nat u) (data i); rerr := rerr i |}).

(** [wnd_read]: the [for (;;)] loop. After a short read [feof] holds and
    [EOF] is returned, or [ferror] holds and [errno] is returned as the
    read error left it; the loop goes on ([continue]) when neither holds,
    which does not happen on these sources, [fread] coming short in no
    other way. The result is the return value, the window and the rest of
    the source. *)
Fixpoint wnd_read_loop (fuel : nat) (w : wnd) (i : source)
  : option (Z * wnd * source) :=
  match fuel with
  | O => None
  | S fuel' =>
      let r := ring_run (lookahead w) in
      let c := ring_capacity (lookahead w) in
      let u := if c >? r then r else c in
      let '(n, b, i') := fread (bf w) (ring_mask (r_hd (lookahead w))) u i in
      let w' := {| dictionary := dictionary w;
                   lookahead := {| r_hd := wrap (r_hd (lookahead w) + n);
                                   r_tl := r_tl (lookahead w) |};
                   bf := b |} in
      if negb (n =? u) then
        if feof i' then Some (EOF, w', i')
        else if ferror_in i' then Some (errno_in i', w', i')
        else wnd_read_loop fuel' w' i'
      else if c =? u then Some (0, w', i')
      else wnd_read_loop fuel' w' i'
  end.

Definition wnd_read (w : wnd) (i : source) : option (Z * wnd * source) :=
  wnd_read_loop (S (length (data i))) w i.

(** ** KMP longest-match search *)

(** [kmp_init]: the [do ... while] loop filling the failure table [t]; [i]
    and [j] are the two cursors of the source. *)
Fixpoint kmp_init_loop (fuel : nat) (w : wnd) (t : Z -> Z) (i j : Z)
  : Z -> Z :=
  match fuel with
  | O => t
  | S fuel' =>
      let tl := r_tl (lookahead w) in
      let '(t', i', j') :=
        if bf w (ring_mask i) =? bf w (ring_mask j) then
          let i1 := wrap (i + 1) in
          (upd t (wrap (j - tl)) (u8 (wrap (i1 - tl))), i1, wrap (j + 1))
        else if i =? tl then
          (upd t (wrap (j - tl)) 0, i, wrap (j + 1))
        else
          (t, wrap (tl + t (wrap (wrap (i - tl) - 1))), j) in
      if j' =? r_hd (lookahead w) then t'
      else kmp_init_loop fuel' w t' i' j'
  end.

Definition kmp_init (t : Z -> Z) (w : wnd) : Z -> Z :=
  let i := r_tl (lookahead w) in
  let j := wrap (i + 1) in
  if ring_size (lookahead w) <? 2 then t
  else
    kmp_init_loop (Z.to_nat (2 * ring_size (lookahead w))) w (upd t 0 0) i j.

(** [struct pair]: offset [o] and length [l] of a result of [kmp_search]. *)
Record pair : Type := mk_pair { p_o : Z; p_l : Z }.

Fixpoint kmp_search_loop (fuel : nat) (w : wnd) (a : Z -> Z) (p : pair)
  (i j : Z) : pair :=
  match fuel with
  | O => p
  | S fuel' =>
      if j =? r_hd (lookahead w) then p
      else
        let l := wrap (i - r_tl (lookahead w)) in
        let o := wrap (wrap (j - r_tl (dictionary w)) - l) in
        if o =? ring_size (dictionary w) then p
        else if bf w (ring_mask i) =? bf w (ring_mask j) then
          let j' := wrap (j + 1) in
          let i' := wrap (i + 1) in
          if i' =? r_hd (lookahead w) then mk_pair o (wrap (l + 1))
          else kmp_search_loop fuel' w a p i' j'
        else if i =? r_tl (lookahead w) then
          kmp_search_loop fuel' w a p i (wrap (j + 1))
        else
          let i' := wrap (r_tl (lookahead w) + a (wrap (l - 1))) in
          kmp_search_loop fuel' w a
            (if l >? p_l p then mk_pair o l else p) i' j
  end.

(** [kmp_search]; [a0] is the uninitialised scratch array [a]. *)
Definition kmp_search (a0 : Z -> Z) (w : wnd) : pair :=
  let a := kmp_init a0 w in
  kmp_search_loop
    (Z.to_nat (2 * (ring_size (dictionary w) + ring_size (lookahead w)) + 1))
    w a (mk_pair 0 0) (r_tl (lookahead w)) (r_tl (dictionary w)).

(** ** Match selection *)

(** [struct match]: [m_ov] is the anonymous union of [o] and [v]. *)
Record match_t : Type := mk_match { m_ov : Z; m_l : Z }.

(** The test "not worth encoding" of [match]. *)
Definition not_worth (w : wnd) (p : pair) : bool :=
  let tl := r_tl (lookahead w) in
  (p_l p <? 2)
  || ((p_l p =? 2)
      && (ring_size (lookahead w) >? 3)
      && (bf w (ring_mask (wrap (tl + 2))) =? bf w (ring_mask tl))
      && ((bf w (ring_mask (wrap (tl + 3))) =? bf w (ring_mask tl))
          || (bf w (ring_mask (wrap (tl + 3)))
              =? bf w (ring_mask (wrap (r_tl (dictionary w) + p_l p)))))).

(** [match]: the token and the shifted window. *)
Definition lz_match (a0 : Z -> Z) (w : wnd) : match_t * wnd :=
  let p := kmp_search a0 w in
  let tl := r_tl (lookahead w) in
  if not_worth w p then
    ({| m_ov := bf w (ring_mask tl); m_l := 0 |}, wnd_shift w 1)
  else
    ({| m_ov := u8 (wrap (wrap (ring_size (dictionary w) - p_o p) - 1));
        m_l := u8 (u8 (p_l p) - 1) |},
     wnd_shift w (p_l p)).

(** ** The byte sink *)

(** [written] are the bytes accepted so far; [wfail k = Some e] says that
    the write attempted when [k] bytes have been accepted fails and leaves
    [e] in [errno]; [ferror] is the error indicator of the stream. *)
Record sink : Type := mk_sink {
  written : list Z;
  wfail : nat -> option Z;
  ferror : bool
}.

(** [putc_unlocked(b, o)]: the value is converted to [unsigned char]; a
    failed write sets the error indicator. *)
Definition putc (b : Z) (o : sink) : option Z * sink :=
  match wfail o (length (written o)) with
  | Some e =>
      (Some e, {| written := written o; wfail := wfail o; ferror := true |})
  | None =>
      (None, {| written := written o ++ [u8 b]; wfail := wfail o;
                ferror := ferror o |})
  end.

(** The labels [fail] of [encode] and [writefail] of [decompress]:
    [if (!ferror(o)) errno = EIO; return errno;] with [e] in [errno]. *)
Definition fail_ret (e : Z) (o : sink) : Z :=
  if negb (ferror o) then Z.pos EIO else e.

(** ** Encoder framing *)

(** The body of the [do ... while] loop of [encode]: the bytes of one token. *)
Definition encode_token (t : match_t) (o : sink) : option Z * sink :=
  if m_l t =? 0 then putc (m_ov t) o
  else
    match putc (m_ov t) o with
    | (Some e, o1) => (Some e, o1)
    | (None, o1) => putc (m_l t) o1
    end.

(** [None] stands for an access to [m] outside its [CHAR_BIT] entries. *)
Fixpoint encode_loop (fuel : nat) (m : Z -> match_t) (n j : Z) (o : sink)
  : option (Z * sink) :=
  match fuel with
  | O => None
  | S fuel' =>
      if (0 <=? j) && (j <? CHAR_BIT) then
        match encode_token (m j) o with
        | (Some e, o1) => Some (fail_ret e o1, o1)
        | (None, o1) =>
            let j' := wrap32 (j + 1) in
            if j' =? n then Some (0, o1) else encode_loop fuel' m n j' o1
        end
      else None
  end.

Definition encode (m : Z -> match_t) (n c : Z) (o : sink) : option (Z * sink) :=
  match putc c o with
  | (Some e, o1) => Some (fail_ret e o1, o1)
  | (None, o1) => encode_loop (Z.to_nat CHAR_BIT) m n 0 o1
  end.

(** [struct ctx]. *)
Record ctx : Type := mk_ctx {
  ctx_n : Z;
  ctx_c : Z;
  ctx_msk : Z;
  ctx_w : wnd;
  ctx_m : Z -> match_t
}.

Definition MSK_SEED : Z :=
  wrap32 (Z.lor (Z.lor (Z.lor (Z.shiftl 1 31) (Z.shiftl 1 23)) (Z.shiftl 1 15))
            (Z.shiftl 1 7)).

Definition ctx_init (x : ctx) : ctx :=
  {| ctx_n := ctx_n x; ctx_c := ctx_c x; ctx_msk := MSK_SEED;
     ctx_w := wnd_init (ctx_w x); ctx_m := ctx_m x |}.

(** [compress_helper]: the return value, the context and the sink. *)
Definition compress_helper (a0 : Z -> Z) (x : ctx) (o : sink)
  : option (Z * ctx * sink) :=
  let msk := rol (ctx_msk x) in
  let flushed : option (Z * Z * Z * sink) :=
    if negb (Z.land msk 1 =? 0) then
      if negb (ctx_n x =? 0) then
        match encode (ctx_m x) (ctx_n x) (ctx_c x) o with
        | None => None
        | Some (ret, o1) =>
            if negb (ret =? 0) then Some (ret, ctx_n x, ctx_c x, o1)
            else Some (0, 0, 0, o1)
        end
      else Some (0, ctx_n x, 0, o)
    else Some (0, ctx_n x, ctx_c x, o) in
  match flushed with
  | None => None
  | Some (ret, n, c, o1) =>
      if negb (ret =? 0) then
        Some (ret, {| ctx_n := n; ctx_c := c; ctx_msk := msk;
                      ctx_w := ctx_w x; ctx_m := ctx_m x |}, o1)
      else if (0 <=? n) && (n <? CHAR_BIT) then
        let '(t, w') := lz_match a0 (ctx_w x) in
        Some (0, {| ctx_n := n;
                    ctx_c := if negb (m_l t =? 0) then Z.lor c msk else c;
                    ctx_msk := msk;
                    ctx_w := w';
                    ctx_m := upd (ctx_m x) n t |}, o1)
      else None
  end.

Definition ctx_next (x : ctx) : ctx :=
  {| ctx_n := wrap32 (ctx_n x + 1); ctx_c := ctx_c x; ctx_msk := ctx_msk x;
     ctx_w := ctx_w x; ctx_m := ctx_m x |}.

Definition ctx_set_w (x : ctx) (w : wnd) : ctx :=
  {| ctx_n := ctx_n x; ctx_c := ctx_c x; ctx_msk := ctx_msk x;
     ctx_w := w; ctx_m := ctx_m x |}.

(** The second loop of [compress] and the final [encode]. *)
Fixpoint compress_drain (fuel : nat) (a0 : Z -> Z) (x : ctx) (o : sink)
  : option (Z * sink) :=
  match fuel with
  | O => None
  | S fuel' =>
      if negb (ring_size (lookahead (ctx_w x)) =? 0) then
        match compress_helper a0 x o with
        | None => None
        | Some (ret, x', o') =>
            if negb (ret =? 0) then Some (ret, o')
            else compress_drain fuel' a0 (ctx_next x') o'
        end
      else if negb (ctx_n x =? 0) then
        encode (ctx_m x) (ctx_n x) (ctx_c x) o
      else Some (0, o)
  end.

(** The first loop of [compress], followed by the rest of the function. *)
Fixpoint compress_fill (fuel : nat) (a0 : Z -> Z) (x : ctx) (i : source)
  (o : sink) : option (Z * sink) :=
  match fuel with
  | O => None
  | S fuel' =>
      match wnd_read (ctx_w x) i with
      | None => None
      | Some (ret, w', i') =>
          let x1 := ctx_set_w x w' in
          if ret =? 0 then
            match compress_helper a0 x1 o with
            | None => None
            | Some (ret', x', o') =>
                if negb (ret' =? 0) then Some (ret', o')
                else compress_fill fuel' a0 (ctx_next x') i' o'
            end
          else if negb (ret =? EOF) then Some (ret, o)
          else
            compress_drain
              (S (Z.to_nat (ring_size (lookahead (ctx_w x1))))) a0 x1 o
      end
  end.

(** [compress]; [x0] is the uninitialised [ctx] and [a0] the uninitialised
    scratch array of [kmp_search]. Every turn of the first loop but the
    last one consumes a byte of the source, unless a read error leaves 0 in
    [errno]: [wnd_read] then returns 0 as if it had filled the lookahead,
    and the loop of the source need not end. *)
Definition compress (x0 : ctx) (a0 : Z -> Z) (i : source) (o : sink)
  : option (Z * sink) :=
  let x := ctx_init x0 in
  compress_fill (S (length (data i))) a0
    {| ctx_n := 0; ctx_c := ctx_c x; ctx_msk := ctx_msk x;
       ctx_w := ctx_w x; ctx_m := ctx_m x |} i o.

(** ** Decoder *)

(** The copy loop [do ... while (c--)] of a back-reference. The result is
    the error of a failed write if any, [buf], [m.o] and the sink. A store
    into [buf], an array of [uint8_t], converts the value stored. *)
Fixpoint copy_loop (fuel : nat) (buf : Z -> Z) (mo ml c : Z) (o : sink)
  : option (option Z * (Z -> Z) * Z * sink) :=
  match fuel with
  | O => None
  | S fuel' =>
      let buf1 := upd buf mo (u8 (buf (u8 (mo - ml)))) in
      match putc (buf1 mo) o with
      | (Some e, o1) => Some (Some e, buf1, u8 (mo + 1), o1)
      | (None, o1) =>
          if negb (c =? 0) then copy_loop fuel' buf1 (u8 (mo + 1)) ml (c - 1) o1
          else Some (None, buf1, u8 (mo + 1), o1)
      end
  end.

(** The label [readfail] of [decompress], reached with the source in [i]:
    [if (!ferror(i)) errno = EIO; return errno;]. *)
Definition read_fail (i : source) : Z :=
  if negb (ferror_in i) then Z.pos EIO else errno_in i.

(** The [while] loop of [decompress] with its exits. When the bytes of the
    source are used up [getc_unlocked] is negative. At the head of the loop
    this ends the loop: [feof] gives 0, and a read error falls through
    [writefail] (where [i = o] is the source again, [o] having been set to
    it) to [readfail]. Inside a token it jumps to [readfail]. *)
Fixpoint decompress_loop (fuel : nat) (i : source) (buf : Z -> Z)
  (mo ml map msk : Z) (o : sink) : option (Z * sink) :=
  match fuel with
  | O => None
  | S fuel' =>
      match data i with
      | [] => if feof i then Some (0, o) else Some (read_fail i, o)
      | c :: i1 =>
          let msk := rol msk in
          let ctl : option (Z * Z * list Z) :=
            if negb (Z.land msk 1 =? 0) then
              match i1 with
              | [] => None
              | c' :: i2 => Some (c, c', i2)
              end
            else Some (map, c, i1) in
          match ctl with
          | None => Some (read_fail i, o)
          | Some (map, c, i1) =>
              if negb (Z.land map msk =? 0) then
                let ml := u8 (c + 1) in
                match i1 with
                | [] => Some (read_fail i, o)
                | c2 :: i2 =>
                    match copy_loop (Z.to_nat RING_SIZE) buf mo ml c2 o with
                    | None => None
                    | Some (Some e, _, _, o1) => Some (fail_ret e o1, o1)
                    | Some (None, buf1, mo1, o1) =>
                        decompress_loop fuel' {| data := i2; rerr := rerr i |}
                          buf1 mo1 ml map msk o1
                    end
                end
              else
                match putc c o with
                | (Some e, o1) => Some (fail_ret e o1, o1)
                | (None, o1) =>
                    decompress_loop fuel' {| data := i1; rerr := rerr i |}
                      (upd buf mo (u8 c)) (u8 (mo + 1)) ml map msk o1
                end
          end
      end
  end.

(** [decompress]; [buf0] and [map0] are the uninitialised [buf] and [map]. *)
Definition decompress (buf0 : Z -> Z) (map0 : Z) (i : source) (o : sink)
  : option (Z * sink) :=
  decompress_loop (S (length (data i))) i buf0 0 0 map0 MSK_SEED o.

(** ** Program entry *)

(** [strrchr(s, '/') + 1]: the part of [s] after its last slash, [None]
    where [strrchr] returns a null pointer. *)
Fixpoint after_last_slash (s : String.string) : option String.string :=
  match s with
  | String.EmptyString => None
  | String.String c r =>
      match after_last_slash r with
      | Some t => Some t
      | None => if Ascii.eqb c "/"%char then Some r else None
      end
  end.

(** The [name] of [main]: [name = strrchr(argv[0], '/') + 1], replaced by
    [argv[0]] when it is [(const char * )1]. *)
Definition prog_name (argv0 : String.string) : String.string :=
  match after_last_slash argv0 with
  | Some t => t
  | None => argv0
  end.

(** [match_decompress]. *)
Definition match_decompress (s : String.string) : bool :=
  String.eqb s "-d"%string || String.eqb s "--decompress"%string.

Definition TAB : String.string := String.String "009"%char String.EmptyString.
Definition NL : String.string := String.String "010"%char String.EmptyString.

(** What reaches [stderr]: the text of [usage], or a call of [perror] with
    the value of [errno] that [compress] or [decompress] returned. *)
Inductive diag : Type :=
| Usage (text : String.string)
| Perror (name : String.string) (errno : Z).

(** The text that [usage] prints for [name]. *)
Definition usage_text (name : String.string) : String.string :=
  String.concat ""%string
    [ "Usage:"%string; TAB; TAB; name; " [-d | --decompress]"%string; NL; NL;
      "Example:"%string; TAB; "tar -c archive | "%string; name;
      " >archive.tar.lzpi"%string; NL;
      TAB; TAB; name; " <archive.tar.lzpi | tar -x"%string; NL;
      TAB; TAB; name; " -d <archive.tar.lzpi >archive.tar"%string; NL ].

(** [usage]: the return value and the text printed. *)
Definition usage (name : String.string) : Z * list diag :=
  (1, [Usage (usage_text name)]).

(** [if (UNLIKELY(ret = f(stdin, stdout))) perror(name);] *)
Definition report (name : String.string) (r : option (Z * sink))
  : option (Z * sink * list diag) :=
  match r with
  | None => None
  | Some (ret, o) =>
      Some (ret, o, if negb (ret =? 0) then [Perror name ret] else [])
  end.

(** [main]: [argv] is the argument vector, [argc] its length; the result
    is the return value, [stdout] and what was printed to [stderr]. An empty
    vector has a null [argv[0]], on which [strrchr] is undefined. *)
Definition main (x0 : ctx) (a0 buf0 : Z -> Z) (map0 : Z)
  (argv : list String.string) (stdin : source) (stdout : sink)
  : option (Z * sink * list diag) :=
  match argv with
  | [] => None
  | argv0 :: args =>
      let name := prog_name argv0 in
      match args with
      | [] => report name (compress x0 a0 stdin stdout)
      | [a] =>
          if match_decompress a then
            report name (decompress buf0 map0 stdin stdout)
          else Some (fst (usage name), stdout, snd (usage name))
      | _ => Some (fst (usage name), stdout, snd (usage name))
      end
  end.

(** ** Concrete inputs *)

Definition ideal_sink : sink :=
  {| written := []; wfail := fun _ => None; ferror := false |}.
Definition zero_ctx : ctx :=
  {| ctx_n := 0; ctx_c := 0; ctx_msk := 0;
     ctx_w := {| dictionary := mk_ring 0 0; lookahead := mk_ring 0 0;
                 bf := fun _ => 0 |};
     ctx_m := fun _ => mk_match 0 0 |}.
Definition zeros : Z -> Z := fun _ => 0.

Definition run_compress (s : list Z) : option (Z * list Z) :=
  match compress zero_ctx zeros s ideal_sink with
  | Some (r, o) => Some (r, written o)
  | None => None
  end.

Definition run_decompress (s : list Z) : option (Z * list Z) :=
  match decompress zeros 0 s ideal_sink with
  | Some (r, o) => Some (r, written o)
  | None => None
  end.

(** ** Specification predicates *)

Definition zlen {A : Type} (s : list A) : Z := Z.of_nat (length s).
Definition zn (s : list Z) (k : Z) : Z := nth (Z.to_nat k) s 0.
Definition bytes (s : list Z) : Prop := Forall (fun b => 0 <= b < 256) s.

(** A sink on which no write fails. *)
Definition sink_ok (o : sink) : Prop := forall k, wfail o k = None.

(** *** The wire format *)

(** A token is a back-reference when its length field is not zero. *)
Definition is_ref (t : match_t) : bool := negb (m_l t =? 0).

Definition tok_bytes (t : match_t) : list Z :=
  if is_ref t then [u8 (m_ov t); u8 (m_l t)] else [u8 (m_ov t)].

(** The control byte of a group when the kind of token [k] is held by bit
    [bitpos k]. *)
Fixpoint ctrl_from (bitpos : Z -> Z) (k : Z) (g : list match_t) : Z :=
  match g with
  | [] => 0
  | t :: g' =>
      Z.lor (if is_ref t then Z.shiftl 1 (bitpos k) else 0)
        (ctrl_from bitpos (k + 1) g')
  end.

Definition group_bytes (bitpos : Z -> Z) (g : list match_t) : list Z :=
  ctrl_from bitpos 0 g :: flat_map tok_bytes g.

(** Tokens in groups of eight, the last one possibly shorter. *)
Fixpoint groups_of (fuel : nat) (ts : list match_t) : list (list match_t) :=
  match fuel with
  | O => []
  | S fuel' =>
      match ts with
      | [] => []
      | _ => firstn 8 ts :: groups_of fuel' (skipn 8 ts)
      end
  end.

Definition groups (ts : list match_t) : list (list match_t) :=
  groups_of (length ts) ts.

Definition frame (bitpos : Z -> Z) (ts : list match_t) : list Z :=
  flat_map (group_bytes bitpos) (groups ts).

(** The bit order of the code and the bit order of the specification. *)
Definition lsb_first (k : Z) : Z := k.
Definition msb_first (k : Z) : Z := 7 - k.

(** Writing a list of bytes to a sink, up to the first write that fails. *)
Fixpoint write_all (bs : list Z) (o : sink) : option Z * sink :=
  match bs with
  | [] => (None, o)
  | b :: r =>
      match putc b o with
      | (Some e, o1) => (Some e, o1)
      | (None, o1) => write_all r o1
      end
  end.

Definition to_ret (r : option Z * sink) : Z * sink :=
  match r with
  | (Some e, o) => (fail_ret e o, o)
  | (None, o) => (0, o)
  end.

(** Bit [j] of [c] holds the kind of the first token of [g], bit [j + 1]
    the kind of the second one, and so on. *)
Fixpoint kinds_at (c : Z) (j : Z) (g : list match_t) : Prop :=
  match g with
  | [] => True
  | t :: g' => Z.testbit c j = is_ref t /\ kinds_at c (j + 1) g'
  end.

(** *** The tokens of a run of [compress]

    The loops of [compress] without the framing: the windows are read and
    shifted as [compress_fill] and [compress_drain] do and the tokens that
    [lz_match] yields are collected. There are no tokens ([None]) when the
    fuel runs out or when [wnd_read] reports a read error. *)
Fixpoint tokens_drain (fuel : nat) (a0 : Z -> Z) (w : wnd)
  : option (list match_t) :=
  match fuel with
  | O => None
  | S fuel' =>
      if negb (ring_size (lookahead w) =? 0) then
        let '(t, w') := lz_match a0 w in
        match tokens_drain fuel' a0 w' with
        | None => None
        | Some ts => Some (t :: ts)
        end
      else Some []
  end.

Fixpoint tokens_fill (fuel : nat) (a0 : Z -> Z) (w : wnd) (i : source)
  : option (list match_t) :=
  match fuel with
  | O => None
  | S fuel' =>
      match wnd_read w i with
      | None => None
      | Some (ret, w1, i') =>
          if ret =? 0 then
            let '(t, w') := lz_match a0 w1 in
            match tokens_fill fuel' a0 w' i' with
            | None => None
            | Some ts => Some (t :: ts)
            end
          else if negb (ret =? EOF) then None
          else tokens_drain (S (Z.to_nat (ring_size (lookahead w1)))) a0 w1
      end
  end.

Definition tokens (x0 : ctx) (a0 : Z -> Z) (i : list Z) : option (list match_t) :=
  tokens_fill (S (length i)) a0 (wnd_init (ctx_w x0)) i.

(** *** Tokens that describe a byte sequence *)

(** Token [t] takes the decoded prefix of [s] from length [pos] to length
    [pos']: a literal is the next byte of [s]; a back-reference repeats
    bytes of [s] that lie [m_ov t + 1] positions back. *)
Definition tok_ok (s : list Z) (pos : Z) (t : match_t) (pos' : Z) : Prop :=
  0 <= pos /\ pos' <= zlen s /\
  if is_ref t then
    0 <= m_ov t < 256 /\ 1 <= m_l t < 256 /\
    m_ov t + 1 <= pos /\ pos' = pos + m_l t + 1 /\
    forall x, 0 <= x <= m_l t -> zn s (pos + x - (m_ov t + 1)) = zn s (pos + x)
  else
    pos' = pos + 1 /\ m_ov t = zn s pos.

Fixpoint chain (s : list Z) (pos : Z) (ts : list match_t) (pos' : Z) : Prop :=
  match ts with
  | [] => pos = pos'
  | t :: r => exists q, tok_ok s pos t q /\ chain s q r pos'
  end.

(** *** Windows over a byte sequence *)

(** What [wnd_read] returns after a short read. *)
Definition end_ret (r : option Z) : Z :=
  match r with
  | None => EOF
  | Some e => e
  end.

(** The window [w] holds the bytes of [s] from position [pos - d] to
    position [pos + n]: [d] bytes of dictionary and [n] of lookahead. *)
Definition wnd_at (s : list Z) (w : wnd) (pos d n : Z) : Prop :=
  0 <= d <= 256 /\ 0 <= n <= 256 /\ d <= pos /\ pos + n <= zlen s /\
  dictionary w = mk_ring (wrap pos) (wrap (pos - d)) /\
  lookahead w = mk_ring (wrap (pos + n)) (wrap pos) /\
  forall k, pos - d <= k < pos + n -> bf w (k mod 512) = zn s k.

(** *** The state of the encoder *)

(** The first [n] entries of an array. *)
Definition arr_list {A : Type} (m : Z -> A) (n : nat) : list A :=
  map (fun k => m (Z.of_nat k)) (seq 0 n).

(** The mask once [k] tokens of the current group have been processed. *)
Definition msk_at (k : Z) : Z := Z.shiftl 16843009 ((k - 1) mod 8).

(** The context holds the tokens [pend] of the group in progress. *)
Definition ctx_inv (x : ctx) (pend : list match_t) : Prop :=
  ctx_n x = zlen pend /\ zlen pend <= 8 /\
  ctx_msk x = msk_at (zlen pend) /\
  pend = arr_list (ctx_m x) (length pend) /\
  (pend <> [] -> u8 (ctx_c x) = ctrl_from lsb_first 0 pend).

(** *** The state of the decoder *)

(** The output [out] is made of bytes, [buf] mirrors the last [RING_SIZE]
    of them and [mo] is the index of the next one. *)
Definition dec_hist (buf : Z -> Z) (mo : Z) (out : list Z) : Prop :=
  bytes out /\ mo = zlen out mod 256 /\
  forall k, 0 <= k < zlen out -> zlen out - 256 <= k ->
    buf (k mod 256) = zn out k.

(** The bytes [bs] appended to [out] repeat the output [dist] positions
    back, wherever there is such a position. *)
Definition copied (out : list Z) (dist : Z) (bs : list Z) : Prop :=
  forall x, 0 <= x < zlen bs -> 0 <= zlen out + x - dist ->
    zn (out ++ bs) (zlen out + x) = zn (out ++ bs) (zlen out + x - dist).

(** The decoder has written the first [pos] bytes of [s]. *)
Definition dec_at (s : list Z) (pos : Z) (buf : Z -> Z) (mo : Z) (o : sink)
  : Prop :=
  0 <= pos <= zlen s /\ sink_ok o /\
  written o = firstn (Z.to_nat pos) s /\ dec_hist buf mo (written o).

(** Where a compressed stream ends, token [k] of a group with control byte
    [c] being the next one expected. *)
Inductive stream_end : Type := Complete | AfterControl | MidBackref.

Fixpoint scan (fuel : nat) (k : Z) (c : Z) (i : list Z) : stream_end :=
  match fuel with
  | O => Complete
  | S fuel' =>
      match i with
      | [] => Complete
      | b :: i1 =>
          let '(c, i2) :=
            if k =? 0 then (b, i1) else (c, i) in
          match i2 with
          | [] => AfterControl
          | _ :: i3 =>
              if Z.testbit c k then
                match i3 with
                | [] => MidBackref
                | _ :: i4 => scan fuel' ((k + 1) mod 8) c i4
                end
              else scan fuel' ((k + 1) mod 8) c i3
          end
      end
  end.

Definition stream_ends (i : list Z) : stream_end := scan (S (length i)) 0 0 i.

(** ** Specification predicates: the search *)

(** Byte [k] of the lookahead (the pattern) and byte [k] of the text
    dictionary || lookahead, as [kmp_search] reads them from the buffer. *)
Definition look_byte (w : wnd) (k : Z) : Z :=
  bf w (ring_mask (wrap (r_tl (lookahead w) + k))).
Definition text_byte (w : wnd) (k : Z) : Z :=
  bf w (ring_mask (wrap (r_tl (dictionary w) + k))).

(** The first [l] bytes of the lookahead occur in the text at offset [o]. *)
Definition occurs (w : wnd) (o l : Z) : Prop :=
  forall x, 0 <= x < l -> text_byte w (o + x) = look_byte w x.

(** [b] is the length of a proper border of the first [k] pattern bytes. *)
Definition border (P : Z -> Z) (b k : Z) : Prop :=
  0 <= b < k /\ forall x, 0 <= x < b -> P x = P (k - b + x).

(** [t] holds the failure function of the first [m] pattern bytes. *)
Definition fail_table (P : Z -> Z) (t : Z -> Z) (m : Z) : Prop :=
  forall k, 1 <= k <= m ->
    border P (t (k - 1)) k /\ forall b, border P b k -> b <= t (k - 1).

(** [p] is no match at all, or a match that starts in the dictionary. *)
Definition match_found (w : wnd) (p : pair) : Prop :=
  (p_o p = 0 /\ p_l p = 0) \/
  (0 <= p_o p < ring_size (dictionary w) /\
   1 <= p_l p <= ring_size (lookahead w) /\
   occurs w (p_o p) (p_l p)).

(** No match that starts in the dictionary before offset [o] is longer than [p]. *)
Definition longest_before (w : wnd) (o : Z) (p : pair) : Prop :=
  forall o' l', 0 <= o' < o -> 0 <= l' <= ring_size (lookahead w) ->
    occurs w o' l' -> l' <= p_l p.

(** No match that starts before [p] is as long as [p]. *)
Definition leftmost (w : wnd) (p : pair) : Prop :=
  forall o' l', 0 <= o' < p_o p -> 0 <= l' <= ring_size (lookahead w) ->
    occurs w o' l' -> l' < p_l p.

(** [s] holds a slash. *)
Fixpoint has_slash (s : String.string) : bool :=
  match s with
  | String.EmptyString => false
  | String.String c r => Ascii.eqb c "/"%char || has_slash r
  end.

(** The window invariants of the data model. *)
Definition wnd_inv (w : wnd) : Prop :=
  r_hd (dictionary w) = r_tl (lookahead w) /\
  ring_size (dictionary w) <= RING_SIZE /\
  ring_size (lookahead w) <= RING_SIZE.

(** The fields of a window are [size_t] values. *)
Definition wnd_wf (w : wnd) : Prop :=
  wnd_inv w /\
  0 <= r_tl (lookahead w) < SIZE_MOD /\
  0 <= r_hd (lookahead w) < SIZE_MOD /\
  0 <= r_tl (dictionary w) < SIZE_MOD.

(** ** Statements and concrete states used by the claims *)


(** The order of the kind bits in the control bytes of the compressed
    stream: [compress] has tokens and writes their frame, in which bit
    [bitpos k] of a control byte holds the kind of token [k]. *)
Definition wire_order (bitpos : Z -> Z) : Prop :=
  forall x0 a0 s,
    exists ts o,
      tokens x0 a0 s = Some ts /\
      compress x0 a0 s ideal_sink = Some (0, o) /\
      written o = frame bitpos ts.

(** The claim on [kmp_search] as the specification states it. *)
Definition kmp_as_stated : Prop :=
  forall a0 w,
    wnd_wf w ->
    (2 <= ring_size (lookahead w) ->
       match_found w (kmp_search a0 w) /\
       longest_before w (ring_size (dictionary w)) (kmp_search a0 w)) /\
    (ring_size (lookahead w) < 2 -> p_l (kmp_search a0 w) = 0).

(** The result of a run of [decompress] when a read error that leaves [e]
    in [errno] takes the place of the end of the file: [e] is returned
    unless a write has failed. *)
Definition after_error (e : Z) (r : option (Z * sink)) : option (Z * sink) :=
  match r with
  | Some (ret, o') => Some (if ferror o' then ret else e, o')
  | None => None
  end.



(** Windows and a sink on which the claims are tried. *)
Definition w_AA : wnd :=
  {| dictionary := mk_ring 1 0; lookahead := mk_ring 2 1; bf := fun _ => 65 |}.

Definition w_ABAB : wnd :=
  {| dictionary := mk_ring 2 0; lookahead := mk_ring 6 2;
     bf := fun k => 65 + k mod 2 |}.

Definition sink_A : sink :=
  {| written := [65]; wfail := fun _ => None; ferror := false |}.

(** Case analysis on a token index [k] known to lie between 0 and 8. *)
Ltac cases_upto k :=
  let Hc := fresh "Hc" in
  assert (k = 0 \/ k = 1 \/ k = 2 \/ k = 3 \/ k = 4 \/ k = 5 \/ k = 6
          \/ k = 7 \/ k = 8) as Hc by lia;
  repeat (destruct Hc as [Hc|Hc]); subst k; try lia.

(** * Proofs *)

Lemma RING_SIZE_eq : RING_SIZE = 256.
Proof. reflexivity. Qed.

Lemma ring_mask_mod (x : Z) : ring_mask x = x mod 512.
Proof.
  unfold ring_mask. rewrite RING_SIZE_eq.
  change (wrap (wrap (Z.shiftl 256 1) - 1)) with (Z.ones 9).
  rewrite Z.land_ones by lia. reflexivity.
Qed.

Lemma ring_run_eq (r : ring) : ring_run r = 512 - r_hd r mod 512.
Proof.
  unfold ring_run. rewrite ring_mask_mod, RING_SIZE_eq.
  change (wrap (Z.shiftl 256 1)) with 512.
  unfold wrap, SIZE_MOD. lia.
Qed.

Lemma ring_size_range (r : ring) : 0 <= ring_size r < SIZE_MOD.
Proof. unfold ring_size, wrap, SIZE_MOD. lia. Qed.

Lemma ring_capacity_eq (r : ring) :
  ring_size r <= RING_SIZE -> ring_capacity r = 256 - ring_size r.
Proof.
  pose proof (ring_size_range r) as H. rewrite RING_SIZE_eq. intros Hle.
  unfold ring_capacity. rewrite RING_SIZE_eq.
  unfold wrap, SIZE_MOD in *. lia.
Qed.

(** *** [wnd_init] and [wnd_shift] keep the invariants *)

Lemma wnd_init_inv (w : wnd) : wnd_inv (wnd_init w).
Proof. repeat split; vm_compute; (reflexivity || discriminate). Qed.

Lemma wnd_shift_inv (w : wnd) (n : Z) :
  wnd_inv w -> 0 <= n <= ring_size (lookahead w) -> wnd_inv (wnd_shift w n).
Proof.
  intros (Hadj & Hd & Hl) Hn.
  pose proof (ring_capacity_eq _ Hd) as Hc.
  pose proof (ring_size_range (dictionary w)) as Hdr.
  rewrite RING_SIZE_eq in *.
  unfold wnd_inv, wnd_shift. cbn [dictionary lookahead r_hd r_tl].
  rewrite Hc, RING_SIZE_eq. clear Hc.
  unfold ring_size in *. cbn [r_hd r_tl]. rewrite Hadj in *.
  destruct (n >? 256 - wrap (r_tl (lookahead w) - r_tl (dictionary w))) eqn:E;
    [apply Z.gtb_lt in E | rewrite Z.gtb_ltb in E; apply Z.ltb_ge in E];
    unfold wrap, SIZE_MOD in *; repeat split; lia.
Qed.

(** *** [wnd_read] terminates and keeps the invariants *)

Lemma fread_length (b : Z -> Z) (p u : Z) (i : source) :
  forall n b' i', fread b p u i = (n, b', i') ->
    0 <= n /\ (0 <= u -> n <= u) /\
    Z.of_nat (length (data i)) = n + Z.of_nat (length (data i'))
    /\ (0 <= u -> n <> u -> data i' = []).
Proof.
  unfold fread. intros n b' i' E. inversion E; subst; clear E.
  cbn [data]. rewrite length_firstn, length_skipn. repeat split; try lia.
  intros Hu Hne. apply length_zero_iff_nil. rewrite length_skipn. lia.
Qed.

Lemma wnd_read_loop_inv (fuel : nat) :
  forall w i, wnd_inv w -> (length (data i) < fuel)%nat ->
    exists ret w' i', wnd_read_loop fuel w i = Some (ret, w', i') /\ wnd_inv w'.
Proof.
  induction fuel as [|fuel IH]; intros w i Hinv Hf; [lia|].
  cbn [wnd_read_loop].
  destruct (fread (bf w) (ring_mask (r_hd (lookahead w)))
              (if ring_capacity (lookahead w) >? ring_run (lookahead w)
               then ring_run (lookahead w) else ring_capacity (lookahead w)) i)
    as [[n b] i'] eqn:Efr.
  apply fread_length in Efr. destruct Efr as (Hn0 & Hnu & Hlen & _).
  destruct Hinv as (Hadj & Hd & Hl).
  pose proof (ring_capacity_eq _ Hl) as Hc.
  pose proof (ring_size_range (lookahead w)) as Hlr.
  pose proof (ring_run_eq (lookahead w)) as Hr.
  rewrite RING_SIZE_eq in *.
  set (u := if ring_capacity (lookahead w) >? ring_run (lookahead w)
            then ring_run (lookahead w) else ring_capacity (lookahead w)) in *.
  assert (Hu : 0 <= u <= 256 - ring_size (lookahead w) /\
               (ring_capacity (lookahead w) <> u -> 1 <= u)).
  { subst u. rewrite Hc, Hr.
    destruct (256 - ring_size (lookahead w) >? 512 - r_hd (lookahead w) mod 512) eqn:E;
      [apply Z.gtb_lt in E | rewrite Z.gtb_ltb in E; apply Z.ltb_ge in E]; lia. }
  destruct Hu as (Hu & Hu1). specialize (Hnu (proj1 Hu)).
  set (w' := {| dictionary := dictionary w;
                lookahead := {| r_hd := wrap (r_hd (lookahead w) + n);
                                r_tl := r_tl (lookahead w) |};
                bf := b |}).
  assert (Hinv' : wnd_inv w').
  { unfold wnd_inv, w'. cbn [dictionary lookahead]. rewrite RING_SIZE_eq.
    repeat split; auto.
    unfold ring_size in *. cbn [r_hd r_tl]. unfold wrap, SIZE_MOD in *. lia. }
  destruct (n =? u) eqn:Enu; cbn [negb].
  2:{ unfold feof, ferror_in, errno_in. destruct (rerr i'); eauto. }
  apply Z.eqb_eq in Enu.
  destruct (ring_capacity (lookahead w) =? u) eqn:Ecu.
  { eauto. }
  apply Z.eqb_neq in Ecu. specialize (Hu1 Ecu).
  apply IH; auto. lia.
Qed.



(** ** Arithmetic of [size_t] cursors *)

Lemma wrap_range (x : Z) : 0 <= wrap x < SIZE_MOD.
Proof. unfold wrap, SIZE_MOD. lia. Qed.

Lemma wrap_small (x : Z) : 0 <= x < SIZE_MOD -> wrap x = x.
Proof. unfold wrap, SIZE_MOD. lia. Qed.

Lemma wrap_succ (t k : Z) : wrap (wrap (t + k) + 1) = wrap (t + (k + 1)).
Proof. unfold wrap, SIZE_MOD. lia. Qed.

Lemma wrap_diff (t a b : Z) :
  0 <= a - b < SIZE_MOD -> wrap (wrap (t + a) - wrap (t + b)) = a - b.
Proof. unfold wrap, SIZE_MOD. lia. Qed.

Lemma wrap_diff0 (t a : Z) :
  0 <= t < SIZE_MOD -> 0 <= a < SIZE_MOD -> wrap (wrap (t + a) - t) = a.
Proof. unfold wrap, SIZE_MOD. lia. Qed.

Lemma wrap_eqb (t a b : Z) :
  - SIZE_MOD < a - b < SIZE_MOD -> (wrap (t + a) =? wrap (t + b)) = (a =? b).
Proof.
  intros H. destruct (a =? b) eqn:E.
  - apply Z.eqb_eq in E. subst. apply Z.eqb_refl.
  - apply Z.eqb_neq in E. apply Z.eqb_neq. unfold wrap, SIZE_MOD in *. lia.
Qed.

Lemma wrap_eqb0 (t a : Z) :
  0 <= t < SIZE_MOD -> - SIZE_MOD < a < SIZE_MOD -> (wrap (t + a) =? t) = (a =? 0).
Proof.
  intros Ht H. rewrite <- (wrap_small t) at 2 by assumption.
  replace (wrap t) with (wrap (t + 0)) by (f_equal; lia).
  apply wrap_eqb. lia.
Qed.

Section Window.
Variable w : wnd.
Hypothesis Hwf : wnd_wf w.

Let tl := r_tl (lookahead w).
Let dtl := r_tl (dictionary w).
Let n := ring_size (lookahead w).
Let d := ring_size (dictionary w).

Lemma wf_sizes : 0 <= n <= 256 /\ 0 <= d <= 256.
Proof.
  destruct Hwf as ((_ & Hd & Hl) & _). rewrite RING_SIZE_eq in *.
  pose proof (ring_size_range (lookahead w)).
  pose proof (ring_size_range (dictionary w)). subst n d. lia.
Qed.

Lemma wf_hd : r_hd (lookahead w) = wrap (tl + n).
Proof.
  destruct Hwf as (_ & Htl & Hhd & _). subst tl n.
  unfold ring_size, wrap, SIZE_MOD in *. lia.
Qed.

Lemma wf_tl : tl = wrap (dtl + d).
Proof.
  destruct Hwf as ((Hadj & _) & Htl & _ & Hdtl). subst tl dtl d.
  unfold ring_size. rewrite Hadj.
  unfold wrap, SIZE_MOD in *. lia.
Qed.

Lemma wf_tl_range : 0 <= tl < SIZE_MOD.
Proof. apply Hwf. Qed.

Lemma wf_dtl_range : 0 <= dtl < SIZE_MOD.
Proof. apply Hwf. Qed.

Lemma text_look (k : Z) : text_byte w (d + k) = look_byte w k.
Proof.
  unfold text_byte, look_byte. fold tl dtl. f_equal. f_equal.
  rewrite wf_tl. unfold wrap, SIZE_MOD. lia.
Qed.

(** One iteration of the loop of [kmp_init], on cursor offsets. *)
Lemma kmp_init_loop_step (f : nat) (t : Z -> Z) (ii jj : Z) :
  0 <= ii < jj -> 0 <= jj < n ->
  kmp_init_loop (S f) w t (wrap (tl + ii)) (wrap (tl + jj)) =
    if look_byte w ii =? look_byte w jj then
      if jj + 1 =? n then upd t jj (ii + 1)
      else kmp_init_loop f w (upd t jj (ii + 1))
             (wrap (tl + (ii + 1))) (wrap (tl + (jj + 1)))
    else if ii =? 0 then
      if jj + 1 =? n then upd t jj 0
      else kmp_init_loop f w (upd t jj 0) (wrap (tl + ii)) (wrap (tl + (jj + 1)))
    else kmp_init_loop f w t (wrap (tl + t (ii - 1))) (wrap (tl + jj)).
Proof.
  intros Hii Hjj. pose proof wf_sizes as Hs. pose proof wf_tl_range as Htl.
  cbn [kmp_init_loop]. fold tl. change SIZE_MOD with 18446744073709551616 in Htl.
  change (bf w (ring_mask (wrap (tl + ii)))) with (look_byte w ii).
  change (bf w (ring_mask (wrap (tl + jj)))) with (look_byte w jj).
  rewrite !wrap_succ, wf_hd.
  rewrite !wrap_diff0 by (unfold SIZE_MOD; lia).
  rewrite wrap_eqb0 by (unfold SIZE_MOD; lia).
  destruct (look_byte w ii =? look_byte w jj).
  - rewrite wrap_eqb by (unfold SIZE_MOD; lia).
    replace (u8 (ii + 1)) with (ii + 1) by (unfold u8; lia). reflexivity.
  - destruct (ii =? 0) eqn:E0.
    + rewrite wrap_eqb by (unfold SIZE_MOD; lia). reflexivity.
    + rewrite wrap_eqb by (unfold SIZE_MOD; lia).
      replace (jj =? n) with false by (symmetry; apply Z.eqb_neq; lia).
      apply Z.eqb_neq in E0.
      rewrite (wrap_small (ii - 1)) by (unfold SIZE_MOD; lia). reflexivity.
Qed.

(** One iteration of the loop of [kmp_search], on the offset [o] of the
    candidate and the length [l] matched so far. *)
Lemma kmp_search_loop_step (f : nat) (a : Z -> Z) (p : pair) (o l : Z) :
  0 <= o <= d -> 0 <= l < n ->
  kmp_search_loop (S f) w a p (wrap (tl + l)) (wrap (dtl + (o + l))) =
    if o =? d then p
    else if look_byte w l =? text_byte w (o + l) then
      if l + 1 =? n then mk_pair o (l + 1)
      else kmp_search_loop f w a p (wrap (tl + (l + 1)))
             (wrap (dtl + (o + (l + 1))))
    else if l =? 0 then
      kmp_search_loop f w a p (wrap (tl + l)) (wrap (dtl + (o + 1 + l)))
    else
      kmp_search_loop f w a (if l >? p_l p then mk_pair o l else p)
        (wrap (tl + a (l - 1))) (wrap (dtl + (o + l))).
Proof.
  intros Ho Hl. pose proof wf_sizes as Hs. pose proof wf_tl_range as Htl.
  pose proof wf_dtl_range as Hdtl.
  change SIZE_MOD with 18446744073709551616 in Htl, Hdtl.
  cbn [kmp_search_loop]. fold tl dtl d.
  change (bf w (ring_mask (wrap (tl + l)))) with (look_byte w l).
  change (bf w (ring_mask (wrap (dtl + (o + l))))) with (text_byte w (o + l)).
  rewrite !wrap_succ, wf_hd. fold tl n.
  rewrite !wrap_diff0 by (unfold SIZE_MOD; lia).
  rewrite wrap_eqb0 by (unfold SIZE_MOD; lia).
  rewrite (wrap_eqb tl) by (unfold SIZE_MOD; lia).
  rewrite (wrap_small (o + l - l)) by (unfold SIZE_MOD; lia).
  replace (o + l - l) with o by lia.
  replace (wrap (dtl + (o + l)) =? wrap (tl + n)) with false.
  2:{ symmetry. rewrite wf_tl. fold dtl d. apply Z.eqb_neq.
      unfold wrap, SIZE_MOD. lia. }
  rewrite (wrap_small (l + 1)) by (unfold SIZE_MOD; lia).
  destruct (o =? d); [reflexivity|].
  destruct (look_byte w l =? text_byte w (o + l)).
  { replace (o + (l + 1)) with (o + l + 1) by lia. reflexivity. }
  destruct (l =? 0) eqn:E0.
  - replace (o + 1 + l) with (o + l + 1) by lia. reflexivity.
  - apply Z.eqb_neq in E0.
    rewrite (wrap_small (l - 1)) by (unfold SIZE_MOD; lia). reflexivity.
Qed.

(** *** The failure table *)

Lemma fail_table_upd (t : Z -> Z) (jj v : Z) :
  0 <= jj ->
  fail_table (look_byte w) t jj ->
  border (look_byte w) v (jj + 1) ->
  (forall b, border (look_byte w) b (jj + 1) -> b <= v) ->
  fail_table (look_byte w) (upd t jj v) (jj + 1).
Proof.
  intros Hjj Ht Hb Hmax k Hk. unfold upd.
  destruct (k - 1 =? jj) eqn:E.
  - apply Z.eqb_eq in E. replace k with (jj + 1) by lia. auto.
  - apply Z.eqb_neq in E. apply Ht. lia.
Qed.

Lemma border_pred (b jj : Z) :
  1 <= b -> border (look_byte w) b (jj + 1) ->
  border (look_byte w) (b - 1) jj /\ look_byte w (b - 1) = look_byte w jj.
Proof.
  intros Hb (Hr & Heq). split; [split; [lia|]|].
  - intros x Hx. rewrite Heq by lia. f_equal. lia.
  - rewrite Heq by lia. f_equal. lia.
Qed.

Lemma kmp_init_loop_ok (fuel : nat) :
  forall t ii jj,
    0 <= ii < jj -> jj < n ->
    fail_table (look_byte w) t jj ->
    border (look_byte w) ii jj ->
    (forall b, border (look_byte w) b jj -> ii < b ->
               look_byte w b <> look_byte w jj) ->
    2 * n - (2 * jj - ii) <= Z.of_nat fuel ->
    fail_table (look_byte w)
      (kmp_init_loop fuel w t (wrap (tl + ii)) (wrap (tl + jj))) n.
Proof.
  induction fuel as [|fuel IH]; intros t ii jj Hii Hjj Ht Hb Hext Hf; [lia|].
  rewrite kmp_init_loop_step by lia.
  destruct (look_byte w ii =? look_byte w jj) eqn:Eb.
  - apply Z.eqb_eq in Eb.
    assert (Hb' : border (look_byte w) (ii + 1) (jj + 1)).
    { destruct Hb as (_ & Hb). split; [lia|]. intros x Hx.
      destruct (Z.eq_dec x ii) as [->|Hne].
      - rewrite Eb. f_equal. lia.
      - rewrite Hb by lia. f_equal. lia. }
    assert (Hmax : forall b, border (look_byte w) b (jj + 1) -> b <= ii + 1).
    { intros b Hbb. destruct (Z_lt_le_dec b 1) as [|Hb1]; [lia|].
      destruct (border_pred _ _ Hb1 Hbb) as (Hp & Hq).
      destruct (Z_lt_le_dec ii (b - 1)) as [Hlt|]; [|lia].
      exfalso. exact (Hext _ Hp Hlt Hq). }
    pose proof (fail_table_upd t jj (ii + 1) ltac:(lia) Ht Hb' Hmax) as Ht'.
    destruct (jj + 1 =? n) eqn:En.
    + apply Z.eqb_eq in En. rewrite <- En. exact Ht'.
    + apply Z.eqb_neq in En. apply IH; auto; try lia.
      intros b Hbb Hlt. apply Hmax in Hbb. lia.
  - apply Z.eqb_neq in Eb. destruct (ii =? 0) eqn:E0.
    + apply Z.eqb_eq in E0. subst ii.
      assert (Hb' : border (look_byte w) 0 (jj + 1)).
      { split; [lia|]. intros x Hx. lia. }
      assert (Hmax : forall b, border (look_byte w) b (jj + 1) -> b <= 0).
      { intros b Hbb. destruct (Z_lt_le_dec b 1) as [|Hb1]; [lia|].
        destruct (border_pred _ _ Hb1 Hbb) as (Hp & Hq).
        destruct (Z_lt_le_dec 0 (b - 1)) as [Hlt|Hle].
        - exfalso. exact (Hext _ Hp Hlt Hq).
        - exfalso. replace (b - 1) with 0 in Hq by (destruct Hp; lia). auto. }
      pose proof (fail_table_upd t jj 0 ltac:(lia) Ht Hb' Hmax) as Ht'.
      destruct (jj + 1 =? n) eqn:En.
      * apply Z.eqb_eq in En. rewrite <- En. exact Ht'.
      * apply Z.eqb_neq in En. apply IH; auto; try lia.
        intros b Hbb Hlt. apply Hmax in Hbb. lia.
    + apply Z.eqb_neq in E0.
      destruct (Ht ii ltac:(lia)) as (Hbi & Hmi).
      destruct Hb as (Hbr & Hb). destruct Hbi as (Hbir & Hbi).
      apply IH; auto; try lia.
      * split; [lia|]. intros x Hx.
        rewrite Hbi by lia. rewrite Hb by lia. f_equal. lia.
      * intros b (Hbbr & Hbb) Hlt.
        destruct (Z_lt_le_dec ii b) as [Hgt|Hle].
        { apply Hext; [split; auto | lia]. }
        destruct (Z.eq_dec b ii) as [->|Hne]; [exact Eb|].
        exfalso. assert (Hbi' : border (look_byte w) b ii).
        { split; [lia|]. intros x Hx. rewrite Hbb by lia.
          rewrite (Hb (ii - b + x)) by lia. f_equal. lia. }
        apply Hmi in Hbi'. lia.
Qed.

Lemma kmp_init_ok (t : Z -> Z) :
  2 <= n -> fail_table (look_byte w) (kmp_init t w) n.
Proof.
  intros Hn. unfold kmp_init. fold n tl.
  replace (n <? 2) with false by (symmetry; apply Z.ltb_ge; lia).
  pose proof wf_tl_range as Htl.
  rewrite <- (wrap_small tl) at 1 by assumption.
  replace (wrap tl) with (wrap (tl + 0)) by (f_equal; lia).
  apply kmp_init_loop_ok; try lia.
  - intros k Hk. replace k with 1 by lia. cbn. split.
    + split; [lia|]. intros x Hx. lia.
    + intros b ((Hb & Hb') & _). lia.
  - split; [lia|]. intros x Hx. lia.
  - intros b ((Hb & Hb') & _) Hlt. lia.
Qed.

(** *** The search *)

Lemma kmp_search_loop_ok (a : Z -> Z) (fuel : nat) :
  (2 <= n -> fail_table (look_byte w) a n) ->
  forall p o l,
    0 <= o <= d -> 0 <= l < n -> occurs w o l ->
    match_found w p -> longest_before w o p ->
    2 * d + n + 1 - (2 * o + l) <= Z.of_nat fuel ->
    match_found w
      (kmp_search_loop fuel w a p (wrap (tl + l)) (wrap (dtl + (o + l)))) /\
    longest_before w d
      (kmp_search_loop fuel w a p (wrap (tl + l)) (wrap (dtl + (o + l)))).
Proof.
  intros Ha. induction fuel as [|fuel IH]; intros p o l Ho Hl Hocc Hp Hlong Hf;
    [lia|].
  assert (Hpl : 0 <= p_l p).
  { destruct Hp as [(_ & ->)|(_ & ? & _)]; lia. }
  rewrite kmp_search_loop_step by lia.
  destruct (o =? d) eqn:Eod.
  { apply Z.eqb_eq in Eod. subst o. auto. }
  apply Z.eqb_neq in Eod.
  destruct (look_byte w l =? text_byte w (o + l)) eqn:Eb.
  - apply Z.eqb_eq in Eb.
    assert (Hocc' : occurs w o (l + 1)).
    { intros x Hx. destruct (Z.eq_dec x l) as [->|]; [auto|apply Hocc; lia]. }
    destruct (l + 1 =? n) eqn:En.
    + apply Z.eqb_eq in En. split.
      * right. cbn [p_o p_l]. fold d n. repeat split; try lia. exact Hocc'.
      * intros o' l' Ho' Hl' _. cbn [p_l]. fold n in Hl'. lia.
    + apply Z.eqb_neq in En. apply IH; auto; lia.
  - apply Z.eqb_neq in Eb. destruct (l =? 0) eqn:E0.
    + apply Z.eqb_eq in E0. subst l.
      apply IH; auto; try lia.
      * intros x Hx. lia.
      * intros o' l' Ho' Hl' Hocc'.
        destruct (Z.eq_dec o' o) as [->|]; [|apply (Hlong o'); auto; lia].
        destruct (Z_lt_le_dec 0 l') as [Hpos|]; [|lia].
        exfalso. apply Eb. symmetry. apply Hocc'. lia.
    + apply Z.eqb_neq in E0.
      destruct (Ha ltac:(lia) l ltac:(lia)) as ((Hbr & Hbe) & Hmax).
      set (al := a (l - 1)) in *.
      set (p' := if l >? p_l p then {| p_o := o; p_l := l |} else p).
      assert (Hp'l : l <= p_l p' /\ p_l p <= p_l p').
      { subst p'. destruct (l >? p_l p) eqn:E;
          [apply Z.gtb_lt in E | rewrite Z.gtb_ltb in E; apply Z.ltb_ge in E];
          cbn [p_l]; lia. }
      assert (Hp' : match_found w p').
      { subst p'. destruct (l >? p_l p); [|exact Hp].
        right. cbn [p_o p_l]. fold d n. repeat split; try lia. exact Hocc. }
      assert (Hod : o + l - al <= d).
      { destruct (Z_lt_le_dec d (o + l)) as [Hgt|]; [|lia].
        assert (Hbe' : border (look_byte w) (o + l - d) l).
        { split; [lia|]. intros x Hx.
          rewrite <- (text_look x). rewrite <- Hocc by lia. f_equal. fold d. lia. }
        apply Hmax in Hbe'. lia. }
      replace (o + l) with (o + l - al + al) by lia.
      apply IH; auto; try lia.
      * intros x Hx. replace (o + l - al + x) with (o + (l - al + x)) by lia.
        rewrite Hocc by lia. symmetry. apply Hbe. lia.
      * intros o' l' Ho' Hl' Hocc'. fold n in Hl'.
        destruct (Z_lt_le_dec o' o) as [Hlt|Hge].
        { specialize (Hlong o' l' ltac:(lia) Hl' Hocc'). lia. }
        destruct (Z_lt_le_dec l' (l + 1)) as [|Hgt]; [lia|]. exfalso.
        destruct (Z.eq_dec o' o) as [->|Hne].
        { apply Eb. symmetry. apply Hocc'. lia. }
        assert (Hbe' : border (look_byte w) (o + l - o') l).
        { split; [lia|]. intros x Hx.
          rewrite <- Hocc' by lia. rewrite <- Hocc by lia. f_equal. lia. }
        apply Hmax in Hbe'. lia.
Qed.

Lemma kmp_search_ok (a0 : Z -> Z) :
  1 <= n ->
  match_found w (kmp_search a0 w) /\ longest_before w d (kmp_search a0 w).
Proof.
  intros Hn. unfold kmp_search. fold n d tl dtl.
  pose proof wf_tl_range as Htl. pose proof wf_dtl_range as Hdtl.
  pose proof wf_sizes as Hs.
  assert (Hk : match_found w (mk_pair 0 0)) by (left; auto).
  pose proof (kmp_search_loop_ok (kmp_init a0 w)
                (Z.to_nat (2 * (d + n) + 1))
                (fun Hn2 => kmp_init_ok a0 Hn2)
                (mk_pair 0 0) 0 0 ltac:(lia) ltac:(lia)
                ltac:(intros x Hx; lia) Hk
                ltac:(intros o' l' Ho'; lia) ltac:(lia)) as H.
  replace (wrap (tl + 0)) with tl in H
    by (rewrite Z.add_0_r, wrap_small; auto).
  replace (wrap (dtl + (0 + 0))) with dtl in H
    by (rewrite !Z.add_0_r, wrap_small; auto).
  exact H.
Qed.

End Window.

(** ** Lists indexed by [Z] *)

Lemma zlen_nonneg {A : Type} (s : list A) : 0 <= zlen s.
Proof. unfold zlen. lia. Qed.

Lemma zlen_app {A : Type} (s t : list A) : zlen (s ++ t) = zlen s + zlen t.
Proof. unfold zlen. rewrite length_app. lia. Qed.

Lemma zlen_cons {A : Type} (a : A) (s : list A) : zlen (a :: s) = zlen s + 1.
Proof. unfold zlen. cbn [length]. lia. Qed.

Lemma zn_cons (a : Z) (s : list Z) (k : Z) :
  zn (a :: s) k = if k <=? 0 then a else zn s (k - 1).
Proof.
  unfold zn. destruct (k <=? 0) eqn:E.
  - apply Z.leb_le in E. replace (Z.to_nat k) with O by lia. reflexivity.
  - apply Z.leb_gt in E. replace (Z.to_nat k) with (S (Z.to_nat (k - 1))) by lia.
    reflexivity.
Qed.

Lemma zn_app_l (s t : list Z) (k : Z) :
  0 <= k < zlen s -> zn (s ++ t) k = zn s k.
Proof. unfold zn, zlen. intros H. apply app_nth1. lia. Qed.

Lemma zn_app_r (s t : list Z) (k : Z) :
  zlen s <= k -> zn (s ++ t) k = zn t (k - zlen s).
Proof.
  unfold zn, zlen. intros H. rewrite app_nth2 by lia. f_equal. lia.
Qed.

Lemma zn_skipn (s : list Z) (a k : Z) :
  0 <= a -> 0 <= k -> zn (skipn (Z.to_nat a) s) k = zn s (a + k).
Proof.
  intros Ha Hk. unfold zn. rewrite nth_skipn. f_equal. lia.
Qed.

Lemma zn_firstn (s : list Z) (m : nat) (k : Z) :
  0 <= k < Z.of_nat m -> zn (firstn m s) k = zn s k.
Proof.
  intros H. unfold zn. rewrite nth_firstn.
  replace (Z.to_nat k <? m)%nat with true; auto.
  symmetry. apply Nat.ltb_lt. lia.
Qed.

Lemma upd_same {A : Type} (f : Z -> A) (k : Z) (v : A) : upd f k v k = v.
Proof. unfold upd. rewrite Z.eqb_refl. reflexivity. Qed.

Lemma upd_other {A : Type} (f : Z -> A) (k x : Z) (v : A) :
  x <> k -> upd f k v x = f x.
Proof. unfold upd. intros H. apply Z.eqb_neq in H. rewrite H. reflexivity. Qed.

Lemma store_bytes_spec (bs : list Z) :
  forall b p x,
    store_bytes b p bs x =
      if (p <=? x) && (x <? p + zlen bs) then zn bs (x - p) else b x.
Proof.
  induction bs as [|a r IH]; intros b p x; cbn [store_bytes].
  - unfold zlen. cbn [length]. destruct (p <=? x) eqn:E1; cbn [andb]; auto.
    replace (x <? p + Z.of_nat 0) with false; auto.
    symmetry. apply Z.ltb_ge. apply Z.leb_le in E1. lia.
  - rewrite IH, zlen_cons, zn_cons. unfold upd.
    pose proof (zlen_nonneg r) as Hr.
    destruct (p + 1 <=? x) eqn:E1, (p <=? x) eqn:E2, (x <? p + 1 + zlen r) eqn:E3,
      (x <? p + (zlen r + 1)) eqn:E4, (x - p <=? 0) eqn:E5, (x =? p) eqn:E6;
      cbn [andb]; try reflexivity;
      rewrite ?Z.leb_le, ?Z.leb_gt, ?Z.ltb_lt, ?Z.ltb_ge, ?Z.eqb_eq, ?Z.eqb_neq in *;
      try lia.
    f_equal. lia.
Qed.

(** ** Windows over a byte sequence *)

Lemma mod512_wrap (x : Z) : wrap x mod 512 = x mod 512.
Proof. unfold wrap, SIZE_MOD. lia. Qed.

Section WindowAt.
Variable s : list Z.

Lemma wnd_at_wf (w : wnd) (pos d n : Z) :
  wnd_at s w pos d n ->
  wnd_wf w /\ ring_size (dictionary w) = d /\ ring_size (lookahead w) = n.
Proof.
  intros (Hd & Hn & Hp & Hlen & Edict & Elook & _).
  assert (Ed : ring_size (dictionary w) = d).
  { rewrite Edict. unfold ring_size. cbn [r_hd r_tl].
    unfold wrap, SIZE_MOD. lia. }
  assert (En : ring_size (lookahead w) = n).
  { rewrite Elook. unfold ring_size. cbn [r_hd r_tl].
    unfold wrap, SIZE_MOD. lia. }
  repeat split; auto; rewrite ?Ed, ?En, ?RING_SIZE_eq, ?Edict, ?Elook;
    cbn [r_hd r_tl]; try lia; try apply wrap_range; try reflexivity.
Qed.

Lemma wnd_at_look (w : wnd) (pos d n k : Z) :
  wnd_at s w pos d n -> - d <= k < n -> look_byte w k = zn s (pos + k).
Proof.
  intros (Hd & Hn & Hp & Hlen & Edict & Elook & Hbf) Hk.
  unfold look_byte. rewrite Elook. cbn [r_tl].
  rewrite ring_mask_mod, mod512_wrap.
  replace ((wrap pos + k) mod 512) with ((pos + k) mod 512)
    by (unfold wrap, SIZE_MOD; lia).
  apply Hbf. lia.
Qed.

Lemma wnd_at_text (w : wnd) (pos d n k : Z) :
  wnd_at s w pos d n -> 0 <= k < d + n -> text_byte w k = zn s (pos - d + k).
Proof.
  intros (Hd & Hn & Hp & Hlen & Edict & Elook & Hbf) Hk.
  unfold text_byte. rewrite Edict. cbn [r_tl].
  rewrite ring_mask_mod, mod512_wrap.
  replace ((wrap (pos - d) + k) mod 512) with ((pos - d + k) mod 512)
    by (unfold wrap, SIZE_MOD; lia).
  apply Hbf. lia.
Qed.

Lemma wnd_at_init (w : wnd) : wnd_at s (wnd_init w) 0 0 0.
Proof.
  unfold wnd_at, wnd_init. cbn [dictionary lookahead bf].
  pose proof (zlen_nonneg s). repeat split; try lia.
Qed.

Lemma wnd_at_shift (w : wnd) (pos d n k : Z) :
  wnd_at s w pos d n -> 0 <= k <= n ->
  wnd_at s (wnd_shift w k) (pos + k) (Z.min 256 (d + k)) (n - k).
Proof.
  intros Hat Hk. destruct (wnd_at_wf _ _ _ _ Hat) as (Hwf & Ed & En).
  destruct Hat as (Hd & Hn & Hp & Hlen & Edict & Elook & Hbf).
  assert (Hc : ring_capacity (dictionary w) = 256 - d).
  { rewrite ring_capacity_eq; [lia | rewrite Ed, RING_SIZE_eq; lia]. }
  unfold wnd_at, wnd_shift. rewrite Hc, Edict, Elook.
  cbn [dictionary lookahead bf r_hd r_tl].
  repeat split; try lia.
  - f_equal.
    + unfold wrap, SIZE_MOD. lia.
    + destruct (k >? 256 - d) eqn:E;
        [apply Z.gtb_lt in E | rewrite Z.gtb_ltb in E; apply Z.ltb_ge in E];
        unfold wrap, SIZE_MOD; lia.
  - f_equal.
    + f_equal. lia.
    + unfold wrap, SIZE_MOD. lia.
  - intros x Hx. apply Hbf. lia.
Qed.

Lemma wnd_read_loop_at (r : option Z) (pos d : Z) (fuel : nat) :
  forall w n,
    wnd_at s w pos d n ->
    (length (skipn (Z.to_nat (pos + n)) s) < fuel)%nat ->
    exists ret w' n',
      wnd_read_loop fuel w (mk_source (skipn (Z.to_nat (pos + n)) s) r)
        = Some (ret, w', mk_source (skipn (Z.to_nat (pos + n')) s) r) /\
      wnd_at s w' pos d n' /\ n <= n' /\
      ((ret = 0 /\ n' = 256) \/ (ret = end_ret r /\ pos + n' = zlen s)).
Proof.
  induction fuel as [|fuel IH]; intros w n Hat Hf; [lia|].
  destruct (wnd_at_wf _ _ _ _ Hat) as (Hwf & Ed & En).
  destruct Hat as (Hd & Hn & Hp & Hlen & Edict & Elook & Hbf).
  assert (Hc : ring_capacity (lookahead w) = 256 - n).
  { rewrite ring_capacity_eq; [lia | rewrite En, RING_SIZE_eq; lia]. }
  assert (Hr : ring_run (lookahead w) = 512 - (pos + n) mod 512).
  { rewrite ring_run_eq, Elook. cbn [r_hd]. rewrite mod512_wrap. reflexivity. }
  cbn [wnd_read_loop]. rewrite Hc, Hr.
  set (p := (pos + n) mod 512) in *.
  set (u := if 256 - n >? 512 - p then 512 - p else 256 - n).
  assert (Hu : 0 <= u <= 256 - n /\ u <= 512 - p /\ (256 - n <> u -> 1 <= u)).
  { subst u p. destruct (256 - n >? 512 - (pos + n) mod 512) eqn:E;
      [apply Z.gtb_lt in E | rewrite Z.gtb_ltb in E; apply Z.ltb_ge in E]; lia. }
  destruct Hu as (Hu & Hup & Hu1).
  unfold fread. cbn [data rerr].
  set (got := firstn (Z.to_nat u) (skipn (Z.to_nat (pos + n)) s)).
  set (g := Z.of_nat (length got)).
  assert (Hg : 0 <= g <= u /\ (g <> u -> pos + n + g = zlen s) /\
               pos + n + g <= zlen s).
  { subst g got. rewrite length_firstn, length_skipn. unfold zlen in *. lia. }
  destruct Hg as (Hg & Hgeof & Hglen).
  assert (Hrest : skipn (Z.to_nat u) (skipn (Z.to_nat (pos + n)) s)
                  = skipn (Z.to_nat (pos + (n + g))) s).
  { rewrite skipn_skipn. destruct (Z.eq_dec g u) as [->|Hne].
    - f_equal. lia.
    - specialize (Hgeof Hne). rewrite !skipn_all2; auto; unfold zlen in *; lia. }
  rewrite Hrest.
  set (w' := {| dictionary := dictionary w;
                lookahead := {| r_hd := wrap (r_hd (lookahead w) + g);
                                r_tl := r_tl (lookahead w) |};
                bf := store_bytes (bf w) (ring_mask (r_hd (lookahead w))) got |}).
  assert (Hat' : wnd_at s w' pos d (n + g)).
  { unfold wnd_at, w'. cbn [dictionary lookahead bf]. rewrite Elook.
    cbn [r_hd r_tl]. repeat split; auto; try lia.
    - f_equal. unfold wrap, SIZE_MOD. lia.
    - intros k Hk. rewrite store_bytes_spec, ring_mask_mod, mod512_wrap.
      fold p. change (zlen got) with g.
      destruct (Z_lt_le_dec k (pos + n)) as [Hlt|Hge].
      + replace ((p <=? k mod 512) && (k mod 512 <? p + g)) with false.
        { apply Hbf. lia. }
        symmetry. apply andb_false_iff.
        rewrite Z.leb_gt, Z.ltb_ge. subst p. lia.
      + replace ((p <=? k mod 512) && (k mod 512 <? p + g)) with true.
        2:{ symmetry. apply andb_true_iff.
            rewrite Z.leb_le, Z.ltb_lt. subst p. lia. }
        subst got. rewrite zn_firstn by (subst p; lia).
        rewrite zn_skipn by (subst p; lia). f_equal. subst p. lia. }
  destruct (g =? u) eqn:Egu; cbn [negb].
  2:{ apply Z.eqb_neq in Egu. exists (end_ret r), w', (n + g).
      split; [unfold feof, ferror_in, errno_in; destruct r; reflexivity|].
      split; [exact Hat'|]. split; [lia|].
      right. split; [reflexivity|]. specialize (Hgeof Egu). lia. }
  apply Z.eqb_eq in Egu.
  destruct (256 - n =? u) eqn:Ecu.
  { apply Z.eqb_eq in Ecu. exists 0, w', (n + g).
    split; [reflexivity|]. split; [exact Hat'|]. split; [lia|].
    left. split; [reflexivity|lia]. }
  apply Z.eqb_neq in Ecu. specialize (Hu1 Ecu).
  destruct (IH w' (n + g) Hat') as (ret & w'' & n' & E & Hat'' & Hle & Hret).
  { rewrite length_skipn in *. unfold zlen in *. lia. }
  exists ret, w'', n'.
  split; [exact E|]. split; [exact Hat''|]. split; [lia|exact Hret].
Qed.

Lemma wnd_read_src_at (r : option Z) (w : wnd) (pos d n : Z) :
  wnd_at s w pos d n ->
  exists ret w' n',
    wnd_read w (mk_source (skipn (Z.to_nat (pos + n)) s) r)
      = Some (ret, w', mk_source (skipn (Z.to_nat (pos + n')) s) r) /\
    wnd_at s w' pos d n' /\ n <= n' /\
    ((ret = 0 /\ n' = 256) \/ (ret = end_ret r /\ pos + n' = zlen s)).
Proof. intros Hat. apply wnd_read_loop_at; auto. Qed.

Lemma wnd_read_at (w : wnd) (pos d n : Z) :
  wnd_at s w pos d n ->
  exists ret w' n',
    wnd_read w (skipn (Z.to_nat (pos + n)) s)
      = Some (ret, w', eof_source (skipn (Z.to_nat (pos + n')) s)) /\
    wnd_at s w' pos d n' /\ n <= n' /\
    ((ret = 0 /\ n' = 256) \/ (ret = EOF /\ pos + n' = zlen s)).
Proof. exact (wnd_read_src_at None w pos d n). Qed.

End WindowAt.

(** ** Match selection *)

Lemma look_byte_0 (w : wnd) :
  wnd_wf w -> bf w (ring_mask (r_tl (lookahead w))) = look_byte w 0.
Proof.
  intros Hwf. unfold look_byte. rewrite Z.add_0_r, wrap_small; auto. apply Hwf.
Qed.

(** The test of [lz_match] in terms of the bytes of the window. *)
Lemma not_worth_eq (w : wnd) (p : pair) :
  wnd_wf w ->
  not_worth w p =
    (p_l p <? 2)
    || ((p_l p =? 2) && (ring_size (lookahead w) >? 3)
        && (look_byte w 2 =? look_byte w 0)
        && ((look_byte w 3 =? look_byte w 0)
            || (look_byte w 3 =? text_byte w (p_l p)))).
Proof.
  intros Hwf. unfold not_worth. rewrite (look_byte_0 w Hwf). reflexivity.
Qed.

(** A match worth encoding has its two stored values in the range of a byte. *)
Lemma worth_bounds (a0 : Z -> Z) (w : wnd) :
  wnd_wf w -> 1 <= ring_size (lookahead w) ->
  not_worth w (kmp_search a0 w) = false ->
  0 <= p_o (kmp_search a0 w) < ring_size (dictionary w) /\
  ring_size (dictionary w) <= 256 /\
  2 <= p_l (kmp_search a0 w) <= ring_size (lookahead w) /\
  ring_size (lookahead w) <= 256 /\
  occurs w (p_o (kmp_search a0 w)) (p_l (kmp_search a0 w)).
Proof.
  intros Hwf Hn Hnw. destruct (kmp_search_ok w Hwf a0 Hn) as (Hfound & _).
  pose proof (wf_sizes w Hwf) as Hs. cbv zeta in Hs.
  unfold not_worth in Hnw. apply orb_false_iff in Hnw. destruct Hnw as (Hl2 & _).
  apply Z.ltb_ge in Hl2.
  destruct Hfound as [(_ & Hl0)|(Ho & Hl & Hocc)]; [lia|].
  repeat split; try lia. exact Hocc.
Qed.

Lemma lz_match_eq (a0 : Z -> Z) (w : wnd) :
  wnd_wf w -> 1 <= ring_size (lookahead w) ->
  lz_match a0 w =
    if not_worth w (kmp_search a0 w) then
      (mk_match (look_byte w 0) 0, wnd_shift w 1)
    else
      (mk_match (ring_size (dictionary w) - p_o (kmp_search a0 w) - 1)
                (p_l (kmp_search a0 w) - 1),
       wnd_shift w (p_l (kmp_search a0 w))).
Proof.
  intros Hwf Hn. unfold lz_match. rewrite (look_byte_0 w Hwf).
  destruct (not_worth w (kmp_search a0 w)) eqn:Hnw; [reflexivity|].
  destruct (worth_bounds a0 w Hwf Hn Hnw) as (Ho & Hd & Hl & Hn' & _).
  f_equal. f_equal.
  - unfold u8, wrap, SIZE_MOD. lia.
  - unfold u8. lia.
Qed.

Lemma lz_match_at (a0 : Z -> Z) (s : list Z) (w : wnd) (pos d n : Z) :
  wnd_at s w pos d n -> 1 <= n ->
  exists k,
    1 <= k <= n /\
    wnd_at s (snd (lz_match a0 w)) (pos + k) (Z.min 256 (d + k)) (n - k) /\
    tok_ok s pos (fst (lz_match a0 w)) (pos + k).
Proof.
  intros Hat Hn. destruct (wnd_at_wf _ _ _ _ _ Hat) as (Hwf & Ed & En).
  rewrite lz_match_eq by (auto; lia).
  destruct (not_worth w (kmp_search a0 w)) eqn:Hnw; cbn [fst snd].
  - exists 1. split; [lia|]. split; [apply wnd_at_shift; auto; lia|].
    pose proof Hat as (Hd & Hn' & Hp & Hlen & _).
    unfold tok_ok, is_ref. cbn [m_ov m_l negb Z.eqb].
    repeat split; try lia.
    rewrite (wnd_at_look s w pos d n 0 Hat) by lia. f_equal. lia.
  - destruct (worth_bounds a0 w Hwf ltac:(lia) Hnw) as (Ho & Hd & Hl & Hn' & Hocc).
    rewrite ?Ed, ?En in Ho, Hd, Hl, Hn'.
    set (p := kmp_search a0 w) in *.
    exists (p_l p). split; [lia|]. split; [apply wnd_at_shift; auto; lia|].
    pose proof Hat as (_ & _ & Hp & Hlen & _).
    unfold tok_ok, is_ref. cbn [m_ov m_l].
    replace (p_l p - 1 =? 0) with false by (symmetry; apply Z.eqb_neq; lia).
    cbn [negb]. repeat split; try lia.
    intros x Hx.
    rewrite <- (wnd_at_look s w pos d n x Hat) by lia.
    rewrite <- Hocc by lia.
    rewrite (wnd_at_text s w pos d n (p_o p + x) Hat) by lia. f_equal. lia.
Qed.

(** ** The tokens of a run describe the input *)

Section Tokens.
Variable a0 : Z -> Z.
Variable s : list Z.

Lemma tokens_drain_chain (fuel : nat) :
  forall w pos d n,
    wnd_at s w pos d n -> pos + n = zlen s -> n < Z.of_nat fuel ->
    exists ts, tokens_drain fuel a0 w = Some ts /\ chain s pos ts (zlen s).
Proof.
  induction fuel as [|fuel IH]; intros w pos d n Hat Hend Hf.
  { destruct Hat as (_ & Hn & _). lia. }
  destruct (wnd_at_wf _ _ _ _ _ Hat) as (Hwf & Ed & En).
  pose proof Hat as (_ & Hn & _).
  cbn [tokens_drain]. rewrite En.
  destruct (n =? 0) eqn:E0; cbn [negb].
  - apply Z.eqb_eq in E0. exists []. split; [reflexivity|]. cbn. lia.
  - apply Z.eqb_neq in E0.
    destruct (lz_match_at a0 s w pos d n Hat ltac:(lia)) as (k & Hk & Hat' & Htok).
    destruct (lz_match a0 w) as [t w'] eqn:Em. cbn [fst snd] in *.
    destruct (IH w' (pos + k) _ _ Hat' ltac:(lia) ltac:(lia)) as (ts & Ets & Hch).
    rewrite Ets. exists (t :: ts). split; [reflexivity|].
    cbn [chain]. exists (pos + k). auto.
Qed.

Lemma tokens_fill_chain (fuel : nat) :
  forall w pos d n,
    wnd_at s w pos d n -> zlen s - pos < Z.of_nat fuel ->
    exists ts,
      tokens_fill fuel a0 w (skipn (Z.to_nat (pos + n)) s) = Some ts /\
      chain s pos ts (zlen s).
Proof.
  induction fuel as [|fuel IH]; intros w pos d n Hat Hf.
  { destruct Hat as (_ & Hn & _ & Hlen & _). lia. }
  cbn [tokens_fill].
  destruct (wnd_read_at s w pos d n Hat) as (ret & w1 & n1 & Er & Hat1 & Hle & Hret).
  rewrite Er.
  destruct (wnd_at_wf _ _ _ _ _ Hat1) as (Hwf1 & Ed1 & En1).
  destruct Hret as [(-> & ->)|(-> & Hend)].
  - cbn [Z.eqb].
    destruct (lz_match_at a0 s w1 pos d 256 Hat1 ltac:(lia))
      as (k & Hk & Hat' & Htok).
    destruct (lz_match a0 w1) as [t w'] eqn:Em. cbn [fst snd] in *.
    destruct (IH w' (pos + k) _ _ Hat' ltac:(lia)) as (ts & Ets & Hch).
    replace (pos + k + (256 - k)) with (pos + 256) in Ets by lia.
    rewrite Ets. exists (t :: ts). split; [reflexivity|].
    cbn [chain]. exists (pos + k). auto.
  - change (EOF =? 0) with false. change (negb (EOF =? EOF)) with false.
    cbv iota. rewrite En1.
    apply (tokens_drain_chain _ w1 pos d n1); auto. lia.
Qed.

Lemma tokens_chain (x0 : ctx) :
  exists ts, tokens x0 a0 s = Some ts /\ chain s 0 ts (zlen s).
Proof.
  unfold tokens.
  apply (tokens_fill_chain (S (length s)) (wnd_init (ctx_w x0)) 0 0 0).
  - apply wnd_at_init.
  - unfold zlen. lia.
Qed.

End Tokens.

(** ** Writing to the sink *)

Lemma u8_u8 (b : Z) : u8 (u8 b) = u8 b.
Proof. unfold u8. lia. Qed.

Lemma putc_u8 (b : Z) (o : sink) : putc (u8 b) o = putc b o.
Proof. unfold putc. rewrite u8_u8. reflexivity. Qed.

Lemma write_all_app (a b : list Z) :
  forall o,
    write_all (a ++ b) o =
      match write_all a o with
      | (Some e, o1) => (Some e, o1)
      | (None, o1) => write_all b o1
      end.
Proof.
  induction a as [|x a IH]; intros o; cbn [write_all app]; [reflexivity|].
  destruct (putc x o) as [[e|] o1]; [reflexivity|]. apply IH.
Qed.

(** After a failed write the error indicator is set, and the label [fail]
    returns [errno] as the failure left it. *)
Lemma fail_ret_true (e : Z) (o : sink) :
  ferror o = true -> fail_ret e o = e.
Proof. intros H. unfold fail_ret. rewrite H. reflexivity. Qed.

Lemma write_all_fail (bs : list Z) :
  forall o e o1,
    write_all bs o = (Some e, o1) ->
    ferror o1 = true /\ wfail o1 = wfail o /\
    wfail o (length (written o1)) = Some e.
Proof.
  induction bs as [|b bs IH]; intros o e o1 E; cbn [write_all] in E;
    [discriminate|].
  unfold putc in E. destruct (wfail o (length (written o))) as [e'|] eqn:Ew.
  - injection E as <- <-. cbn [written wfail ferror]. auto.
  - apply IH in E. cbn [written wfail ferror] in E. exact E.
Qed.

(** A sink whose pending write fails leaving 0 in [errno]: every further
    write fails in the same way, and the failure is returned as success. *)
Lemma write_all_stuck (bs : list Z) (o : sink) :
  ferror o = true -> wfail o (length (written o)) = Some 0 ->
  to_ret (write_all bs o) = (0, o).
Proof.
  intros Hf Hw. destruct bs as [|b bs]; [reflexivity|].
  cbn [write_all]. unfold putc. rewrite Hw. cbn [to_ret].
  unfold fail_ret. cbn [ferror negb]. f_equal.
  destruct o as [wr wf fe]. cbn [ferror written wfail] in *. subst fe.
  reflexivity.
Qed.

Lemma encode_token_eq (t : match_t) (o : sink) :
  encode_token t o = write_all (tok_bytes t) o.
Proof.
  unfold encode_token, tok_bytes, is_ref.
  destruct (m_l t =? 0); cbn [negb write_all]; rewrite !putc_u8.
  - destruct (putc (m_ov t) o) as [[e|] o1]; reflexivity.
  - destruct (putc (m_ov t) o) as [[e|] o1]; [reflexivity|].
    rewrite putc_u8.
    destruct (putc (m_l t) o1) as [[e|] o2]; reflexivity.
Qed.

Lemma wrap32_small (x : Z) : 0 <= x < 4294967296 -> wrap32 x = x.
Proof. unfold wrap32. lia. Qed.

Lemma encode_loop_eq (m : Z -> match_t) (n : nat) (fuel : nat) :
  forall j o,
    (j < n <= 8)%nat -> (n - j <= fuel)%nat ->
    encode_loop fuel m (Z.of_nat n) (Z.of_nat j) o =
      Some (to_ret (write_all
                      (flat_map tok_bytes
                         (map (fun k => m (Z.of_nat k)) (seq j (n - j)))) o)).
Proof.
  induction fuel as [|fuel IH]; intros j o Hj Hf; [lia|].
  cbn [encode_loop]. unfold CHAR_BIT.
  replace ((0 <=? Z.of_nat j) && (Z.of_nat j <? 8)) with true.
  2:{ symmetry. apply andb_true_iff. rewrite Z.leb_le, Z.ltb_lt. lia. }
  replace (n - j)%nat with (S (n - S j)) by lia.
  cbn [seq map flat_map]. rewrite write_all_app, encode_token_eq.
  destruct (write_all (tok_bytes (m (Z.of_nat j))) o) as [[e|] o1];
    [reflexivity|].
  rewrite wrap32_small by lia.
  destruct (Z.of_nat j + 1 =? Z.of_nat n) eqn:E.
  - apply Z.eqb_eq in E. replace (n - S j)%nat with O by lia. reflexivity.
  - apply Z.eqb_neq in E. replace (Z.of_nat j + 1) with (Z.of_nat (S j)) by lia.
    apply IH; lia.
Qed.

Lemma encode_eq (m : Z -> match_t) (n : nat) (c : Z) (o : sink) :
  (1 <= n <= 8)%nat ->
  encode m (Z.of_nat n) c o =
    Some (to_ret (write_all (u8 c :: flat_map tok_bytes (arr_list m n)) o)).
Proof.
  intros Hn. unfold encode. cbn [write_all]. rewrite putc_u8.
  destruct (putc c o) as [[e|] o1]; [reflexivity|].
  change 0 with (Z.of_nat 0).
  rewrite encode_loop_eq by (unfold CHAR_BIT; lia).
  rewrite Nat.sub_0_r. reflexivity.
Qed.

(** ** The rotating mask *)

Lemma msk_seed_eq : MSK_SEED = msk_at 0.
Proof. reflexivity. Qed.

Lemma msk_at_8 : msk_at 8 = msk_at 0.
Proof. reflexivity. Qed.

Lemma rol_msk_at (k : Z) : 0 <= k <= 7 -> rol (msk_at k) = msk_at (k + 1).
Proof. intros H. cases_upto k; reflexivity. Qed.

Lemma msk_at_bit0 (k : Z) :
  0 <= k <= 7 -> (Z.land (msk_at (k + 1)) 1 =? 0) = negb (k =? 0).
Proof. intros H. cases_upto k; reflexivity. Qed.

Lemma u8_msk_at (k : Z) : 0 <= k <= 7 -> u8 (msk_at (k + 1)) = Z.shiftl 1 k.
Proof. intros H. cases_upto k; reflexivity. Qed.

Lemma u8_land (a : Z) : u8 a = Z.land a 255.
Proof. unfold u8. change 255 with (Z.ones 8). rewrite Z.land_ones by lia. reflexivity. Qed.

Lemma u8_lor (a b : Z) : u8 (Z.lor a b) = Z.lor (u8 a) (u8 b).
Proof. rewrite !u8_land. apply Z.land_lor_distr_l. Qed.

(** ** Control bytes and groups *)

Lemma ctrl_from_app (bitpos : Z -> Z) (g : list match_t) (t : match_t) :
  forall k,
    ctrl_from bitpos k (g ++ [t]) =
      Z.lor (ctrl_from bitpos k g)
        (if is_ref t then Z.shiftl 1 (bitpos (k + zlen g)) else 0).
Proof.
  induction g as [|a g IH]; intros k; cbn [ctrl_from app].
  - unfold zlen. cbn [length]. rewrite Z.add_0_r, Z.lor_0_r, Z.lor_0_l. reflexivity.
  - rewrite IH, zlen_cons, Z.lor_assoc.
    replace (k + 1 + zlen g) with (k + (zlen g + 1)) by lia. reflexivity.
Qed.

Lemma groups_of_fuel (f1 : nat) :
  forall f2 ts,
    (length ts <= f1)%nat -> (length ts <= f2)%nat ->
    groups_of f1 ts = groups_of f2 ts.
Proof.
  induction f1 as [|f1 IH]; intros f2 ts H1 H2.
  - destruct ts; [|cbn in H1; lia]. destruct f2; reflexivity.
  - destruct ts as [|t ts]; [destruct f2; reflexivity|].
    destruct f2 as [|f2]; [cbn in H2; lia|].
    cbn [groups_of]. f_equal. apply IH.
    + rewrite length_skipn. cbn [length] in *. lia.
    + rewrite length_skipn. cbn [length] in *. lia.
Qed.

Lemma frame_nil (bitpos : Z -> Z) : frame bitpos [] = [].
Proof. reflexivity. Qed.

Lemma groups_of_cons (f : nat) (ts : list match_t) :
  ts <> [] -> groups_of (S f) ts = firstn 8 ts :: groups_of f (skipn 8 ts).
Proof. destruct ts; [congruence|reflexivity]. Qed.

Lemma frame_full (bitpos : Z -> Z) (g r : list match_t) :
  length g = 8%nat ->
  frame bitpos (g ++ r) = group_bytes bitpos g ++ frame bitpos r.
Proof.
  intros Hg. unfold frame, groups.
  rewrite length_app, Hg. change (8 + length r)%nat with (S (7 + length r)).
  rewrite groups_of_cons by (destruct g; cbn in *; [lia|discriminate]).
  rewrite firstn_app, skipn_app, Hg.
  rewrite firstn_all2, skipn_all2 by lia.
  replace (8 - 8)%nat with O by lia. cbn [firstn skipn].
  rewrite app_nil_r. cbn [app flat_map]. f_equal. f_equal.
  apply groups_of_fuel; lia.
Qed.

Lemma frame_last (bitpos : Z -> Z) (g : list match_t) :
  (1 <= length g <= 8)%nat -> frame bitpos g = group_bytes bitpos g.
Proof.
  intros Hg. unfold frame, groups.
  destruct (length g) as [|n] eqn:E; [lia|].
  rewrite groups_of_cons by (destruct g; cbn in *; [lia|discriminate]).
  rewrite firstn_all2, skipn_all2 by lia.
  destruct n; cbn [groups_of flat_map]; apply app_nil_r.
Qed.

(** ** The encoder keeps the group in progress *)

Lemma arr_list_length {A : Type} (m : Z -> A) (n : nat) : length (arr_list m n) = n.
Proof. unfold arr_list. rewrite length_map, length_seq. reflexivity. Qed.

Lemma arr_list_S {A : Type} (m : Z -> A) (n : nat) :
  arr_list m (S n) = arr_list m n ++ [m (Z.of_nat n)].
Proof. unfold arr_list. rewrite seq_S, map_app. reflexivity. Qed.

Lemma arr_list_upd {A : Type} (m : Z -> A) (n : nat) (v : A) :
  arr_list (upd m (Z.of_nat n) v) n = arr_list m n.
Proof.
  unfold arr_list. apply map_ext_in. intros k Hk. apply in_seq in Hk.
  apply upd_other. lia.
Qed.

Lemma ctx_inv_store (x : ctx) (pb : list match_t) (c : Z) (t : match_t) (w' : wnd) :
  zlen pb <= 7 ->
  pb = arr_list (ctx_m x) (length pb) ->
  (pb <> [] -> u8 c = ctrl_from lsb_first 0 pb) ->
  (pb = [] -> c = 0) ->
  ctx_inv
    (ctx_next
       {| ctx_n := zlen pb;
          ctx_c := if negb (m_l t =? 0) then Z.lor c (msk_at (zlen pb + 1)) else c;
          ctx_msk := msk_at (zlen pb + 1);
          ctx_w := w';
          ctx_m := upd (ctx_m x) (zlen pb) t |})
    (pb ++ [t]).
Proof.
  intros Hlen Harr Hc Hc0. pose proof (zlen_nonneg pb) as H0.
  unfold ctx_inv, ctx_next. cbn [ctx_n ctx_c ctx_msk ctx_m].
  rewrite zlen_app. change (zlen [t]) with 1.
  split; [apply wrap32_small; lia|]. split; [lia|]. split; [reflexivity|].
  split.
  - rewrite length_app. cbn [length]. rewrite Nat.add_1_r, arr_list_S.
    unfold zlen. rewrite arr_list_upd, upd_same, <- Harr. reflexivity.
  - intros _. rewrite ctrl_from_app. unfold lsb_first at 2.
    rewrite Z.add_0_l. fold (is_ref t).
    destruct pb as [|t0 pb'] eqn:E.
    + rewrite (Hc0 eq_refl). cbn [ctrl_from]. rewrite Z.lor_0_l.
      destruct (is_ref t); reflexivity.
    + rewrite <- E in *. rewrite <- Hc by (subst pb; discriminate).
      destruct (is_ref t).
      * rewrite u8_lor, u8_msk_at by lia. reflexivity.
      * rewrite Z.lor_0_r. reflexivity.
Qed.

Lemma list_eq_dec_nil {A : Type} (l : list A) : {l = []} + {l <> []}.
Proof. destruct l; [left; reflexivity|right; discriminate]. Qed.

Lemma zlen_nil_inv {A : Type} (l : list A) : zlen l = 0 -> l = [].
Proof. unfold zlen. destruct l; cbn; [reflexivity|lia]. Qed.

Lemma compress_helper_spec (a0 : Z -> Z) (x : ctx) (pend : list match_t) (o : sink) :
  ctx_inv x pend ->
  if zlen pend =? 8 then
    match write_all (group_bytes lsb_first pend) o with
    | (Some e, o1) =>
        if e =? 0 then
          exists x',
            compress_helper a0 x o = Some (0, x', o1) /\
            ctx_inv (ctx_next x') [fst (lz_match a0 (ctx_w x))] /\
            ctx_w (ctx_next x') = snd (lz_match a0 (ctx_w x)) /\
            ctx_n x' = 0
        else exists x', compress_helper a0 x o = Some (e, x', o1)
    | (None, o1) =>
        exists x',
          compress_helper a0 x o = Some (0, x', o1) /\
          ctx_inv (ctx_next x') [fst (lz_match a0 (ctx_w x))] /\
          ctx_w (ctx_next x') = snd (lz_match a0 (ctx_w x)) /\
          ctx_n x' = 0
    end
  else
    exists x',
      compress_helper a0 x o = Some (0, x', o) /\
      ctx_inv (ctx_next x') (pend ++ [fst (lz_match a0 (ctx_w x))]) /\
      ctx_w (ctx_next x') = snd (lz_match a0 (ctx_w x)) /\
      ctx_n x' = zlen pend.
Proof.
  intros (Hn & Hlen & Hmsk & Harr & Hc).
  pose proof (zlen_nonneg pend) as H0.
  unfold compress_helper. rewrite Hmsk, Hn.
  destruct (lz_match a0 (ctx_w x)) as [t w'] eqn:Em. cbn [fst snd].
  destruct (zlen pend =? 8) eqn:E8.
  - apply Z.eqb_eq in E8. rewrite E8, msk_at_8.
    rewrite (rol_msk_at 0) by lia. rewrite (msk_at_bit0 0) by lia.
    cbn [Z.eqb negb Z.add].
    assert (Hl8 : length pend = 8%nat) by (unfold zlen in E8; lia).
    change 8 with (Z.of_nat 8). rewrite encode_eq by lia.
    rewrite <- Hl8, <- Harr.
    rewrite Hc by (destruct pend; [discriminate Hl8|discriminate]).
    change (ctrl_from lsb_first 0 pend :: flat_map tok_bytes pend)
      with (group_bytes lsb_first pend).
    destruct (write_all (group_bytes lsb_first pend) o) as [[e|] o1] eqn:Ew;
      cbn [to_ret].
    + apply write_all_fail in Ew. destruct Ew as (Hfe & _).
      rewrite (fail_ret_true e o1 Hfe).
      destruct (e =? 0) eqn:Ee; cbn [negb].
      * cbn [Z.eqb negb Z.leb Z.ltb Z.compare andb CHAR_BIT].
        eexists. split; [reflexivity|]. split; [|split; reflexivity].
        apply (ctx_inv_store x [] 0 t w'); cbn; auto; try lia.
      * rewrite Ee. cbn [negb]. eexists. reflexivity.
    + cbn [Z.eqb negb Z.leb Z.ltb Z.compare andb CHAR_BIT].
      eexists. split; [reflexivity|]. split; [|split; reflexivity].
      apply (ctx_inv_store x [] 0 t w'); cbn; auto; try lia.
  - apply Z.eqb_neq in E8.
    rewrite rol_msk_at by lia. rewrite msk_at_bit0 by lia.
    assert (Hb : (0 <=? zlen pend) && (zlen pend <? CHAR_BIT) = true).
    { apply andb_true_iff. rewrite Z.leb_le, Z.ltb_lt. unfold CHAR_BIT. lia. }
    destruct (zlen pend =? 0) eqn:E0; cbn [negb Z.eqb]; rewrite Hb.
    + apply Z.eqb_eq in E0. pose proof (zlen_nil_inv _ E0) as ->.
      eexists. split; [reflexivity|]. split; [|split; reflexivity].
      apply (ctx_inv_store x [] 0 t w'); cbn; auto; try lia.
    + apply Z.eqb_neq in E0.
      eexists. split; [reflexivity|]. split; [|split; reflexivity].
      apply (ctx_inv_store x pend (ctx_c x) t w'); auto; try lia.
      intros ->. unfold zlen in E0. cbn in E0. lia.
Qed.

(** ** [compress] writes the frame of its tokens *)

Lemma ctx_inv_set_w (x : ctx) (pend : list match_t) (w : wnd) :
  ctx_inv x pend -> ctx_inv (ctx_set_w x w) pend.
Proof. intros H. exact H. Qed.

Section Framing.
Variable a0 : Z -> Z.

(** One call of [compress_helper] followed by the rest [k] of a loop of
    [compress], which writes the frame of the group in progress and of the
    tokens [ts] still to come. *)
Lemma helper_then (x : ctx) (pend ts : list match_t) (o : sink)
  (k : ctx -> sink -> option (Z * sink)) :
  ctx_inv x pend ->
  (forall x' pend' o',
      ctx_inv x' pend' -> ctx_w x' = snd (lz_match a0 (ctx_w x)) ->
      pend' = [fst (lz_match a0 (ctx_w x))] \/
      pend' = pend ++ [fst (lz_match a0 (ctx_w x))] ->
      k x' o' = Some (to_ret (write_all (frame lsb_first (pend' ++ ts)) o'))) ->
  match compress_helper a0 x o with
  | None => None
  | Some (ret, x', o') =>
      if negb (ret =? 0) then Some (ret, o') else k (ctx_next x') o'
  end
  = Some (to_ret (write_all
                    (frame lsb_first
                       (pend ++ fst (lz_match a0 (ctx_w x)) :: ts)) o)).
Proof.
  intros Hinv Hk. pose proof (compress_helper_spec a0 x pend o Hinv) as Hs.
  destruct Hinv as (Hn & Hlen & _).
  destruct (zlen pend =? 8) eqn:E8.
  - apply Z.eqb_eq in E8.
    rewrite frame_full by (unfold zlen in E8; lia).
    rewrite write_all_app.
    destruct (write_all (group_bytes lsb_first pend) o) as [[e|] o1] eqn:Ew.
    + apply write_all_fail in Ew. destruct Ew as (Hfe & Hwf & Hwe).
      cbn [to_ret]. rewrite (fail_ret_true e o1 Hfe).
      destruct (e =? 0) eqn:Ee.
      * apply Z.eqb_eq in Ee. subst e.
        destruct Hs as (x' & -> & Hinv' & Hw & _). cbn [Z.eqb negb].
        rewrite (Hk _ _ o1 Hinv' Hw (or_introl eq_refl)). f_equal.
        apply write_all_stuck; [exact Hfe|]. rewrite Hwf. exact Hwe.
      * destruct Hs as (x' & ->). rewrite Ee. reflexivity.
    + destruct Hs as (x' & -> & Hinv' & Hw & _). cbn [Z.eqb negb].
      rewrite (Hk _ _ o1 Hinv' Hw (or_introl eq_refl)). reflexivity.
  - destruct Hs as (x' & -> & Hinv' & Hw & _). cbn [Z.eqb negb].
    rewrite (Hk _ _ o Hinv' Hw (or_intror eq_refl)).
    rewrite <- app_assoc. reflexivity.
Qed.

Lemma compress_drain_frame (fuel : nat) :
  forall x o pend ts,
    ctx_inv x pend ->
    tokens_drain fuel a0 (ctx_w x) = Some ts ->
    compress_drain fuel a0 x o =
      Some (to_ret (write_all (frame lsb_first (pend ++ ts)) o)).
Proof.
  induction fuel as [|fuel IH]; intros x o pend ts Hinv Hts; [discriminate|].
  cbn [tokens_drain compress_drain] in *.
  destruct (negb (ring_size (lookahead (ctx_w x)) =? 0)).
  - destruct (lz_match a0 (ctx_w x)) as [t w'] eqn:Em.
    destruct (tokens_drain fuel a0 w') as [ts'|] eqn:Ets; [|discriminate].
    injection Hts as <-.
    pose proof (helper_then x pend ts' o (compress_drain fuel a0) Hinv) as H.
    rewrite Em in H. cbn [fst snd] in H. apply H.
    intros x' pend' o' Hinv' Hw _. apply IH; auto. rewrite Hw. exact Ets.
  - injection Hts as <-. rewrite app_nil_r.
    destruct Hinv as (Hn & Hlen & _ & Harr & Hc). rewrite Hn.
    destruct (zlen pend =? 0) eqn:E0; cbn [negb].
    + apply Z.eqb_eq in E0. rewrite (zlen_nil_inv _ E0). reflexivity.
    + apply Z.eqb_neq in E0.
      assert (Hl : (1 <= length pend <= 8)%nat) by (unfold zlen in *; lia).
      unfold zlen. rewrite encode_eq by lia.
      rewrite <- Harr, frame_last by lia.
      rewrite Hc by (intros ->; cbn in Hl; lia). reflexivity.
Qed.

Lemma compress_fill_frame (fuel : nat) :
  forall x i o pend ts,
    ctx_inv x pend ->
    tokens_fill fuel a0 (ctx_w x) i = Some ts ->
    compress_fill fuel a0 x i o =
      Some (to_ret (write_all (frame lsb_first (pend ++ ts)) o)).
Proof.
  induction fuel as [|fuel IH]; intros x i o pend ts Hinv Hts; [discriminate|].
  cbn [tokens_fill compress_fill] in *.
  destruct (wnd_read (ctx_w x) i) as [[[ret w1] i']|]; [|discriminate].
  destruct (ret =? 0).
  - destruct (lz_match a0 w1) as [t w'] eqn:Em.
    destruct (tokens_fill fuel a0 w' i') as [ts'|] eqn:Ets; [|discriminate].
    injection Hts as <-.
    pose proof (helper_then (ctx_set_w x w1) pend ts' o
                  (fun x' o' => compress_fill fuel a0 x' i' o')
                  (ctx_inv_set_w x pend w1 Hinv)) as H.
    cbn [ctx_set_w ctx_w] in H. rewrite Em in H. cbn [fst snd] in H. apply H.
    intros x' pend' o' Hinv' Hw _. apply IH; auto. rewrite Hw. exact Ets.
  - destruct (negb (ret =? EOF)); [discriminate|].
    apply compress_drain_frame; auto.
Qed.

Lemma compress_frame (x0 : ctx) (i : list Z) (o : sink) (ts : list match_t) :
  tokens x0 a0 i = Some ts ->
  compress x0 a0 i o = Some (to_ret (write_all (frame lsb_first ts) o)).
Proof.
  intros Hts. unfold compress.
  apply (compress_fill_frame _ _ i o [] ts); [|exact Hts].
  repeat split; cbn; try lia; congruence.
Qed.

End Framing.

(** ** The decoder *)

Lemma putc_ok (b : Z) (o : sink) :
  sink_ok o ->
  putc b o = (None, {| written := written o ++ [u8 b]; wfail := wfail o;
                       ferror := ferror o |}).
Proof. intros H. unfold putc. rewrite H. reflexivity. Qed.

Lemma bytes_app (a b : list Z) : bytes a -> bytes b -> bytes (a ++ b).
Proof. intros Ha Hb. apply Forall_app. auto. Qed.

Lemma bytes_u8 (b : Z) : bytes [u8 b].
Proof. constructor; [unfold u8; lia|constructor]. Qed.

Lemma bytes_zn (s : list Z) (k : Z) : bytes s -> 0 <= zn s k < 256.
Proof.
  intros H. unfold zn. destruct (Nat.lt_ge_cases (Z.to_nat k) (length s)).
  - apply (proj1 (Forall_forall _ _) H). apply nth_In. assumption.
  - rewrite nth_overflow by assumption. lia.
Qed.

(** Appending one byte to the output and to [buf]. *)
Lemma dec_hist_push (buf : Z -> Z) (mo : Z) (out : list Z) (v : Z) :
  dec_hist buf mo out ->
  dec_hist (upd buf mo (u8 v)) (u8 (mo + 1)) (out ++ [u8 v]).
Proof.
  intros (Hb & Hmo & Hbuf). pose proof (zlen_nonneg out) as H0.
  split; [apply bytes_app; auto using bytes_u8|]. split.
  - rewrite zlen_app. change (zlen [u8 v]) with 1. unfold u8. lia.
  - intros k Hk Hk'. rewrite zlen_app in *. change (zlen [u8 v]) with 1 in *.
    destruct (Z.eq_dec k (zlen out)) as [->|Hne].
    + rewrite Hmo, upd_same, zn_app_r by lia.
      rewrite Z.sub_diag. reflexivity.
    + rewrite upd_other by lia. rewrite zn_app_l by lia. apply Hbuf; lia.
Qed.

Lemma copy_loop_ok (off : Z) (fuel : nat) :
  0 <= off < 256 ->
  forall buf mo c o,
    sink_ok o -> dec_hist buf mo (written o) -> 0 <= c < Z.of_nat fuel ->
    exists buf' mo' bs,
      copy_loop fuel buf mo (u8 (off + 1)) c o =
        Some (None, buf', mo',
              {| written := written o ++ bs; wfail := wfail o;
                 ferror := ferror o |}) /\
      dec_hist buf' mo' (written o ++ bs) /\
      zlen bs = c + 1 /\
      copied (written o) (off + 1) bs.
Proof.
  intros Hoff. induction fuel as [|fuel IH]; intros buf mo c o Hok Hh Hc; [lia|].
  cbn [copy_loop]. rewrite upd_same, putc_ok, u8_u8 by assumption.
  set (v := buf (u8 (mo - u8 (off + 1)))).
  pose proof (dec_hist_push buf mo (written o) v Hh) as Hh1.
  pose proof (zlen_nonneg (written o)) as H0.
  assert (Hv : 0 <= zlen (written o) - (off + 1) ->
               u8 v = zn (written o) (zlen (written o) - (off + 1))).
  { intros Hpos. destruct Hh as (Hb & Hmo & Hbuf). subst v.
    replace (u8 (mo - u8 (off + 1)))
      with ((zlen (written o) - (off + 1)) mod 256)
      by (rewrite Hmo; unfold u8; lia).
    rewrite Hbuf by lia. pose proof (bytes_zn _ (zlen (written o) - (off + 1)) Hb).
    unfold u8. lia. }
  destruct (c =? 0) eqn:E0; cbn [negb].
  - apply Z.eqb_eq in E0. subst c.
    exists (upd buf mo (u8 v)), (u8 (mo + 1)), [u8 v].
    split; [reflexivity|]. split; [exact Hh1|]. split; [reflexivity|].
    intros x Hx Hpos. change (zlen [u8 v]) with 1 in Hx.
    replace x with 0 in * by lia. rewrite Z.add_0_r in *.
    rewrite zn_app_r by lia. rewrite zn_app_l by lia.
    rewrite Z.sub_diag. rewrite <- Hv by lia. reflexivity.
  - apply Z.eqb_neq in E0.
    set (o1 := {| written := written o ++ [u8 v]; wfail := wfail o;
                  ferror := ferror o |}).
    destruct (IH (upd buf mo (u8 v)) (u8 (mo + 1)) (c - 1) o1)
      as (buf' & mo' & bs & E & Hh' & Hlen & Hcp); auto; try lia.
    exists buf', mo', (u8 v :: bs). cbn [written wfail ferror o1] in *.
    rewrite <- app_assoc in *. cbn [app] in *.
    split; [exact E|]. split; [exact Hh'|].
    split; [rewrite zlen_cons; lia|].
    intros x Hx Hpos. rewrite zlen_cons in Hx.
    destruct (Z.eq_dec x 0) as [->|Hne].
    + rewrite Z.add_0_r in *. rewrite zn_app_r by lia. rewrite zn_app_l by lia.
      rewrite Z.sub_diag. rewrite <- Hv by lia. reflexivity.
    + specialize (Hcp (x - 1)). rewrite zlen_app in Hcp.
      change (zlen [u8 v]) with 1 in Hcp.
      replace (zlen (written o) + 1 + (x - 1)) with (zlen (written o) + x) in Hcp
        by lia.
      change (written o ++ u8 v :: bs) with (written o ++ [u8 v] ++ bs).
      rewrite app_assoc. apply Hcp; lia.
Qed.

Lemma land_msk_check :
  forallb
    (fun c =>
       forallb
         (fun j =>
            Bool.eqb (Z.land (Z.of_nat c) (msk_at (Z.of_nat j + 1)) =? 0)
              (negb (Z.testbit (Z.of_nat c) (Z.of_nat j))))
         (seq 0 8))
    (seq 0 256) = true.
Proof. vm_compute. reflexivity. Qed.

(** The decoder tests bit [j] of the control byte for token [j]. *)
Lemma land_msk_testbit (c j : Z) :
  0 <= c < 256 -> 0 <= j <= 7 ->
  (Z.land c (msk_at (j + 1)) =? 0) = negb (Z.testbit c j).
Proof.
  intros Hc Hj. pose proof land_msk_check as H.
  rewrite forallb_forall in H.
  specialize (H (Z.to_nat c) ltac:(apply in_seq; lia)).
  rewrite forallb_forall in H.
  specialize (H (Z.to_nat j) ltac:(apply in_seq; lia)).
  rewrite !Z2Nat.id in H by lia. apply Bool.eqb_prop in H. exact H.
Qed.

Lemma zn_ext (a b : list Z) :
  zlen a = zlen b -> (forall k, 0 <= k < zlen a -> zn a k = zn b k) -> a = b.
Proof.
  intros Hl He. apply (nth_ext a b 0 0); [unfold zlen in Hl; lia|].
  intros n Hn. specialize (He (Z.of_nat n)). unfold zn, zlen in He.
  rewrite Nat2Z.id in He. apply He. lia.
Qed.

Lemma zlen_firstn (s : list Z) (k : Z) :
  0 <= k <= zlen s -> zlen (firstn (Z.to_nat k) s) = k.
Proof. intros H. unfold zlen in *. rewrite length_firstn. lia. Qed.

Lemma firstn_extend (s bs : list Z) (pos : Z) :
  0 <= pos -> pos + zlen bs <= zlen s ->
  (forall x, 0 <= x < zlen bs -> zn bs x = zn s (pos + x)) ->
  firstn (Z.to_nat pos) s ++ bs = firstn (Z.to_nat (pos + zlen bs)) s.
Proof.
  intros Hpos Hlen Hbs. pose proof (zlen_nonneg bs) as H0.
  apply zn_ext.
  - rewrite zlen_app, !zlen_firstn by lia. reflexivity.
  - intros k Hk. rewrite zlen_app, zlen_firstn in Hk by lia.
    rewrite (zn_firstn s (Z.to_nat (pos + zlen bs))) by lia.
    destruct (Z_lt_le_dec k pos).
    + rewrite zn_app_l by (rewrite zlen_firstn; lia). apply zn_firstn. lia.
    + rewrite zn_app_r by (rewrite zlen_firstn; lia).
      rewrite zlen_firstn by lia. rewrite Hbs by lia. f_equal. lia.
Qed.

(** Bytes copied from a prefix of [s] at a distance at which [s] repeats
    itself extend the prefix. *)
Lemma copied_prefix (s bs : list Z) (pos dist : Z) :
  0 < dist <= pos -> pos + zlen bs <= zlen s ->
  copied (firstn (Z.to_nat pos) s) dist bs ->
  (forall x, 0 <= x < zlen bs -> zn s (pos + x - dist) = zn s (pos + x)) ->
  firstn (Z.to_nat pos) s ++ bs = firstn (Z.to_nat (pos + zlen bs)) s.
Proof.
  intros Hd Hlen Hcp Hrep. pose proof (zlen_nonneg bs) as H0.
  apply firstn_extend; try lia.
  assert (H : forall n : nat, forall x, 0 <= x < Z.of_nat n -> x < zlen bs ->
                zn bs x = zn s (pos + x)).
  { induction n as [|n IH]; intros x Hx Hxb; [lia|].
    specialize (Hcp x ltac:(lia)). rewrite zlen_firstn in Hcp by lia.
    specialize (Hcp ltac:(lia)).
    rewrite zn_app_r in Hcp by (rewrite zlen_firstn; lia).
    rewrite zlen_firstn in Hcp by lia.
    replace (pos + x - pos) with x in Hcp by lia. rewrite Hcp.
    rewrite <- Hrep by lia.
    destruct (Z_lt_le_dec (pos + x - dist) pos).
    - rewrite zn_app_l by (rewrite zlen_firstn; lia). apply zn_firstn. lia.
    - rewrite zn_app_r by (rewrite zlen_firstn; lia).
      rewrite zlen_firstn by lia.
      rewrite IH by lia. f_equal. lia. }
  intros x Hx. apply (H (Z.to_nat (zlen bs))); lia.
Qed.

Lemma data_eof (s : list Z) : data (eof_source s) = s.
Proof. reflexivity. Qed.

(** One turn of the loop of [decompress] on a source that delivers the
    bytes [i] and then the end of the file: the loop exit returns 0 and
    [readfail] returns [EIO]. *)
Lemma decompress_loop_S (f : nat) (i : list Z) (buf : Z -> Z)
  (mo ml map msk : Z) (o : sink) :
  decompress_loop (S f) i buf mo ml map msk o =
    match i with
    | [] => Some (0, o)
    | c :: i1 =>
        let msk := rol msk in
        let ctl : option (Z * Z * list Z) :=
          if negb (Z.land msk 1 =? 0) then
            match i1 with
            | [] => None
            | c' :: i2 => Some (c, c', i2)
            end
          else Some (map, c, i1) in
        match ctl with
        | None => Some (Z.pos EIO, o)
        | Some (map, c, i1) =>
            if negb (Z.land map msk =? 0) then
              let ml := u8 (c + 1) in
              match i1 with
              | [] => Some (Z.pos EIO, o)
              | c2 :: i2 =>
                  match copy_loop (Z.to_nat RING_SIZE) buf mo ml c2 o with
                  | None => None
                  | Some (Some e, _, _, o1) => Some (fail_ret e o1, o1)
                  | Some (None, buf1, mo1, o1) =>
                      decompress_loop f i2 buf1 mo1 ml map msk o1
                  end
              end
            else
              match putc c o with
              | (Some e, o1) => Some (fail_ret e o1, o1)
              | (None, o1) =>
                  decompress_loop f i1 (upd buf mo (u8 c)) (u8 (mo + 1))
                    ml map msk o1
              end
        end
    end.
Proof. reflexivity. Qed.

Section Decoder.
Variable s : list Z.
Hypothesis Hs : bytes s.

Lemma u8_zn (k : Z) : u8 (zn s k) = zn s k.
Proof. pose proof (bytes_zn s k Hs). unfold u8. lia. Qed.

(** The decoder consumes one token of a group. *)
Lemma decompress_token (f : nat) (rest : list Z) (buf : Z -> Z)
  (mo ml map j c : Z) (t : match_t) (o : sink) (pos pos' : Z) :
  dec_at s pos buf mo o -> tok_ok s pos t pos' ->
  0 <= j <= 7 -> 0 <= c < 256 -> Z.testbit c j = is_ref t ->
  (j <> 0 -> map = c) ->
  exists buf' mo' ml' o',
    decompress_loop (S f)
      ((if j =? 0 then [c] else []) ++ tok_bytes t ++ rest)
      buf mo ml map (msk_at j) o
    = decompress_loop f rest buf' mo' ml' c (msk_at (j + 1)) o' /\
    dec_at s pos' buf' mo' o'.
Proof.
  intros (Hpos & Hok & Hw & Hh) Htok Hj Hc Hbit Hmap.
  assert (Hstep :
    decompress_loop (S f)
      ((if j =? 0 then [c] else []) ++ tok_bytes t ++ rest)
      buf mo ml map (msk_at j) o
    = match tok_bytes t ++ rest with
      | [] => Some (Z.pos EIO, o)
      | c1 :: i1 =>
          if is_ref t then
            match i1 with
            | [] => Some (Z.pos EIO, o)
            | c2 :: i2 =>
                match copy_loop (Z.to_nat RING_SIZE) buf mo (u8 (c1 + 1)) c2 o with
                | None => None
                | Some (Some e, _, _, o1) => Some (fail_ret e o1, o1)
                | Some (None, buf1, mo1, o1) =>
                    decompress_loop f i2 buf1 mo1 (u8 (c1 + 1)) c
                      (msk_at (j + 1)) o1
                end
            end
          else
            match putc c1 o with
            | (Some e, o1) => Some (fail_ret e o1, o1)
            | (None, o1) =>
                decompress_loop f i1 (upd buf mo (u8 c1)) (u8 (mo + 1)) ml c
                  (msk_at (j + 1)) o1
            end
      end).
  { destruct (j =? 0) eqn:E0.
    - apply Z.eqb_eq in E0. subst j. cbn [app].
      rewrite decompress_loop_S. cbv beta iota zeta.
      rewrite (rol_msk_at 0), (msk_at_bit0 0) by lia. cbn [Z.eqb negb].
      destruct (tok_bytes t ++ rest) as [|c1 i1]; [reflexivity|].
      rewrite (land_msk_testbit c 0), Hbit, negb_involutive by lia.
      reflexivity.
    - apply Z.eqb_neq in E0. cbn [app].
      destruct (tok_bytes t ++ rest) as [|c1 i1] eqn:Etb.
      { unfold tok_bytes in Etb. destruct (is_ref t); discriminate. }
      rewrite decompress_loop_S. cbv beta iota zeta.
      rewrite rol_msk_at, msk_at_bit0 by lia.
      replace (j =? 0) with false by (symmetry; apply Z.eqb_neq; lia).
      cbn [negb]. rewrite (Hmap E0).
      rewrite land_msk_testbit, Hbit, negb_involutive by lia.
      reflexivity. }
  rewrite Hstep. clear Hstep.
  destruct Htok as (Hp0 & Hp' & Htok). unfold tok_bytes.
  destruct (is_ref t) eqn:Eref.
  - destruct Htok as (Hov & Hl & Hdist & -> & Hrep).
    cbn [app].
    replace (u8 (m_ov t)) with (m_ov t) by (unfold u8; lia).
    replace (u8 (m_l t)) with (m_l t) by (unfold u8; lia).
    destruct (copy_loop_ok (m_ov t) (Z.to_nat RING_SIZE) Hov buf mo (m_l t) o
                Hok Hh) as (buf' & mo' & bs & E & Hh' & Hlen & Hcp).
    { rewrite RING_SIZE_eq. lia. }
    rewrite E. eexists _, _, _, _. split; [reflexivity|].
    cbn [written wfail ferror].
    assert (Hw' : written o ++ bs = firstn (Z.to_nat (pos + m_l t + 1)) s).
    { rewrite Hw. replace (pos + m_l t + 1) with (pos + zlen bs) by lia.
      apply (copied_prefix s bs pos (m_ov t + 1)); try lia.
      - rewrite <- Hw. exact Hcp.
      - intros x Hx. apply Hrep. lia. }
    split; [lia|]. split; [exact Hok|]. split; [exact Hw'|exact Hh'].
  - destruct Htok as (-> & Hov). cbn [app].
    rewrite putc_ok, u8_u8 by assumption.
    eexists _, _, _, _. split; [reflexivity|].
    cbn [written wfail ferror].
    assert (Hw' : written o ++ [u8 (m_ov t)] = firstn (Z.to_nat (pos + 1)) s).
    { rewrite Hw, Hov, u8_zn.
      apply (firstn_extend s [zn s pos] pos); try lia.
      - change (zlen [zn s pos]) with 1. lia.
      - intros x Hx. change (zlen [zn s pos]) with 1 in Hx.
        replace x with 0 by lia. rewrite Z.add_0_r. reflexivity. }
    split; [lia|]. split; [exact Hok|]. split; [exact Hw'|].
    apply dec_hist_push. exact Hh.
Qed.

Lemma decompress_tail (g : list match_t) :
  forall j f rest buf mo ml c o pos pos',
    dec_at s pos buf mo o -> chain s pos g pos' ->
    1 <= j -> j + zlen g <= 8 -> 0 <= c < 256 -> kinds_at c j g ->
    exists buf' mo' ml' o',
      decompress_loop (length g + f) (flat_map tok_bytes g ++ rest)
        buf mo ml c (msk_at j) o
      = decompress_loop f rest buf' mo' ml' c (msk_at (j + zlen g)) o' /\
      dec_at s pos' buf' mo' o'.
Proof.
  induction g as [|t g IH]; intros j f rest buf mo ml c o pos pos' Hat Hch Hj
    Hlen Hc Hk.
  - cbn in Hch. subst pos'. exists buf, mo, ml, o.
    change (zlen (@nil match_t)) with 0. rewrite Z.add_0_r. auto.
  - destruct Hch as (q & Htok & Hch). destruct Hk as (Hbit & Hk).
    rewrite zlen_cons in *. pose proof (zlen_nonneg g) as H0.
    destruct (decompress_token (length g + f)
                (flat_map tok_bytes g ++ rest) buf mo ml c j c t o pos q
                Hat Htok ltac:(lia) Hc Hbit ltac:(auto))
      as (buf1 & mo1 & ml1 & o1 & E & Hat1).
    replace (j =? 0) with false in E by (symmetry; apply Z.eqb_neq; lia).
    cbn [app] in E.
    destruct (IH (j + 1) f rest buf1 mo1 ml1 c o1 q pos' Hat1 Hch
                ltac:(lia) ltac:(lia) Hc Hk)
      as (buf' & mo' & ml' & o' & E' & Hat').
    exists buf', mo', ml', o'. split; [|exact Hat'].
    cbn [length flat_map Nat.add]. rewrite <- app_assoc, E, E'.
    do 2 f_equal. lia.
Qed.

Lemma decompress_group (g : list match_t) (f : nat) (rest : list Z)
  (buf : Z -> Z) (mo ml map c : Z) (o : sink) (pos pos' : Z) :
  dec_at s pos buf mo o -> chain s pos g pos' ->
  g <> [] -> zlen g <= 8 -> 0 <= c < 256 -> kinds_at c 0 g ->
  exists buf' mo' ml' o',
    decompress_loop (length g + f) (c :: flat_map tok_bytes g ++ rest)
      buf mo ml map (msk_at 0) o
    = decompress_loop f rest buf' mo' ml' c (msk_at (zlen g)) o' /\
    dec_at s pos' buf' mo' o'.
Proof.
  intros Hat Hch Hne Hlen Hc Hk. destruct g as [|t g]; [congruence|].
  destruct Hch as (q & Htok & Hch). destruct Hk as (Hbit & Hk).
  rewrite zlen_cons in *. pose proof (zlen_nonneg g) as H0.
  destruct (decompress_token (length g + f)
              (flat_map tok_bytes g ++ rest) buf mo ml map 0 c t o pos q
              Hat Htok ltac:(lia) Hc Hbit ltac:(lia))
    as (buf1 & mo1 & ml1 & o1 & E & Hat1).
  cbn [Z.eqb app] in E.
  destruct (decompress_tail g 1 f rest buf1 mo1 ml1 c o1 q pos' Hat1 Hch
              ltac:(lia) ltac:(lia) Hc Hk)
    as (buf' & mo' & ml' & o' & E' & Hat').
  exists buf', mo', ml', o'. split; [|exact Hat'].
  cbn [length flat_map Nat.add]. rewrite <- app_assoc.
  cbn [Z.add Pos.add] in E. rewrite E, E'. do 2 f_equal. lia.
Qed.

End Decoder.

(** ** The control byte holds the kinds of the tokens of its group *)

Lemma bit_testbit (k i : Z) : 0 <= k -> Z.testbit (Z.shiftl 1 k) i = (k =? i).
Proof. intros Hk. rewrite Z.shiftl_1_l. apply Z.pow2_bits_eqb. exact Hk. Qed.

Lemma ctrl_from_low (g : list match_t) :
  forall k i, 0 <= i < k -> Z.testbit (ctrl_from lsb_first k g) i = false.
Proof.
  induction g as [|t g IH]; intros k i Hi; cbn [ctrl_from].
  - apply Z.bits_0.
  - rewrite Z.lor_spec, IH by lia. unfold lsb_first.
    destruct (is_ref t); [|rewrite Z.bits_0; reflexivity].
    rewrite bit_testbit by lia.
    replace (k =? i) with false by (symmetry; apply Z.eqb_neq; lia). reflexivity.
Qed.

Lemma ctrl_from_kinds (g : list match_t) :
  forall k x,
    0 <= k -> (forall i, k <= i -> Z.testbit x i = false) ->
    kinds_at (Z.lor x (ctrl_from lsb_first k g)) k g.
Proof.
  induction g as [|t g IH]; intros k x Hk Hx; cbn [ctrl_from kinds_at]; [exact I|].
  split.
  - rewrite !Z.lor_spec, Hx, ctrl_from_low by lia. unfold lsb_first.
    destruct (is_ref t); [|rewrite Z.bits_0; reflexivity].
    rewrite bit_testbit, Z.eqb_refl by lia. reflexivity.
  - rewrite Z.lor_assoc. apply IH; [lia|].
    intros i Hi. rewrite Z.lor_spec, Hx by lia. unfold lsb_first.
    destruct (is_ref t); [|rewrite Z.bits_0; reflexivity].
    rewrite bit_testbit by lia.
    replace (k =? i) with false by (symmetry; apply Z.eqb_neq; lia). reflexivity.
Qed.

Lemma ctrl_kinds (g : list match_t) : kinds_at (ctrl_from lsb_first 0 g) 0 g.
Proof.
  rewrite <- (Z.lor_0_l (ctrl_from lsb_first 0 g)).
  apply ctrl_from_kinds; [lia|]. intros i _. apply Z.bits_0.
Qed.

Lemma lor_byte (a b : Z) : 0 <= a < 256 -> 0 <= b < 256 -> 0 <= Z.lor a b < 256.
Proof.
  intros Ha Hb.
  assert (H : Z.lor a b = u8 (Z.lor a b)).
  { rewrite u8_lor. unfold u8. rewrite !Z.mod_small by lia. reflexivity. }
  rewrite H. unfold u8. lia.
Qed.

Lemma ctrl_from_range (g : list match_t) :
  forall k, 0 <= k -> k + zlen g <= 8 -> 0 <= ctrl_from lsb_first k g < 256.
Proof.
  induction g as [|t g IH]; intros k Hk Hlen; cbn [ctrl_from]; [lia|].
  rewrite zlen_cons in Hlen. pose proof (zlen_nonneg g) as H0.
  apply lor_byte; [|apply IH; lia].
  unfold lsb_first. destruct (is_ref t); [|lia].
  cases_upto k; cbn; lia.
Qed.

(** ** The decoder reads back the frame of a chain of tokens *)

Lemma chain_app (s : list Z) (a b : list match_t) :
  forall pos pos',
    chain s pos (a ++ b) pos' <->
    exists q, chain s pos a q /\ chain s q b pos'.
Proof.
  induction a as [|t a IH]; intros pos pos'; cbn [app chain].
  - split.
    + intros H. exists pos. auto.
    + intros (q & -> & H). exact H.
  - split.
    + intros (q & Ht & H). apply IH in H. destruct H as (q' & Ha & Hb).
      exists q'. split; [exists q; auto|exact Hb].
    + intros (q' & (q & Ht & Ha) & Hb). exists q. split; [exact Ht|].
      apply IH. exists q'. auto.
Qed.

Lemma tok_bytes_length (l : list match_t) :
  (length l <= length (flat_map tok_bytes l))%nat.
Proof.
  induction l as [|a l IH]; cbn [flat_map length]; [lia|].
  rewrite length_app. unfold tok_bytes at 1.
  destruct (is_ref a); cbn [length]; lia.
Qed.

Lemma frame_length (n : nat) :
  forall ts,
    (length ts <= n)%nat -> (length ts <= length (frame lsb_first ts))%nat.
Proof.
  induction n as [|n IH]; intros ts Hn.
  { destruct ts; [cbn; lia|cbn in Hn; lia]. }
  destruct (Nat.le_gt_cases (length ts) 8) as [Hle|Hgt].
  - destruct ts as [|t ts']; [cbn; lia|].
    rewrite frame_last by (cbn [length] in *; lia).
    unfold group_bytes. pose proof (tok_bytes_length (t :: ts')).
    cbn [length] in *. lia.
  - rewrite <- (firstn_skipn 8 ts) at 2.
    rewrite frame_full by (rewrite length_firstn; lia).
    rewrite length_app. unfold group_bytes. cbn [length].
    specialize (IH (skipn 8 ts)). rewrite length_skipn in IH.
    specialize (IH ltac:(lia)).
    pose proof (tok_bytes_length (firstn 8 ts)) as H8.
    rewrite length_firstn in H8. lia.
Qed.

Section DecodeFrame.
Variable s : list Z.
Hypothesis Hs : bytes s.

Lemma decompress_end (f : nat) (buf : Z -> Z) (mo ml map msk : Z) (o : sink) :
  (0 < f)%nat -> dec_at s (zlen s) buf mo o ->
  exists o',
    decompress_loop f [] buf mo ml map msk o = Some (0, o') /\ written o' = s.
Proof.
  intros Hf (_ & _ & Hw & _). destruct f; [lia|]. exists o.
  split; [reflexivity|]. rewrite Hw. apply firstn_all2. unfold zlen. lia.
Qed.

Lemma decompress_frame_loop (n : nat) :
  forall ts f buf mo ml map o pos,
    (length ts <= n)%nat -> (length ts < f)%nat ->
    dec_at s pos buf mo o -> chain s pos ts (zlen s) ->
    exists o',
      decompress_loop f (frame lsb_first ts) buf mo ml map (msk_at 0) o
        = Some (0, o') /\
      written o' = s.
Proof.
  induction n as [|n IH]; intros ts f buf mo ml map o pos Hn Hf Hat Hch.
  { destruct ts; [|cbn in Hn; lia]. cbn in Hch. subst pos.
    apply decompress_end; auto. }
  destruct (list_eq_dec_nil ts) as [->|Hne].
  { cbn in Hch. subst pos. apply decompress_end; auto. }
  destruct (Nat.le_gt_cases (length ts) 8) as [Hle|Hgt].
  - rewrite frame_last by (destruct ts; cbn [length] in *; [congruence|lia]).
    unfold group_bytes.
    replace f with (length ts + (f - length ts))%nat by lia.
    rewrite <- (app_nil_r (flat_map tok_bytes ts)).
    destruct (decompress_group s Hs ts (f - length ts) [] buf mo ml map
                (ctrl_from lsb_first 0 ts) o pos (zlen s) Hat Hch Hne)
      as (buf' & mo' & ml' & o' & E & Hat').
    { unfold zlen. lia. }
    { apply ctrl_from_range; unfold zlen; lia. }
    { apply ctrl_kinds. }
    rewrite E. apply decompress_end; auto. lia.
  - rewrite <- (firstn_skipn 8 ts) in Hch |- *.
    set (g := firstn 8 ts) in *. set (r := skipn 8 ts) in *.
    assert (Hg : length g = 8%nat) by (subst g; rewrite length_firstn; lia).
    assert (Hr : (length r = length ts - 8)%nat)
      by (subst r; apply length_skipn).
    apply chain_app in Hch. destruct Hch as (q & Hcg & Hcr).
    rewrite frame_full by exact Hg. unfold group_bytes.
    cbn [app]. replace f with (length g + (f - 8))%nat by lia.
    destruct (decompress_group s Hs g (f - 8) (frame lsb_first r) buf mo ml map
                (ctrl_from lsb_first 0 g) o pos q Hat Hcg)
      as (buf' & mo' & ml' & o' & E & Hat').
    { intros ->. discriminate Hg. }
    { unfold zlen. lia. }
    { apply ctrl_from_range; unfold zlen; lia. }
    { apply ctrl_kinds. }
    rewrite E. replace (zlen g) with 8 by (unfold zlen; lia).
    rewrite msk_at_8. apply (IH r (f - 8)%nat _ _ _ _ _ q); auto; lia.
Qed.

(** Decoding the frame of tokens that describe [s] gives [s]. *)
Lemma decompress_frame (buf0 : Z -> Z) (map0 : Z) (ts : list match_t) (o : sink) :
  sink_ok o -> written o = [] -> chain s 0 ts (zlen s) ->
  exists o',
    decompress buf0 map0 (frame lsb_first ts) o = Some (0, o') /\
    written o' = s.
Proof.
  intros Hok Hw Hch. unfold decompress. rewrite data_eof, msk_seed_eq.
  apply (decompress_frame_loop (length ts) ts _ _ _ _ _ _ 0); auto.
  - pose proof (frame_length (length ts) ts ltac:(lia)). lia.
  - pose proof (zlen_nonneg s). split; [lia|]. split; [exact Hok|].
    split; [rewrite Hw; reflexivity|]. rewrite Hw.
    split; [constructor|]. split; [reflexivity|].
    intros k Hk. change (zlen (@nil Z)) with 0 in Hk. lia.
Qed.

End DecodeFrame.

(** ** The frame is made of bytes *)

Lemma tok_bytes_bytes (l : list match_t) : bytes (flat_map tok_bytes l).
Proof.
  induction l as [|a l IH]; cbn [flat_map]; [constructor|].
  apply bytes_app; [|exact IH]. unfold tok_bytes.
  destruct (is_ref a); repeat constructor; unfold u8; lia.
Qed.

Lemma group_bytes_bytes (g : list match_t) :
  (length g <= 8)%nat -> bytes (group_bytes lsb_first g).
Proof.
  intros Hg. unfold group_bytes. constructor; [|apply tok_bytes_bytes].
  apply ctrl_from_range; unfold zlen; lia.
Qed.

Lemma groups_of_sizes (fuel : nat) :
  forall ts, Forall (fun g => (1 <= length g <= 8)%nat) (groups_of fuel ts).
Proof.
  induction fuel as [|fuel IH]; intros ts; cbn [groups_of]; [constructor|].
  destruct ts as [|t ts]; [constructor|]. constructor; [|apply IH].
  rewrite length_firstn. cbn [length]. lia.
Qed.

Lemma frame_bytes (ts : list match_t) : bytes (frame lsb_first ts).
Proof.
  unfold frame. pose proof (groups_of_sizes (length ts) ts) as H.
  fold (groups ts) in H. induction H as [|g gs Hg _ IH]; cbn [flat_map].
  - constructor.
  - apply bytes_app; [apply group_bytes_bytes; lia|exact IH].
Qed.

Lemma write_all_ok (bs : list Z) :
  forall o,
    sink_ok o -> bytes bs ->
    write_all bs o =
      (None, {| written := written o ++ bs; wfail := wfail o; ferror := ferror o |}).
Proof.
  induction bs as [|b bs IH]; intros o Hok Hb; cbn [write_all].
  - rewrite app_nil_r. destruct o; reflexivity.
  - inversion Hb as [|? ? Hb1 Hb2]; subst.
    rewrite putc_ok by assumption. rewrite IH by assumption.
    cbn [written wfail ferror]. rewrite <- app_assoc.
    replace (u8 b) with b by (unfold u8; lia). reflexivity.
Qed.

(** ** One iteration of the decoder *)

Lemma decompress_step (f : nat) (i : list Z) (buf : Z -> Z) (mo ml map j c : Z)
  (o : sink) :
  0 <= j <= 7 -> 0 <= c < 256 -> (j <> 0 -> map = c) ->
  decompress_loop (S f) ((if j =? 0 then [c] else []) ++ i)
    buf mo ml map (msk_at j) o
  = match i with
    | [] => if j =? 0 then Some (Z.pos EIO, o) else Some (0, o)
    | c1 :: i1 =>
        if Z.testbit c j then
          match i1 with
          | [] => Some (Z.pos EIO, o)
          | c2 :: i2 =>
              match copy_loop (Z.to_nat RING_SIZE) buf mo (u8 (c1 + 1)) c2 o with
              | None => None
              | Some (Some e, _, _, o1) => Some (fail_ret e o1, o1)
              | Some (None, buf1, mo1, o1) =>
                  decompress_loop f i2 buf1 mo1 (u8 (c1 + 1)) c
                    (msk_at (j + 1)) o1
              end
          end
        else
          match putc c1 o with
          | (Some e, o1) => Some (fail_ret e o1, o1)
          | (None, o1) =>
              decompress_loop f i1 (upd buf mo (u8 c1)) (u8 (mo + 1)) ml c
                (msk_at (j + 1)) o1
          end
    end.
Proof.
  intros Hj Hc Hmap. destruct (j =? 0) eqn:E0.
  - apply Z.eqb_eq in E0. subst j. cbn [app].
    rewrite decompress_loop_S. cbv beta iota zeta.
    rewrite (rol_msk_at 0), (msk_at_bit0 0) by lia. cbn [Z.eqb negb].
    destruct i as [|c1 i1]; [reflexivity|].
    rewrite (land_msk_testbit c 0), negb_involutive by lia.
    reflexivity.
  - apply Z.eqb_neq in E0. cbn [app].
    destruct i as [|c1 i1]; [reflexivity|].
    rewrite decompress_loop_S. cbv beta iota zeta.
    rewrite rol_msk_at, msk_at_bit0 by lia.
    replace (j =? 0) with false by (symmetry; apply Z.eqb_neq; lia).
    cbn [negb]. rewrite (Hmap E0).
    rewrite land_msk_testbit, negb_involutive by lia.
    reflexivity.
Qed.

(** ** The status returned by the decoder *)

Lemma putc_ferror (b : Z) (o : sink) :
  match putc b o with
  | (Some e, o') =>
      ferror o' = true /\ wfail o' = wfail o /\
      wfail o (length (written o')) = Some e
  | (None, o') => ferror o' = ferror o /\ wfail o' = wfail o
  end.
Proof.
  unfold putc. destruct (wfail o (length (written o))) eqn:E; cbn; auto.
Qed.


Lemma msk_at_mod (j : Z) : msk_at (j + 1) = msk_at ((j + 1) mod 8).
Proof.
  unfold msk_at. f_equal.
  rewrite <- (Zminus_mod_idemp_l (j + 1) 1 8). reflexivity.
Qed.


(** ** The decoder returns on every input *)

Lemma copy_loop_out (fuel : nat) :
  forall buf mo ml c o,
    0 <= c < Z.of_nat fuel ->
    exists r buf' mo' o' out,
      copy_loop fuel buf mo ml c o = Some (r, buf', mo', o') /\
      written o' = written o ++ out /\ zlen out <= c + 1 /\ bytes out /\
      wfail o' = wfail o.
Proof.
  induction fuel as [|fuel IH]; intros buf mo ml c o Hc; [lia|].
  cbn [copy_loop]. unfold putc.
  destruct (wfail o (length (written o))) as [e|] eqn:Ew.
  - do 4 eexists. exists []. split; [reflexivity|]. cbn [written wfail].
    rewrite app_nil_r. repeat split; auto; [unfold zlen; cbn; lia|constructor].
  - destruct (c =? 0) eqn:E0; cbn [negb].
    + do 4 eexists. eexists. split; [reflexivity|]. cbn [written wfail].
      repeat split; auto; [unfold zlen; cbn; lia|apply bytes_u8].
    + apply Z.eqb_neq in E0.
      match goal with |- context [copy_loop fuel ?b ?m ml (c - 1) ?o1] =>
        destruct (IH b m ml (c - 1) o1 ltac:(lia))
          as (r & buf' & mo' & o' & out & E & Hw & Hl & Hb & Hf) end.
      cbn [written wfail] in Hw, Hf.
      exists r, buf', mo', o'. eexists. split; [exact E|].
      rewrite Hw, <- app_assoc. split; [reflexivity|].
      split; [unfold zlen in *; rewrite length_app; cbn [length]; lia|].
      split; [apply bytes_app; [apply bytes_u8|exact Hb]|exact Hf].
Qed.

Lemma decompress_loop_out (fuel : nat) :
  forall i buf mo ml map msk o,
    bytes i -> (length i < fuel)%nat ->
    exists ret o' out,
      decompress_loop fuel i buf mo ml map msk o = Some (ret, o') /\
      written o' = written o ++ out /\ zlen out <= 128 * zlen i /\
      bytes out /\ wfail o' = wfail o.
Proof.
  induction fuel as [|fuel IH]; intros i buf mo ml map msk o Hi Hf; [lia|].
  assert (Hstop : forall r : Z, exists ret o' out,
            Some (r, o) = Some (ret, o') /\ written o' = written o ++ out /\
            zlen out <= 0 /\ bytes out /\ wfail o' = wfail o).
  { intros r. exists r, o, []. rewrite app_nil_r.
    repeat split; [unfold zlen; cbn; lia|constructor]. }
  destruct i as [|c i1].
  { destruct (Hstop 0) as (ret & o' & out & E & Hw & Hl & Hb & Hwf).
    exists ret, o', out. unfold zlen in *. rewrite decompress_loop_S.
    cbn [length].
    repeat split; auto; lia. }
  rewrite decompress_loop_S. cbv beta iota zeta. set (msk' := rol msk).
  assert (Htok : forall map c i1,
            0 <= c < 256 -> bytes i1 -> (length i1 < fuel)%nat ->
            exists ret o' out,
              (if negb (Z.land map msk' =? 0) then
                 match i1 with
                 | [] => Some (Z.pos EIO, o)
                 | c2 :: i2 =>
                     match copy_loop (Z.to_nat RING_SIZE) buf mo (u8 (c + 1)) c2 o
                     with
                     | None => None
                     | Some (Some e, _, _, o1) => Some (fail_ret e o1, o1)
                     | Some (None, buf1, mo1, o1) =>
                         decompress_loop fuel i2 buf1 mo1 (u8 (c + 1)) map msk' o1
                     end
                 end
               else
                 match putc c o with
                 | (Some e, o1) => Some (fail_ret e o1, o1)
                 | (None, o1) =>
                     decompress_loop fuel i1 (upd buf mo (u8 c)) (u8 (mo + 1))
                       ml map msk' o1
                 end) = Some (ret, o') /\
              written o' = written o ++ out /\
              zlen out <= 128 * (zlen i1 + 1) /\ bytes out /\
              wfail o' = wfail o).
  { clear c i1 Hi Hf map. intros map c i1 Hc Hi Hf.
    destruct (negb (Z.land map msk' =? 0)).
    - destruct i1 as [|c2 i2].
      { destruct (Hstop (Z.pos EIO)) as (ret & o' & out & E & Hw & Hl & Hb & Hwf).
        exists ret, o', out. unfold zlen in *. cbn [length].
        repeat split; auto; lia. }
      inversion Hi as [|? ? Hc2 Hi2]; subst.
      destruct (copy_loop_out (Z.to_nat RING_SIZE) buf mo (u8 (c + 1)) c2 o)
        as (r & buf1 & mo1 & o1 & out1 & E & Hw & Hl & Hb & Hwf).
      { rewrite RING_SIZE_eq. lia. }
      rewrite E. destruct r as [e|].
      + exists (fail_ret e o1), o1, out1. unfold zlen in *. cbn [length].
        repeat split; auto; lia.
      + cbn [length] in Hf.
        destruct (IH i2 buf1 mo1 (u8 (c + 1)) map msk' o1 Hi2 ltac:(lia))
          as (ret & o' & out & E' & Hw' & Hl' & Hb' & Hwf').
        exists ret, o', (out1 ++ out). split; [exact E'|].
        rewrite Hw', Hw, <- app_assoc. split; [reflexivity|].
        split; [unfold zlen in *; rewrite length_app; cbn [length]; lia|].
        split; [apply bytes_app; auto|congruence].
    - unfold putc. destruct (wfail o (length (written o))) as [e|].
      + eexists _, _, []. split; [reflexivity|]. cbn [written wfail].
        rewrite app_nil_r. unfold zlen. cbn [length].
        repeat split; auto; [lia|constructor].
      + match goal with
        |- context [decompress_loop fuel (eof_source i1) ?b ?m ml map msk' ?o1] =>
          destruct (IH i1 b m ml map msk' o1 Hi Hf)
            as (ret & o' & out & E' & Hw' & Hl' & Hb' & Hwf') end.
        cbn [written wfail] in Hw', Hwf'.
        exists ret, o', (u8 c :: out). split; [exact E'|].
        rewrite Hw', <- app_assoc. split; [reflexivity|].
        split; [unfold zlen in *; cbn [length]; lia|].
        split; [|exact Hwf'].
        constructor; [unfold u8; lia|exact Hb']. }
  inversion Hi as [|? ? Hc Hi1]; subst. cbn [length] in Hf.
  destruct (negb (Z.land msk' 1 =? 0)).
  - destruct i1 as [|c' i2].
    { destruct (Hstop (Z.pos EIO)) as (ret & o' & out & E & Hw & Hl & Hb & Hwf).
      exists ret, o', out. unfold zlen in *. cbn [length].
      repeat split; auto; lia. }
    inversion Hi1 as [|? ? Hc' Hi2]; subst. cbn [length] in Hf.
    destruct (Htok c c' i2 Hc' Hi2 ltac:(lia))
      as (ret & o' & out & E & Hw & Hl & Hb & Hwf).
    exists ret, o', out. split; [exact E|].
    unfold zlen in *. cbn [length]. repeat split; auto; lia.
  - destruct (Htok map c i1 Hc Hi1 ltac:(lia))
      as (ret & o' & out & E & Hw & Hl & Hb & Hwf).
    exists ret, o', out. split; [exact E|].
    unfold zlen in *. cbn [length]. repeat split; auto; lia.
Qed.

(** ** Runs of one byte *)

Lemma copied_run (out bs : list Z) :
  out <> [] -> copied out 1 bs ->
  bs = repeat (zn out (zlen out - 1)) (length bs).
Proof.
  intros Hne Hcp. pose proof (zlen_nonneg out) as H0.
  assert (H1 : 1 <= zlen out).
  { destruct out; [congruence|]. rewrite zlen_cons. pose proof (zlen_nonneg out). lia. }
  assert (H : forall n : nat, (n < length bs)%nat ->
                zn bs (Z.of_nat n) = zn out (zlen out - 1)).
  { induction n as [|n IH]; intros Hn.
    - specialize (Hcp 0 ltac:(unfold zlen; lia) ltac:(lia)).
      rewrite Z.add_0_r in Hcp. rewrite zn_app_r in Hcp by lia.
      rewrite zn_app_l in Hcp by lia. rewrite Z.sub_diag in Hcp. exact Hcp.
    - specialize (Hcp (Z.of_nat (S n)) ltac:(unfold zlen; lia) ltac:(lia)).
      rewrite !zn_app_r in Hcp by lia.
      replace (zlen out + Z.of_nat (S n) - zlen out) with (Z.of_nat (S n)) in Hcp
        by lia.
      replace (zlen out + Z.of_nat (S n) - 1 - zlen out) with (Z.of_nat n) in Hcp
        by lia.
      rewrite Hcp. apply IH. lia. }
  apply (nth_ext _ _ 0 0); [rewrite repeat_length; reflexivity|].
  intros n Hn. rewrite nth_repeat_lt by assumption.
  specialize (H n Hn). unfold zn in H at 1. rewrite Nat2Z.id in H. exact H.
Qed.

(** ** The mask of the encoder *)

Lemma iter_rol (k : nat) :
  Nat.iter k rol MSK_SEED = msk_at (Z.of_nat k mod 8).
Proof.
  induction k as [|k IH]; [reflexivity|].
  change (Nat.iter (S k) rol MSK_SEED) with (rol (Nat.iter k rol MSK_SEED)).
  rewrite IH, rol_msk_at by lia.
  rewrite msk_at_mod. f_equal.
  rewrite Nat2Z.inj_succ. unfold Z.succ.
  rewrite <- (Zplus_mod_idemp_l (Z.of_nat k) 1 8). reflexivity.
Qed.

(** ** Concrete windows and streams *)

Lemma w_AA_wf : wnd_wf w_AA.
Proof. unfold wnd_wf, wnd_inv. vm_compute. intuition congruence. Qed.

(** ** The model on small inputs *)

Example compress_empty : run_compress [] = Some (0, []).
Proof. reflexivity. Qed.

Example compress_single : run_compress [65] = Some (0, [0; 65]).
Proof. vm_compute. reflexivity. Qed.

Example compress_literals :
  run_compress [0; 1; 2; 3; 4; 5; 6; 7] = Some (0, [0; 0; 1; 2; 3; 4; 5; 6; 7]).
Proof. vm_compute. reflexivity. Qed.

Example compress_nine_literals :
  run_compress [0; 1; 2; 3; 4; 5; 6; 7; 8]
  = Some (0, [0; 0; 1; 2; 3; 4; 5; 6; 7; 0; 8]).
Proof. vm_compute. reflexivity. Qed.

Example compress_abab :
  run_compress [65; 66; 65; 66; 65; 66; 65; 66] = Some (0, [4; 65; 66; 1; 5]).
Proof. vm_compute. reflexivity. Qed.

Example decompress_abab :
  run_decompress [4; 65; 66; 1; 5] = Some (0, [65; 66; 65; 66; 65; 66; 65; 66]).
Proof. vm_compute. reflexivity. Qed.

Example decompress_truncated : run_decompress [4; 65; 66; 1] = Some (Z.pos EIO, [65; 66]).
Proof. vm_compute. reflexivity. Qed.

(** ** The claims *)

(** C1: Round-trip: for every finite byte sequence, [compress] on a sink
    whose writes succeed returns 0, and [decompress] on the bytes it wrote
    returns 0 and writes exactly that sequence; this holds whatever the
    contents of the uninitialised variables. *)
Theorem round_trip (x0 : ctx) (a0 buf0 : Z -> Z) (map0 : Z) (s : list Z) :
  bytes s ->
  exists oc od,
    compress x0 a0 s ideal_sink = Some (0, oc) /\
    decompress buf0 map0 (written oc) ideal_sink = Some (0, od) /\
    written od = s.
Proof.
  intros Hs. destruct (tokens_chain a0 s x0) as (ts & Ets & Hch).
  pose proof (compress_frame a0 x0 s ideal_sink ts Ets) as Ec.
  rewrite write_all_ok in Ec by (try apply frame_bytes; intros k; reflexivity).
  cbn [to_ret written ideal_sink app] in Ec.
  destruct (decompress_frame s Hs buf0 map0 ts ideal_sink
              ltac:(intros k; reflexivity) eq_refl Hch) as (od & Ed & Hw).
  eexists _, od. split; [exact Ec|]. cbn [written]. auto.
Qed.

Lemma round_trip_witness :
  bytes [65; 66; 65; 66; 65; 66] /\
  exists oc od,
    compress zero_ctx zeros [65; 66; 65; 66; 65; 66] ideal_sink = Some (0, oc) /\
    decompress zeros 0 (written oc) ideal_sink = Some (0, od) /\
    written od = [65; 66; 65; 66; 65; 66].
Proof.
  assert (H : bytes [65; 66; 65; 66; 65; 66]) by (repeat constructor; lia).
  split; [exact H|].
  exact (round_trip zero_ctx zeros zeros 0 [65; 66; 65; 66; 65; 66] H).
Defined.

(** C2, as stated, fails: on three zero bytes the tokens are a literal and a
    back-reference and the control byte written is 2, bit 1 for token 1,
    where bit 7 - 1 would give 64. *)
Lemma wire_order_msb_counterexample : ~ wire_order msb_first.
Proof.
  intros H.
  destruct (H zero_ctx zeros [0; 0; 0]) as (ts & o & Ets & Ec & Hw).
  vm_compute in Ets. injection Ets as <-.
  vm_compute in Ec. injection Ec as <-. vm_compute in Hw. discriminate.
Qed.

(** C2, amended: Wire-format bit order: in every group of the compressed
    stream, for every token index k in 0..7, bit k of the control byte is 1
    exactly when token k is a back-reference and 0 when it is a literal;
    the decoder tests that same bit k for token k, and so reads back any
    frame in this order. *)
Theorem wire_order_lsb :
  wire_order lsb_first /\
  (forall g, kinds_at (ctrl_from lsb_first 0 g) 0 g) /\
  (forall c (j : nat),
      0 <= c < 256 -> (j < 8)%nat ->
      (Z.land c (Nat.iter (S j) rol MSK_SEED) =? 0) = negb (Z.testbit c (Z.of_nat j))) /\
  (forall s ts buf0 map0,
      bytes s -> chain s 0 ts (zlen s) ->
      exists od, decompress buf0 map0 (frame lsb_first ts) ideal_sink = Some (0, od) /\
                 written od = s).
Proof.
  split; [|split; [|split]].
  - intros x0 a0 s. destruct (tokens_chain a0 s x0) as (ts & Ets & _).
    pose proof (compress_frame a0 x0 s ideal_sink ts Ets) as Ec.
    rewrite write_all_ok in Ec by (try apply frame_bytes; intros k; reflexivity).
    eexists ts, _. split; [exact Ets|]. split; [exact Ec|]. reflexivity.
  - apply ctrl_kinds.
  - intros c j Hc Hj.
    change (Nat.iter (S j) rol MSK_SEED) with (rol (Nat.iter j rol MSK_SEED)).
    rewrite iter_rol.
    rewrite Z.mod_small by lia. rewrite rol_msk_at by lia.
    apply land_msk_testbit; lia.
  - intros s ts buf0 map0 Hs Hch.
    apply (decompress_frame s Hs buf0 map0 ts ideal_sink); auto.
    intros k. reflexivity.
Qed.

Lemma wire_order_lsb_witness :
  (Z.land 2 (Nat.iter 2 rol MSK_SEED) =? 0) = negb (Z.testbit 2 (Z.of_nat 1)) /\
  exists od,
    decompress zeros 0 (frame lsb_first [mk_match 0 0; mk_match 0 1]) ideal_sink
      = Some (0, od) /\
    written od = [0; 0; 0].
Proof.
  destruct wire_order_lsb as (_ & _ & Hbit & Hdec). split.
  - apply (Hbit 2 1%nat); lia.
  - apply (Hdec [0; 0; 0] [mk_match 0 0; mk_match 0 1] zeros 0).
    + repeat constructor; lia.
    + exists 1. split.
      * unfold tok_ok. cbn. repeat split; lia.
      * exists 3. split; [|reflexivity].
        unfold tok_ok. cbn. repeat split; try lia.
        intros x Hx. assert (x = 0 \/ x = 1) as [-> | ->] by lia; reflexivity.
Defined.

(** C3, as stated, fails: the four bytes given are not what [compress]
    writes for ten zero bytes. *)
Lemma ten_zeros_counterexample :
  run_compress (repeat 0 10) <> Some (0, [64; 0; 0; 7]).
Proof. vm_compute. discriminate. Qed.

(** C3, amended: Concrete vector: compressing ten 0x00 bytes produces
    exactly the four bytes 0x02, 0x00, 0x00, 0x08 (a literal 0x00, then a
    back-reference with stored offset 0 and stored length 8, flagged by bit
    1 of the control byte), and decoding those bytes yields ten 0x00
    bytes. *)
Theorem ten_zeros_vector (x0 : ctx) (a0 buf0 : Z -> Z) (map0 : Z) :
  (exists o, compress x0 a0 (repeat 0 10) ideal_sink = Some (0, o) /\
             written o = [2; 0; 0; 8]) /\
  (exists o, decompress buf0 map0 [2; 0; 0; 8] ideal_sink = Some (0, o) /\
             written o = repeat 0 10).
Proof.
  split.
  - eexists. split; [vm_compute; reflexivity|]. reflexivity.
  - eexists. split; [vm_compute; reflexivity|]. reflexivity.
Qed.

(** C4, as stated, fails: with the byte 65 in the dictionary and the same
    single byte in the lookahead, [kmp_search] returns length 1 although the
    lookahead holds fewer than two bytes. *)
Lemma kmp_as_stated_counterexample : ~ kmp_as_stated.
Proof.
  intros H. destruct (H zeros w_AA w_AA_wf) as (_ & H1).
  specialize (H1 ltac:(vm_compute; reflexivity)).
  vm_compute in H1. discriminate.
Qed.

(** C4, amended: KMP longest match: for every window with a non-empty
    lookahead, [kmp_search] returns a pair (o, l) with l as large as
    possible such that the first l bytes of the lookahead equal l
    consecutive bytes of the text dictionary || lookahead starting at
    position dict.tl + o, with o strictly less than dict.size (matches may
    extend into the lookahead); if no such match exists, it returns length
    0. *)
Theorem kmp_longest_match (a0 : Z -> Z) (w : wnd) :
  wnd_wf w -> 1 <= ring_size (lookahead w) ->
  match_found w (kmp_search a0 w) /\
  longest_before w (ring_size (dictionary w)) (kmp_search a0 w) /\
  ((forall o, 0 <= o < ring_size (dictionary w) -> ~ occurs w o 1) ->
   p_l (kmp_search a0 w) = 0).
Proof.
  intros Hwf Hn. destruct (kmp_search_ok w Hwf a0 Hn) as (Hfound & Hlong).
  split; [exact Hfound|]. split; [exact Hlong|].
  intros Hnone. destruct Hfound as [(_ & Hl)|(Ho & Hl & Hocc)]; [exact Hl|].
  exfalso. apply (Hnone _ Ho). intros x Hx. apply Hocc. lia.
Qed.

Lemma kmp_longest_match_witness :
  match_found w_AA (kmp_search zeros w_AA) /\
  longest_before w_AA (ring_size (dictionary w_AA)) (kmp_search zeros w_AA) /\
  ((forall o, 0 <= o < ring_size (dictionary w_AA) -> ~ occurs w_AA o 1) ->
   p_l (kmp_search zeros w_AA) = 0).
Proof.
  apply (kmp_longest_match zeros w_AA w_AA_wf). vm_compute. discriminate.
Defined.

(** C5: Match-selector heuristic: for every window with a non-empty
    lookahead and KMP result (o, l), [lz_match] emits a literal (value the
    byte at look.tl, one byte consumed) exactly when l < 2, or l = 2 and
    look.size > 3 and the byte at look.tl+2 equals the byte at look.tl and
    the byte at look.tl+3 equals the byte at look.tl or the byte at
    dict.tl + l; otherwise it emits a back-reference with stored offset
    dict.size - o - 1 and stored length l - 1, consuming l bytes; the
    window is shifted by the count consumed. *)
Theorem match_selector (a0 : Z -> Z) (w : wnd) :
  wnd_wf w -> 1 <= ring_size (lookahead w) ->
  let o := p_o (kmp_search a0 w) in
  let l := p_l (kmp_search a0 w) in
  let literal :=
    (l <? 2)
    || ((l =? 2) && (ring_size (lookahead w) >? 3)
        && (look_byte w 2 =? look_byte w 0)
        && ((look_byte w 3 =? look_byte w 0)
            || (look_byte w 3 =? text_byte w l))) in
  lz_match a0 w =
    (if literal then (mk_match (look_byte w 0) 0, wnd_shift w 1)
     else (mk_match (ring_size (dictionary w) - o - 1) (l - 1), wnd_shift w l)) /\
  is_ref (fst (lz_match a0 w)) = negb literal.
Proof.
  intros Hwf Hn o l literal.
  assert (El : literal = not_worth w (kmp_search a0 w)).
  { symmetry. apply not_worth_eq. exact Hwf. }
  rewrite lz_match_eq by assumption. rewrite El. split; [reflexivity|].
  destruct (not_worth w (kmp_search a0 w)) eqn:Hnw; cbn [fst]; [reflexivity|].
  destruct (worth_bounds a0 w Hwf Hn Hnw) as (_ & _ & Hl & _).
  unfold is_ref. cbn [m_l negb].
  replace (p_l (kmp_search a0 w) - 1 =? 0) with false
    by (symmetry; apply Z.eqb_neq; lia).
  reflexivity.
Qed.

Lemma match_selector_witness :
  lz_match zeros w_AA = (mk_match 65 0, wnd_shift w_AA 1) /\
  is_ref (fst (lz_match zeros w_AA)) = false.
Proof.
  exact (match_selector zeros w_AA w_AA_wf ltac:(vm_compute; discriminate)).
Defined.

(** C7: Cast safety in [lz_match]: whenever it emits a back-reference
    from a KMP result (o, l), the narrowing of the two stored values to one
    byte loses nothing: dict.size - o - 1 lies in 0..255, since
    o < dict.size <= 256 as for every KMP result with l >= 1, and l - 1 lies
    in 0..255, since 1 <= l <= look.size <= 256; the fields of the token are
    these very values. *)
Theorem match_cast_safety (a0 : Z -> Z) (w : wnd) :
  wnd_wf w -> 1 <= ring_size (lookahead w) ->
  let p := kmp_search a0 w in
  (1 <= p_l p ->
     0 <= p_o p < ring_size (dictionary w) /\ ring_size (dictionary w) <= 256 /\
     p_l p <= ring_size (lookahead w) /\ ring_size (lookahead w) <= 256) /\
  (is_ref (fst (lz_match a0 w)) = true ->
     0 <= ring_size (dictionary w) - p_o p - 1 <= 255 /\
     0 <= p_l p - 1 <= 255 /\
     m_ov (fst (lz_match a0 w)) = ring_size (dictionary w) - p_o p - 1 /\
     m_l (fst (lz_match a0 w)) = p_l p - 1).
Proof.
  intros Hwf Hn p. destruct (kmp_search_ok w Hwf a0 Hn) as (Hfound & _).
  pose proof (wf_sizes w Hwf) as Hs. cbv zeta in Hs. fold p in Hfound.
  split.
  - intros Hl. destruct Hfound as [(_ & Hl0)|(Ho & Hl' & _)]; lia.
  - intros Href. rewrite lz_match_eq in * by assumption. fold p in Href |- *.
    destruct (not_worth w p) eqn:Hnw; cbn [fst m_ov m_l] in *;
      [discriminate Href|].
    destruct (worth_bounds a0 w Hwf Hn Hnw) as (Ho & Hd & Hl & Hn' & _).
    fold p in Ho, Hl. repeat split; lia.
Qed.

Lemma w_ABAB_wf : wnd_wf w_ABAB.
Proof. unfold wnd_wf, wnd_inv. vm_compute. intuition congruence. Qed.

Lemma match_cast_safety_witness :
  0 <= ring_size (dictionary w_ABAB) - p_o (kmp_search zeros w_ABAB) - 1 <= 255 /\
  0 <= p_l (kmp_search zeros w_ABAB) - 1 <= 255 /\
  m_ov (fst (lz_match zeros w_ABAB))
    = ring_size (dictionary w_ABAB) - p_o (kmp_search zeros w_ABAB) - 1 /\
  m_l (fst (lz_match zeros w_ABAB)) = p_l (kmp_search zeros w_ABAB) - 1.
Proof.
  apply (proj2 (match_cast_safety zeros w_ABAB w_ABAB_wf
                  ltac:(vm_compute; discriminate))).
  vm_compute. reflexivity.
Defined.

(** C8: Window invariants: dict.hd = look.tl, dict.size <= W and
    look.size <= W hold after [wnd_init] and are preserved by every
    [wnd_read], which terminates, and by every [wnd_shift] whose argument n
    satisfies n <= look.size. *)
Theorem window_invariants :
  (forall w, wnd_inv (wnd_init w)) /\
  (forall w i, wnd_inv w ->
     exists ret w' i', wnd_read w i = Some (ret, w', i') /\ wnd_inv w') /\
  (forall w n, wnd_inv w -> 0 <= n <= ring_size (lookahead w) ->
     wnd_inv (wnd_shift w n)).
Proof.
  split; [exact wnd_init_inv|]. split.
  - intros w i Hinv. apply wnd_read_loop_inv; auto.
  - exact wnd_shift_inv.
Qed.

Lemma window_invariants_witness :
  (exists ret w' i', wnd_read w_AA [66; 67] = Some (ret, w', i') /\ wnd_inv w') /\
  wnd_inv (wnd_shift w_AA 1).
Proof.
  assert (H : wnd_inv w_AA) by (apply w_AA_wf).
  split.
  - exact (proj1 (proj2 window_invariants) w_AA [66; 67] H).
  - apply (proj2 (proj2 window_invariants) w_AA 1 H). vm_compute.
    split; discriminate.
Defined.

(** The buffer of the decoder mirrors its output at the start and after
    every literal. *)
Lemma dec_hist_init (buf0 : Z -> Z) : dec_hist buf0 0 [].
Proof.
  split; [constructor|]. split; [reflexivity|].
  intros k Hk. change (zlen (@nil Z)) with 0 in Hk. lia.
Qed.

Lemma literal_semantics (f : nat) (rest : list Z) (buf : Z -> Z)
  (mo ml map j c v : Z) (o : sink) :
  sink_ok o -> dec_hist buf mo (written o) ->
  0 <= j <= 7 -> 0 <= c < 256 -> (j <> 0 -> map = c) ->
  Z.testbit c j = false -> 0 <= v < 256 ->
  exists buf' mo',
    decompress_loop (S f) ((if j =? 0 then [c] else []) ++ v :: rest)
      buf mo ml map (msk_at j) o
    = decompress_loop f rest buf' mo' ml c (msk_at (j + 1))
        {| written := written o ++ [v]; wfail := wfail o; ferror := ferror o |} /\
    dec_hist buf' mo' (written o ++ [v]).
Proof.
  intros Hok Hh Hj Hc Hmap Hbit Hv.
  rewrite decompress_step by assumption. rewrite Hbit, putc_ok by assumption.
  pose proof (dec_hist_push buf mo (written o) v Hh) as Hh'.
  replace (u8 v) with v in * by (unfold u8; lia).
  eexists _, _. split; [reflexivity|exact Hh'].
Qed.

(** C6: Decoder back-reference semantics: when the decoder, its buffer
    mirroring the output so far, processes token j of a group whose control
    byte has bit j set, the token being the two bytes (off, len), its copy
    loop ends having appended exactly len + 1 bytes to the output, each one
    equal to the byte off + 1 positions behind it in the output as extended
    so far; the decoder then goes on with the next token and returns what
    decoding the rest from that state returns, its output starting with the
    bytes copied; with off = 0 these are len + 1 copies of the byte that
    precedes the back-reference in the output. *)
Theorem backref_semantics (f : nat) (rest : list Z) (buf : Z -> Z)
  (mo ml map j c off len : Z) (o : sink) :
  sink_ok o -> dec_hist buf mo (written o) ->
  0 <= j <= 7 -> 0 <= c < 256 -> (j <> 0 -> map = c) ->
  Z.testbit c j = true ->
  0 <= off < 256 -> 0 <= len < 256 ->
  bytes rest -> (length rest < f)%nat ->
  exists buf' mo' bs ret o',
    copy_loop (Z.to_nat RING_SIZE) buf mo (u8 (off + 1)) len o
    = Some (None, buf', mo',
            {| written := written o ++ bs; wfail := wfail o;
               ferror := ferror o |}) /\
    decompress_loop (S f) ((if j =? 0 then [c] else []) ++ off :: len :: rest)
      buf mo ml map (msk_at j) o
    = Some (ret, o') /\
    decompress_loop f rest buf' mo' (u8 (off + 1)) c (msk_at (j + 1))
      {| written := written o ++ bs; wfail := wfail o; ferror := ferror o |}
    = Some (ret, o') /\
    (exists out, written o' = written o ++ bs ++ out) /\
    dec_hist buf' mo' (written o ++ bs) /\
    zlen bs = len + 1 /\
    copied (written o) (off + 1) bs /\
    (off = 0 -> written o <> [] ->
     bs = repeat (zn (written o) (zlen (written o) - 1)) (Z.to_nat (len + 1))).
Proof.
  intros Hok Hh Hj Hc Hmap Hbit Hoff Hlen Hrest Hf.
  rewrite decompress_step by assumption. rewrite Hbit.
  destruct (copy_loop_ok off (Z.to_nat RING_SIZE) Hoff buf mo len o Hok Hh)
    as (buf' & mo' & bs & E & Hh' & Hl & Hcp).
  { rewrite RING_SIZE_eq. lia. }
  rewrite E.
  destruct (decompress_loop_out f rest buf' mo' (u8 (off + 1)) c
              (msk_at (j + 1))
              {| written := written o ++ bs; wfail := wfail o;
                 ferror := ferror o |} Hrest Hf)
    as (ret & o' & out & Er & Hw & _).
  cbn [written] in Hw.
  exists buf', mo', bs, ret, o'.
  split; [reflexivity|]. split; [exact Er|]. split; [exact Er|].
  split; [exists out; rewrite Hw, <- app_assoc; reflexivity|].
  split; [exact Hh'|]. split; [exact Hl|]. split; [exact Hcp|].
  intros -> Hne. replace (Z.to_nat (len + 1)) with (length bs)
    by (unfold zlen in Hl; lia).
  apply copied_run; assumption.
Qed.

Lemma backref_semantics_witness :
  exists buf' mo' bs ret o',
    copy_loop (Z.to_nat RING_SIZE) (fun _ => 65) 1 (u8 (0 + 1)) 3 sink_A
    = Some (None, buf', mo',
            {| written := written sink_A ++ bs; wfail := wfail sink_A;
               ferror := ferror sink_A |}) /\
    decompress_loop 3 ((if 1 =? 0 then [2] else []) ++ 0 :: 3 :: [66])
      (fun _ => 65) 1 0 2 (msk_at 1) sink_A
    = Some (ret, o') /\
    decompress_loop 2 [66] buf' mo' (u8 (0 + 1)) 2 (msk_at (1 + 1))
      {| written := written sink_A ++ bs; wfail := wfail sink_A;
         ferror := ferror sink_A |}
    = Some (ret, o') /\
    (exists out, written o' = written sink_A ++ bs ++ out) /\
    dec_hist buf' mo' (written sink_A ++ bs) /\
    zlen bs = 3 + 1 /\
    copied (written sink_A) (0 + 1) bs /\
    (0 = 0 -> written sink_A <> [] ->
     bs = repeat (zn (written sink_A) (zlen (written sink_A) - 1))
            (Z.to_nat (3 + 1))).
Proof.
  apply (backref_semantics 2 [66] (fun _ => 65) 1 0 2 1 2 0 3 sink_A).
  - intros k. reflexivity.
  - split; [repeat constructor; lia|]. split; [reflexivity|].
    intros k Hk _. change (zlen (written sink_A)) with 1 in Hk.
    replace k with 0 by lia. reflexivity.
  - lia.
  - lia.
  - reflexivity.
  - reflexivity.
  - lia.
  - lia.
  - repeat constructor; lia.
  - cbn [length]. lia.
Defined.




Example stream_ends_complete : stream_ends [2; 65; 0; 1] = Complete.
Proof. reflexivity. Qed.

Example stream_ends_after_control :
  stream_ends [0; 1; 2; 3; 4; 5; 6; 7; 8; 2] = AfterControl.
Proof. reflexivity. Qed.

Example stream_ends_mid_backref : stream_ends [2; 65; 0] = MidBackref.
Proof. reflexivity. Qed.

(** C10: Group-buffer bound: the rotated mask has bit 0 set on exactly
    every eighth call of [compress_helper]; a call made with the count and
    the mask in phase, as they are at the start, flushes a full group of
    eight, stores its token at an index of at most 7 and leaves the count
    between 1 and 8 and in phase again; so [compress] never indexes the
    group array out of bounds, whatever the sink does, and every control
    byte it writes is followed by between 1 and 8 tokens. *)
Theorem group_buffer_bound (x0 : ctx) (a0 : Z -> Z) (s : list Z) (o : sink) :
  (forall k : nat,
     (Z.land (Nat.iter (S k) rol MSK_SEED) 1 =? 0) = negb (k mod 8 =? 0)%nat) /\
  ctx_inv {| ctx_n := 0; ctx_c := ctx_c (ctx_init x0);
             ctx_msk := ctx_msk (ctx_init x0); ctx_w := ctx_w (ctx_init x0);
             ctx_m := ctx_m (ctx_init x0) |} [] /\
  (forall x pend o1,
     ctx_inv x pend ->
     exists ret x' o',
       compress_helper a0 x o1 = Some (ret, x', o') /\
       (ret = 0 ->
          0 <= ctx_n x' <= 7 /\
          ctx_n x' = (if zlen pend =? 8 then 0 else zlen pend) /\
          exists pend', ctx_inv (ctx_next x') pend' /\ 1 <= zlen pend' <= 8)) /\
  (exists ts,
     tokens x0 a0 s = Some ts /\
     compress x0 a0 s o
       = Some (to_ret (write_all (flat_map (group_bytes lsb_first) (groups ts)) o)) /\
     Forall (fun g => (1 <= length g <= 8)%nat) (groups ts)).
Proof.
  split; [|split; [|split]].
  - intros k.
    change (Nat.iter (S k) rol MSK_SEED) with (rol (Nat.iter k rol MSK_SEED)).
    rewrite iter_rol, rol_msk_at, msk_at_bit0 by lia. f_equal.
    destruct (k mod 8 =? 0)%nat eqn:E.
    + apply Nat.eqb_eq in E. apply Z.eqb_eq.
      rewrite <- (Nat2Z.id k) in E. change 8%nat with (Z.to_nat 8) in E.
      rewrite <- Z2Nat.inj_mod in E by lia. lia.
    + apply Nat.eqb_neq in E. apply Z.eqb_neq. intros H. apply E.
      rewrite <- (Nat2Z.id k). change 8%nat with (Z.to_nat 8).
      rewrite <- Z2Nat.inj_mod by lia. rewrite H. reflexivity.
  - repeat split; cbn; try lia; congruence.
  - intros x pend o1 Hinv.
    pose proof (compress_helper_spec a0 x pend o1 Hinv) as Hs.
    pose proof Hinv as (_ & Hlen & _). pose proof (zlen_nonneg pend) as H0.
    destruct (zlen pend =? 8) eqn:E8.
    + destruct (write_all (group_bytes lsb_first pend) o1) as [[e|] o'].
      * destruct (e =? 0) eqn:Ee.
        { destruct Hs as (x' & -> & Hinv' & _ & Hn). eexists _, _, _.
          split; [reflexivity|]. intros _. rewrite Hn.
          split; [lia|]. split; [reflexivity|].
          eexists. split; [exact Hinv'|]. cbn. lia. }
        apply Z.eqb_neq in Ee.
        destruct Hs as (x' & ->). eexists _, _, _. split; [reflexivity|].
        intros H. contradiction.
      * destruct Hs as (x' & -> & Hinv' & _ & Hn). eexists _, _, _.
        split; [reflexivity|]. intros _. rewrite Hn.
        split; [lia|]. split; [reflexivity|].
        eexists. split; [exact Hinv'|]. cbn. lia.
    + apply Z.eqb_neq in E8.
      destruct Hs as (x' & -> & Hinv' & _ & Hn). eexists _, _, _.
      split; [reflexivity|]. intros _. rewrite Hn.
      split; [lia|]. split; [reflexivity|].
      eexists. split; [exact Hinv'|]. rewrite zlen_app.
      change (zlen [fst (lz_match a0 (ctx_w x))]) with 1. lia.
  - destruct (tokens_chain a0 s x0) as (ts & Ets & _). exists ts.
    split; [exact Ets|]. split.
    + apply compress_frame. exact Ets.
    + apply groups_of_sizes.
Qed.

Lemma group_buffer_bound_witness :
  exists ret x' o',
    compress_helper zeros
      {| ctx_n := 0; ctx_c := 0; ctx_msk := MSK_SEED; ctx_w := w_AA;
         ctx_m := fun _ => mk_match 0 0 |} ideal_sink
    = Some (ret, x', o') /\
    (ret = 0 ->
       0 <= ctx_n x' <= 7 /\
       ctx_n x' = (if zlen (@nil match_t) =? 8 then 0 else zlen (@nil match_t)) /\
       exists pend', ctx_inv (ctx_next x') pend' /\ 1 <= zlen pend' <= 8).
Proof.
  apply (proj1 (proj2 (proj2 (group_buffer_bound zero_ctx zeros [] ideal_sink)))
           _ [] ideal_sink).
  repeat split; cbn; try lia; congruence.
Defined.

(** * Further properties of the code *)

(** ** [rol] *)

Lemma high_bits_small (a n : Z) :
  0 <= n -> 0 <= a -> (forall m, n <= m -> Z.testbit a m = false) -> a < 2 ^ n.
Proof.
  intros Hn Ha Hb.
  assert (E : a = a mod 2 ^ n).
  { apply Z.bits_inj'. intros m Hm. destruct (Z_lt_le_dec m n).
    - rewrite Z.mod_pow2_bits_low by lia. reflexivity.
    - rewrite Z.mod_pow2_bits_high by lia. apply Hb. lia. }
  rewrite E. apply Z.mod_pos_bound. apply Z.pow_pos_nonneg; lia.
Qed.

Lemma small_high_bits (a n m : Z) :
  0 <= a < 2 ^ n -> 0 <= n <= m -> Z.testbit a m = false.
Proof.
  intros Ha Hm. rewrite <- (Z.mod_small a (2 ^ n)) by lia.
  apply Z.mod_pow2_bits_high. lia.
Qed.

Lemma rol_bit (v j : Z) :
  0 <= v < 2 ^ 32 -> 0 <= j < 32 ->
  Z.testbit (rol v) j = Z.testbit v ((j - 1) mod 32).
Proof.
  intros Hv Hj. unfold rol, wrap32. change 4294967296 with (2 ^ 32).
  rewrite Z.lor_spec, Z.mod_pow2_bits_low, Z.shiftl_spec, Z.shiftr_spec by lia.
  destruct (Z.eq_dec j 0) as [->|Hne].
  - rewrite Z.testbit_neg_r by lia. reflexivity.
  - rewrite (small_high_bits v 32 (j + 31)) by lia.
    rewrite orb_false_r. f_equal. lia.
Qed.

Lemma rol_range (v : Z) : 0 <= v < 2 ^ 32 -> 0 <= rol v < 2 ^ 32.
Proof.
  intros Hv.
  assert (H0 : 0 <= rol v).
  { unfold rol, wrap32. apply Z.lor_nonneg. split.
    - apply Z.mod_pos_bound. lia.
    - apply Z.shiftr_nonneg. lia. }
  split; [exact H0|]. apply high_bits_small; [lia|exact H0|].
  intros m Hm. unfold rol, wrap32. change 4294967296 with (2 ^ 32).
  rewrite Z.lor_spec, Z.mod_pow2_bits_high, Z.shiftr_spec by lia.
  apply (small_high_bits v 32). exact Hv. lia.
Qed.

Lemma iter_rol_bit (v : Z) (k : nat) :
  0 <= v < 2 ^ 32 ->
  0 <= Nat.iter k rol v < 2 ^ 32 /\
  forall j, 0 <= j < 32 ->
    Z.testbit (Nat.iter k rol v) j = Z.testbit v ((j - Z.of_nat k) mod 32).
Proof.
  intros Hv. induction k as [|k (IHr & IHb)].
  - split; [exact Hv|]. intros j Hj. cbn [Nat.iter]. f_equal. lia.
  - change (Nat.iter (S k) rol v) with (rol (Nat.iter k rol v)).
    split; [apply rol_range; exact IHr|].
    intros j Hj. rewrite rol_bit by assumption. rewrite IHb by lia.
    f_equal. lia.
Qed.

(** X1: [rol] is the rotation of a 32-bit value by one bit to the left: the
    result is a 32-bit value whose bit (j + 1) mod 32 is bit j of the
    argument, and 32 rotations give the argument back. *)
Theorem rol_rotates (v : Z) :
  0 <= v < 2 ^ 32 ->
  0 <= rol v < 2 ^ 32 /\
  (forall j, 0 <= j < 32 -> Z.testbit (rol v) ((j + 1) mod 32) = Z.testbit v j) /\
  Nat.iter 32 rol v = v.
Proof.
  intros Hv. split; [apply rol_range; exact Hv|]. split.
  - intros j Hj. rewrite rol_bit by lia. f_equal. lia.
  - destruct (iter_rol_bit v 32 Hv) as (Hr & Hb).
    apply Z.bits_inj'. intros m Hm. destruct (Z_lt_le_dec m 32).
    + rewrite Hb by lia. f_equal. lia.
    + rewrite (small_high_bits _ 32 m Hr), (small_high_bits v 32 m Hv) by lia.
      reflexivity.
Qed.

Lemma rol_rotates_witness :
  0 <= rol 2155905152 < 2 ^ 32 /\
  (forall j, 0 <= j < 32 ->
     Z.testbit (rol 2155905152) ((j + 1) mod 32) = Z.testbit 2155905152 j) /\
  Nat.iter 32 rol 2155905152 = 2155905152.
Proof. apply (rol_rotates 2155905152). lia. Defined.

(** ** Ring arithmetic *)

(** X2: for a ring that holds at most [RING_SIZE] bytes, size and capacity
    add up to [RING_SIZE], the masked head and the run add up to the length
    of the buffer, and a block of min(capacity, run) bytes written at the
    masked head stays inside the buffer and inside the free space; masking
    an index is reduction modulo the length of the buffer, also across the
    wrap-around of [size_t]. *)
Theorem ring_block (r : ring) (x : Z) :
  ring_size r <= RING_SIZE ->
  let u := Z.min (ring_capacity r) (ring_run r) in
  ring_size r + ring_capacity r = RING_SIZE /\
  0 <= ring_mask (r_hd r) /\
  ring_mask (r_hd r) + ring_run r = 2 * RING_SIZE /\
  1 <= ring_run r /\
  0 <= u /\ ring_mask (r_hd r) + u <= 2 * RING_SIZE /\
  ring_size r + u <= RING_SIZE /\
  ring_mask (wrap x) = x mod (2 * RING_SIZE).
Proof.
  intros Hs u. subst u.
  pose proof (ring_size_range r) as Hr.
  rewrite (ring_capacity_eq r Hs), ring_run_eq, !ring_mask_mod, mod512_wrap.
  rewrite RING_SIZE_eq in *. change (2 * 256) with 512.
  repeat split; lia.
Qed.

Lemma ring_block_witness :
  let r := mk_ring 700 500 in
  ring_size r + ring_capacity r = RING_SIZE /\
  0 <= ring_mask (r_hd r) /\
  ring_mask (r_hd r) + ring_run r = 2 * RING_SIZE /\
  1 <= ring_run r /\
  0 <= Z.min (ring_capacity r) (ring_run r) /\
  ring_mask (r_hd r) + Z.min (ring_capacity r) (ring_run r) <= 2 * RING_SIZE /\
  ring_size r + Z.min (ring_capacity r) (ring_run r) <= RING_SIZE /\
  ring_mask (wrap (-1)) = (-1) mod (2 * RING_SIZE).
Proof.
  apply (ring_block (mk_ring 700 500) (-1)). vm_compute. discriminate.
Defined.

(** ** [wnd_read] *)

Lemma wnd_read_loop_eof (fuel : nat) :
  forall w i ret w' i',
    wnd_inv w -> wnd_read_loop fuel w i = Some (ret, w', i') ->
    ret <> 0 -> ring_size (lookahead w') < 256.
Proof.
  induction fuel as [|fuel IH]; intros w i ret w' i' Hinv E Hret; [discriminate|].
  cbn [wnd_read_loop] in E.
  destruct (fread (bf w) (ring_mask (r_hd (lookahead w)))
              (if ring_capacity (lookahead w) >? ring_run (lookahead w)
               then ring_run (lookahead w) else ring_capacity (lookahead w)) i)
    as [[n b] i1] eqn:Efr.
  apply fread_length in Efr. destruct Efr as (Hn0 & Hnu & Hlen & _).
  destruct Hinv as (Hadj & Hd & Hl).
  pose proof (ring_capacity_eq _ Hl) as Hc.
  pose proof (ring_size_range (lookahead w)) as Hlr.
  pose proof (ring_run_eq (lookahead w)) as Hr.
  rewrite RING_SIZE_eq in *.
  set (u := if ring_capacity (lookahead w) >? ring_run (lookahead w)
            then ring_run (lookahead w) else ring_capacity (lookahead w)) in *.
  assert (Hu : 0 <= u <= 256 - ring_size (lookahead w)).
  { subst u. rewrite Hc, Hr.
    destruct (256 - ring_size (lookahead w) >? 512 - r_hd (lookahead w) mod 512) eqn:E1;
      [apply Z.gtb_lt in E1 | rewrite Z.gtb_ltb in E1; apply Z.ltb_ge in E1]; lia. }
  specialize (Hnu (proj1 Hu)).
  set (w1 := {| dictionary := dictionary w;
                lookahead := {| r_hd := wrap (r_hd (lookahead w) + n);
                                r_tl := r_tl (lookahead w) |};
                bf := b |}) in *.
  assert (Hsz : ring_size (lookahead w1) = ring_size (lookahead w) + n).
  { unfold w1, ring_size in *. cbn [lookahead r_hd r_tl].
    unfold wrap, SIZE_MOD in *. lia. }
  destruct (n =? u) eqn:Enu; cbn [negb] in E.
  2:{ apply Z.eqb_neq in Enu. unfold feof, ferror_in, errno_in in E.
      destruct (rerr i1); injection E as _ <- _; lia. }
  destruct (ring_capacity (lookahead w) =? u).
  { injection E as <- _ _. contradiction. }
  apply (IH w1 i1 ret w' i'); auto.
  unfold wnd_inv. rewrite RING_SIZE_eq, Hsz. unfold w1 at 1 2.
  cbn [dictionary lookahead r_tl]. repeat split; auto. apply Z.eqb_eq in Enu. lia.
Qed.

Lemma wnd_read_src_exact (s : list Z) (r : option Z) (w : wnd) (pos d n : Z) :
  wnd_at s w pos d n ->
  exists ret w',
    wnd_read w (mk_source (skipn (Z.to_nat (pos + n)) s) r)
      = Some (ret, w',
              mk_source (skipn (Z.to_nat (pos + Z.min 256 (zlen s - pos))) s) r) /\
    wnd_at s w' pos d (Z.min 256 (zlen s - pos)) /\
    ret = (if Z.min 256 (zlen s - pos) =? 256 then 0 else end_ret r).
Proof.
  intros Hat.
  destruct (wnd_read_src_at s r w pos d n Hat)
    as (ret & w' & n' & E & Hat' & Hle & Hret).
  destruct (wnd_at_wf _ _ _ _ _ Hat) as ((Hinv & _) & _).
  destruct (wnd_at_wf _ _ _ _ _ Hat') as (_ & _ & En').
  pose proof Hat' as (_ & Hn' & _ & Hlen' & _).
  assert (Hlt : ret <> 0 -> n' < 256).
  { intros Hr. rewrite <- En'.
    apply (wnd_read_loop_eof _ _ _ _ _ _ Hinv E Hr). }
  assert (En : n' = Z.min 256 (zlen s - pos)).
  { destruct Hret as [(_ & ->)|(_ & H)]; lia. }
  exists ret, w'. rewrite <- En. split; [exact E|]. split; [exact Hat'|].
  destruct Hret as [(-> & ->)|(-> & H)]; [reflexivity|].
  destruct (n' =? 256) eqn:E256; [|reflexivity].
  apply Z.eqb_eq in E256.
  destruct (Z.eq_dec (end_ret r) 0) as [E0|Hne]; [exact E0|].
  specialize (Hlt Hne). lia.
Qed.

Lemma wnd_read_exact (s : list Z) (w : wnd) (pos d n : Z) :
  wnd_at s w pos d n ->
  exists ret w',
    wnd_read w (skipn (Z.to_nat (pos + n)) s)
      = Some (ret, w',
              eof_source (skipn (Z.to_nat (pos + Z.min 256 (zlen s - pos))) s)) /\
    wnd_at s w' pos d (Z.min 256 (zlen s - pos)) /\
    ret = (if Z.min 256 (zlen s - pos) =? 256 then 0 else EOF).
Proof. exact (wnd_read_src_exact s None w pos d n). Qed.

(** X3: [wnd_read] on a window that holds the bytes of a stream up to the
    end of its lookahead takes the next bytes of the stream, in order, until
    the lookahead holds [RING_SIZE] bytes or the stream is exhausted, and
    keeps the bytes already in the window; it returns 0 when the lookahead
    is full on return, and otherwise [EOF] at the end of the file and the
    value of [errno] after a read error. *)
Theorem wnd_read_fills (s : list Z) (r : option Z) (w : wnd) (pos d n : Z) :
  wnd_at s w pos d n ->
  exists ret w',
    wnd_read w (mk_source (skipn (Z.to_nat (pos + n)) s) r)
      = Some (ret, w',
              mk_source (skipn (Z.to_nat (pos + Z.min 256 (zlen s - pos))) s) r) /\
    wnd_at s w' pos d (Z.min 256 (zlen s - pos)) /\
    ret = (if Z.min 256 (zlen s - pos) =? 256 then 0
           else match r with None => EOF | Some e => e end).
Proof. apply wnd_read_src_exact. Qed.

Lemma wnd_read_fills_witness :
  exists ret w',
    wnd_read (wnd_init w_AA)
      (mk_source (skipn (Z.to_nat (0 + 0)) [1; 2; 3]) (Some 5))
      = Some (ret, w',
              mk_source
                (skipn (Z.to_nat (0 + Z.min 256 (zlen [1; 2; 3] - 0))) [1; 2; 3])
                (Some 5)) /\
    wnd_at [1; 2; 3] w' 0 0 (Z.min 256 (zlen [1; 2; 3] - 0)) /\
    ret = (if Z.min 256 (zlen [1; 2; 3] - 0) =? 256 then 0
           else match Some 5 with None => EOF | Some e => e end).
Proof.
  apply (wnd_read_fills [1; 2; 3] (Some 5) (wnd_init w_AA) 0 0 0).
  unfold wnd_at, wnd_init. cbn [dictionary lookahead bf].
  repeat split; try lia; try reflexivity.
  vm_compute. discriminate.
Defined.

(** ** [wnd_shift] *)

(** X4: on a well-formed window, [wnd_shift] by [a] moves [a] bytes from the
    lookahead to the dictionary and keeps of the dictionary the last
    [RING_SIZE] bytes at most; shifting by [a] and then by [b] is shifting
    by [a + b]. *)
Theorem wnd_shift_moves (w : wnd) (a b : Z) :
  wnd_wf w -> 0 <= a -> 0 <= b -> a + b <= ring_size (lookahead w) ->
  ring_size (dictionary (wnd_shift w a))
    = Z.min RING_SIZE (ring_size (dictionary w) + a) /\
  ring_size (lookahead (wnd_shift w a)) = ring_size (lookahead w) - a /\
  bf (wnd_shift w a) = bf w /\
  r_hd (lookahead (wnd_shift w a)) = r_hd (lookahead w) /\
  wnd_shift (wnd_shift w a) b = wnd_shift w (a + b).
Proof.
  intros Hwf Ha Hb Hab.
  pose proof (wf_sizes w Hwf) as (Hn & Hd). cbv zeta in Hn, Hd.
  pose proof (wf_hd w Hwf) as Ehd. pose proof (wf_tl w Hwf) as Etl.
  cbv zeta in Ehd, Etl.
  pose proof (wf_tl_range w Hwf) as Rtl. pose proof (wf_dtl_range w Hwf) as Rdtl.
  cbv zeta in Rtl, Rdtl.
  destruct Hwf as ((Hadj & Hdi & Hli) & _).
  pose proof (ring_capacity_eq _ Hdi) as Hc.
  set (d := ring_size (dictionary w)) in *.
  set (n := ring_size (lookahead w)) in *.
  assert (Hd1 : ring_size (dictionary (wnd_shift w a)) = Z.min 256 (d + a)).
  { unfold wnd_shift, ring_size at 1. cbn [dictionary r_hd r_tl]. rewrite Hc, Hadj, Etl.
    destruct (a >? 256 - d) eqn:E;
      [apply Z.gtb_lt in E | rewrite Z.gtb_ltb in E; apply Z.ltb_ge in E];
      unfold wrap, SIZE_MOD in *; lia. }
  assert (Hc1 : ring_capacity (dictionary (wnd_shift w a)) = 256 - Z.min 256 (d + a)).
  { rewrite ring_capacity_eq; rewrite Hd1, ?RING_SIZE_eq; lia. }
  split; [rewrite RING_SIZE_eq; exact Hd1|]. split.
  { unfold wnd_shift, ring_size at 1. cbn [lookahead r_hd r_tl]. rewrite Ehd.
    unfold wrap, SIZE_MOD in *. lia. }
  split; [reflexivity|]. split; [reflexivity|].
  unfold wnd_shift at 1 3. rewrite Hc1, Hc.
  unfold wnd_shift. cbn [dictionary lookahead bf r_hd r_tl]. rewrite ?Hc.
  clear Hd1 Hc1 Hc.
  f_equal; f_equal.
  - unfold wrap, SIZE_MOD. lia.
  - destruct (a >? 256 - d) eqn:E1, (b >? 256 - Z.min 256 (d + a)) eqn:E2,
      (a + b >? 256 - d) eqn:E3;
      rewrite ?Z.gtb_ltb, ?Z.ltb_lt, ?Z.ltb_ge in *;
      unfold wrap, SIZE_MOD in *; lia.
  - unfold wrap, SIZE_MOD. lia.
Qed.

Lemma wnd_shift_moves_witness :
  ring_size (dictionary (wnd_shift w_ABAB 1))
    = Z.min RING_SIZE (ring_size (dictionary w_ABAB) + 1) /\
  ring_size (lookahead (wnd_shift w_ABAB 1)) = ring_size (lookahead w_ABAB) - 1 /\
  bf (wnd_shift w_ABAB 1) = bf w_ABAB /\
  r_hd (lookahead (wnd_shift w_ABAB 1)) = r_hd (lookahead w_ABAB) /\
  wnd_shift (wnd_shift w_ABAB 1) 2 = wnd_shift w_ABAB (1 + 2).
Proof.
  apply (wnd_shift_moves w_ABAB 1 2 w_ABAB_wf); try lia.
  vm_compute. discriminate.
Defined.

(** ** [kmp_init] *)

(** X5: [kmp_init] leaves the table untouched when the lookahead holds
    fewer than two bytes; otherwise it fills it with the failure function of
    the lookahead: for every k from 1 to look.size, entry k - 1 is the
    length of the longest proper border of the first k bytes. *)
Theorem kmp_init_failure_function (t : Z -> Z) (w : wnd) :
  wnd_wf w ->
  (ring_size (lookahead w) < 2 -> kmp_init t w = t) /\
  (2 <= ring_size (lookahead w) ->
   forall k, 1 <= k <= ring_size (lookahead w) ->
     border (look_byte w) (kmp_init t w (k - 1)) k /\
     forall b, border (look_byte w) b k -> b <= kmp_init t w (k - 1)).
Proof.
  intros Hwf. split.
  - intros Hn. unfold kmp_init.
    replace (ring_size (lookahead w) <? 2) with true
      by (symmetry; apply Z.ltb_lt; lia).
    reflexivity.
  - intros Hn. exact (kmp_init_ok w Hwf t Hn).
Qed.

Lemma kmp_init_failure_function_witness :
  (ring_size (lookahead w_ABAB) < 2 -> kmp_init zeros w_ABAB = zeros) /\
  (2 <= ring_size (lookahead w_ABAB) ->
   forall k, 1 <= k <= ring_size (lookahead w_ABAB) ->
     border (look_byte w_ABAB) (kmp_init zeros w_ABAB (k - 1)) k /\
     forall b, border (look_byte w_ABAB) b k -> b <= kmp_init zeros w_ABAB (k - 1)).
Proof. exact (kmp_init_failure_function zeros w_ABAB w_ABAB_wf). Defined.

(** ** [kmp_search] returns the first of the longest matches *)

Section Leftmost.
Variable w : wnd.
Hypothesis Hwf : wnd_wf w.

Lemma search_step (f : nat) (a : Z -> Z) (p : pair) (o l : Z) :
  0 <= o <= ring_size (dictionary w) -> 0 <= l < ring_size (lookahead w) ->
  kmp_search_loop (S f) w a p (wrap (r_tl (lookahead w) + l))
    (wrap (r_tl (dictionary w) + (o + l))) =
    if o =? ring_size (dictionary w) then p
    else if look_byte w l =? text_byte w (o + l) then
      if l + 1 =? ring_size (lookahead w) then mk_pair o (l + 1)
      else kmp_search_loop f w a p (wrap (r_tl (lookahead w) + (l + 1)))
             (wrap (r_tl (dictionary w) + (o + (l + 1))))
    else if l =? 0 then
      kmp_search_loop f w a p (wrap (r_tl (lookahead w) + l))
        (wrap (r_tl (dictionary w) + (o + 1 + l)))
    else
      kmp_search_loop f w a (if l >? p_l p then mk_pair o l else p)
        (wrap (r_tl (lookahead w) + a (l - 1)))
        (wrap (r_tl (dictionary w) + (o + l))).
Proof. exact (kmp_search_loop_step w Hwf f a p o l). Qed.

Lemma kmp_search_loop_leftmost (a : Z -> Z) (fuel : nat) :
  (2 <= ring_size (lookahead w) ->
   fail_table (look_byte w) a (ring_size (lookahead w))) ->
  forall p o l,
    0 <= o <= ring_size (dictionary w) -> 0 <= l < ring_size (lookahead w) ->
    occurs w o l ->
    match_found w p -> longest_before w o p ->
    p_l p < ring_size (lookahead w) -> leftmost w p ->
    2 * ring_size (dictionary w) + ring_size (lookahead w) + 1 - (2 * o + l)
      <= Z.of_nat fuel ->
    leftmost w
      (kmp_search_loop fuel w a p (wrap (r_tl (lookahead w) + l))
         (wrap (r_tl (dictionary w) + (o + l)))).
Proof.
  intros Ha. induction fuel as [|fuel IH];
    intros p o l Ho Hl Hocc Hp Hlong Hpn Hleft Hf; [lia|].
  assert (Hpl : 0 <= p_l p).
  { destruct Hp as [(_ & ->)|(_ & ? & _)]; lia. }
  rewrite search_step by lia.
  destruct (o =? ring_size (dictionary w)) eqn:Eod; [exact Hleft|].
  apply Z.eqb_neq in Eod.
  destruct (look_byte w l =? text_byte w (o + l)) eqn:Eb.
  - apply Z.eqb_eq in Eb.
    destruct (l + 1 =? ring_size (lookahead w)) eqn:En.
    + apply Z.eqb_eq in En. intros o' l' Ho' Hl' Hocc'. cbn [p_o p_l] in *.
      specialize (Hlong o' l' Ho' Hl' Hocc'). lia.
    + apply Z.eqb_neq in En. apply IH; auto; try lia.
      intros x Hx. destruct (Z.eq_dec x l) as [->|]; [auto|apply Hocc; lia].
  - apply Z.eqb_neq in Eb. destruct (l =? 0) eqn:E0.
    + apply Z.eqb_eq in E0. subst l. apply IH; auto; try lia.
      * intros x Hx. lia.
      * intros o' l' Ho' Hl' Hocc'.
        destruct (Z.eq_dec o' o) as [->|]; [|apply (Hlong o'); auto; lia].
        destruct (Z_lt_le_dec 0 l') as [Hpos|]; [|lia].
        exfalso. apply Eb. symmetry. apply Hocc'. lia.
    + apply Z.eqb_neq in E0.
      destruct (Ha ltac:(lia) l ltac:(lia)) as ((Hbr & Hbe) & Hmax).
      set (al := a (l - 1)) in *.
      set (p' := if l >? p_l p then {| p_o := o; p_l := l |} else p).
      assert (Hcase : (p_l p < l /\ p' = {| p_o := o; p_l := l |}) \/
                      (l <= p_l p /\ p' = p)).
      { subst p'. destruct (l >? p_l p) eqn:E;
          [apply Z.gtb_lt in E | rewrite Z.gtb_ltb in E; apply Z.ltb_ge in E];
          [left|right]; auto. }
      assert (Hp' : match_found w p').
      { destruct Hcase as [(_ & ->)|(_ & ->)]; [|exact Hp].
        right. cbn [p_o p_l]. repeat split; try lia. exact Hocc. }
      assert (Hp'n : p_l p' < ring_size (lookahead w)).
      { destruct Hcase as [(_ & ->)|(_ & ->)]; cbn [p_l]; lia. }
      assert (Hp'l : l <= p_l p' /\ p_l p <= p_l p').
      { destruct Hcase as [(? & ->)|(? & ->)]; cbn [p_l]; lia. }
      assert (Hleft' : leftmost w p').
      { destruct Hcase as [(Hlt & ->)|(_ & ->)]; [|exact Hleft].
        intros o' l' Ho' Hl' Hocc'. cbn [p_o p_l] in *.
        specialize (Hlong o' l' Ho' Hl' Hocc'). lia. }
      assert (Hod : o + l - al <= ring_size (dictionary w)).
      { destruct (Z_lt_le_dec (ring_size (dictionary w)) (o + l)) as [Hgt|]; [|lia].
        assert (Hbe' : border (look_byte w) (o + l - ring_size (dictionary w)) l).
        { split; [lia|]. intros x Hx.
          rewrite <- (text_look w Hwf x). rewrite <- Hocc by lia. f_equal. lia. }
        apply Hmax in Hbe'. lia. }
      replace (o + l) with (o + l - al + al) by lia.
      apply IH; auto; try lia.
      * intros x Hx. replace (o + l - al + x) with (o + (l - al + x)) by lia.
        rewrite Hocc by lia. symmetry. apply Hbe. lia.
      * intros o' l' Ho' Hl' Hocc'.
        destruct (Z_lt_le_dec o' o) as [Hlt|Hge].
        { specialize (Hlong o' l' ltac:(lia) Hl' Hocc'). lia. }
        destruct (Z_lt_le_dec l' (l + 1)) as [|Hgt]; [lia|]. exfalso.
        destruct (Z.eq_dec o' o) as [->|Hne].
        { apply Eb. symmetry. apply Hocc'. lia. }
        assert (Hbe' : border (look_byte w) (o + l - o') l).
        { split; [lia|]. intros x Hx.
          rewrite <- Hocc' by lia. rewrite <- Hocc by lia. f_equal. lia. }
        apply Hmax in Hbe'. lia.
Qed.

Lemma kmp_search_leftmost (a0 : Z -> Z) :
  1 <= ring_size (lookahead w) -> leftmost w (kmp_search a0 w).
Proof.
  intros Hn. unfold kmp_search.
  pose proof (wf_tl_range w Hwf) as Htl. pose proof (wf_dtl_range w Hwf) as Hdtl.
  pose proof (wf_sizes w Hwf) as Hs. cbv zeta in Htl, Hdtl, Hs.
  assert (Hk : match_found w (mk_pair 0 0)) by (left; auto).
  pose proof (kmp_search_loop_leftmost (kmp_init a0 w)
                (Z.to_nat (2 * (ring_size (dictionary w)
                                + ring_size (lookahead w)) + 1))
                (fun Hn2 => kmp_init_ok w Hwf a0 Hn2)
                (mk_pair 0 0) 0 0 ltac:(lia) ltac:(lia)
                ltac:(intros x Hx; lia) Hk
                ltac:(intros o' l' Ho'; lia) ltac:(cbn; lia)
                ltac:(intros o' l' Ho'; cbn in Ho'; lia) ltac:(lia)) as H.
  replace (wrap (r_tl (lookahead w) + 0)) with (r_tl (lookahead w)) in H
    by (rewrite Z.add_0_r, wrap_small; auto).
  replace (wrap (r_tl (dictionary w) + (0 + 0))) with (r_tl (dictionary w)) in H
    by (rewrite !Z.add_0_r, wrap_small; auto).
  exact H.
Qed.

End Leftmost.

(** Two pairs that are both the first of the longest matches are equal. *)
Lemma search_unique (w w' : wnd) (p q : pair) :
  ring_size (dictionary w') = ring_size (dictionary w) ->
  ring_size (lookahead w') = ring_size (lookahead w) ->
  (forall o l, 0 <= o < ring_size (dictionary w) ->
     0 <= l <= ring_size (lookahead w) -> (occurs w o l <-> occurs w' o l)) ->
  match_found w p -> longest_before w (ring_size (dictionary w)) p ->
  leftmost w p ->
  match_found w' q -> longest_before w' (ring_size (dictionary w')) q ->
  leftmost w' q ->
  p = q.
Proof.
  intros Ed En Hocc Hp Hlp Hfp Hq Hlq Hfq.
  unfold match_found, longest_before, leftmost in *. rewrite ?Ed, ?En in *.
  assert (Hle1 : p_l q <= p_l p).
  { destruct Hq as [(_ & E)|(Ho & Hl & Hoc)].
    - destruct Hp as [(_ & E')|(_ & ? & _)]; lia.
    - apply (Hlp (p_o q) (p_l q)); try lia. apply Hocc; try lia. exact Hoc. }
  assert (Hle2 : p_l p <= p_l q).
  { destruct Hp as [(_ & E)|(Ho & Hl & Hoc)].
    - destruct Hq as [(_ & E')|(_ & ? & _)]; lia.
    - apply (Hlq (p_o p) (p_l p)); try lia. apply Hocc; try lia. exact Hoc. }
  assert (Eo : p_o p = p_o q).
  { destruct Hp as [(Eo & E0)|(Ho & Hl & Hoc)];
      destruct Hq as [(Eo' & E0')|(Ho' & Hl' & Hoc')]; try lia.
    destruct (Z.lt_trichotomy (p_o p) (p_o q)) as [Hlt|[Heq|Hgt]]; [|exact Heq|].
    - assert (Hoc2 : occurs w' (p_o p) (p_l p)) by (apply Hocc; auto; lia).
      specialize (Hfq (p_o p) (p_l p) ltac:(lia) ltac:(lia) Hoc2). lia.
    - assert (Hoc2 : occurs w (p_o q) (p_l q)) by (apply Hocc; auto; lia).
      specialize (Hfp (p_o q) (p_l q) ltac:(lia) ltac:(lia) Hoc2). lia. }
  destruct p, q; cbn [p_o p_l] in *. f_equal; lia.
Qed.

(** X6: [kmp_search] returns the first of the longest matches: every match
    that starts at a smaller dictionary offset is strictly shorter; the pair
    it returns does not depend on the contents that the uninitialised
    failure-table array had. *)
Theorem kmp_search_first_longest (a0 a1 : Z -> Z) (w : wnd) :
  wnd_wf w -> 1 <= ring_size (lookahead w) ->
  leftmost w (kmp_search a0 w) /\ kmp_search a0 w = kmp_search a1 w.
Proof.
  intros Hwf Hn. split; [apply kmp_search_leftmost; auto|].
  destruct (kmp_search_ok w Hwf a0 Hn) as (H1 & H2).
  destruct (kmp_search_ok w Hwf a1 Hn) as (H1' & H2').
  apply (search_unique w w); auto; try tauto;
    apply kmp_search_leftmost; auto.
Qed.

Lemma kmp_search_first_longest_witness :
  leftmost w_ABAB (kmp_search zeros w_ABAB) /\
  kmp_search zeros w_ABAB = kmp_search (fun k => k + 7) w_ABAB.
Proof.
  apply (kmp_search_first_longest zeros (fun k => k + 7) w_ABAB w_ABAB_wf).
  vm_compute. discriminate.
Defined.

(** ** The output does not depend on uninitialised memory *)

Lemma occurs_at (s : list Z) (w : wnd) (pos d n o l : Z) :
  wnd_at s w pos d n -> 0 <= o -> 0 <= l <= n -> o + l <= d + n ->
  (occurs w o l <->
   forall x, 0 <= x < l -> zn s (pos - d + (o + x)) = zn s (pos + x)).
Proof.
  intros Hat Ho Hl Hol. pose proof Hat as (Hd & _).
  unfold occurs. split; intros H x Hx.
  - rewrite <- (wnd_at_text s w pos d n (o + x) Hat) by lia.
    rewrite <- (wnd_at_look s w pos d n x Hat) by lia. apply H; lia.
  - rewrite (wnd_at_text s w pos d n (o + x) Hat) by lia.
    rewrite (wnd_at_look s w pos d n x Hat) by lia. apply H; lia.
Qed.

Lemma kmp_search_at (a0 a1 : Z -> Z) (s : list Z) (w w' : wnd) (pos d n : Z) :
  wnd_at s w pos d n -> wnd_at s w' pos d n -> 1 <= n ->
  kmp_search a0 w = kmp_search a1 w'.
Proof.
  intros Hat Hat' Hn.
  destruct (wnd_at_wf _ _ _ _ _ Hat) as (Hwf & Ed & En).
  destruct (wnd_at_wf _ _ _ _ _ Hat') as (Hwf' & Ed' & En').
  destruct (kmp_search_ok w Hwf a0 ltac:(lia)) as (H1 & H2).
  destruct (kmp_search_ok w' Hwf' a1 ltac:(lia)) as (H1' & H2').
  apply (search_unique w w'); auto; try congruence.
  - intros o l Ho Hl.
    rewrite (occurs_at s w pos d n o l Hat) by lia.
    rewrite (occurs_at s w' pos d n o l Hat') by lia. reflexivity.
  - apply kmp_search_leftmost; auto; lia.
  - apply kmp_search_leftmost; auto; lia.
Qed.

Lemma lz_match_indep (a0 a1 : Z -> Z) (s : list Z) (w w' : wnd) (pos d n : Z) :
  wnd_at s w pos d n -> wnd_at s w' pos d n -> 1 <= n ->
  exists k,
    1 <= k <= n /\ fst (lz_match a0 w) = fst (lz_match a1 w') /\
    snd (lz_match a0 w) = wnd_shift w k /\
    snd (lz_match a1 w') = wnd_shift w' k.
Proof.
  intros Hat Hat' Hn.
  destruct (wnd_at_wf _ _ _ _ _ Hat) as (Hwf & Ed & En).
  destruct (wnd_at_wf _ _ _ _ _ Hat') as (Hwf' & Ed' & En').
  pose proof Hat as (Hd & _).
  rewrite !lz_match_eq by (auto; lia).
  rewrite <- (kmp_search_at a0 a1 s w w' pos d n Hat Hat' Hn).
  assert (Enw : not_worth w' (kmp_search a0 w) = not_worth w (kmp_search a0 w)).
  { rewrite !not_worth_eq by auto. rewrite En, En'.
    rewrite (wnd_at_look s w pos d n 0 Hat), (wnd_at_look s w' pos d n 0 Hat')
      by lia.
    destruct (p_l (kmp_search a0 w) <? 2); [reflexivity|]. cbn [orb].
    destruct (p_l (kmp_search a0 w) =? 2) eqn:E2; [|reflexivity].
    destruct (n >? 3) eqn:E3; [|reflexivity]. cbn [andb].
    apply Z.eqb_eq in E2. apply Z.gtb_lt in E3. rewrite E2.
    rewrite (wnd_at_look s w pos d n 2 Hat), (wnd_at_look s w' pos d n 2 Hat'),
      (wnd_at_look s w pos d n 3 Hat), (wnd_at_look s w' pos d n 3 Hat'),
      (wnd_at_text s w pos d n 2 Hat), (wnd_at_text s w' pos d n 2 Hat') by lia.
    reflexivity. }
  rewrite Enw.
  destruct (not_worth w (kmp_search a0 w)) eqn:Hnw; cbn [fst snd].
  - exists 1. repeat split; try lia.
    rewrite (wnd_at_look s w pos d n 0 Hat), (wnd_at_look s w' pos d n 0 Hat')
      by lia. reflexivity.
  - destruct (worth_bounds a0 w Hwf ltac:(lia) Hnw) as (_ & _ & Hl & _).
    exists (p_l (kmp_search a0 w)). rewrite Ed, Ed'. repeat split; lia.
Qed.

Lemma tokens_drain_indep (a0 a1 : Z -> Z) (s : list Z) (fuel : nat) :
  forall w w' pos d n,
    wnd_at s w pos d n -> wnd_at s w' pos d n ->
    tokens_drain fuel a0 w = tokens_drain fuel a1 w'.
Proof.
  induction fuel as [|fuel IH]; intros w w' pos d n Hat Hat'; [reflexivity|].
  destruct (wnd_at_wf _ _ _ _ _ Hat) as (Hwf & Ed & En).
  destruct (wnd_at_wf _ _ _ _ _ Hat') as (Hwf' & Ed' & En').
  pose proof Hat as (_ & Hn & _).
  cbn [tokens_drain]. rewrite En, En'.
  destruct (n =? 0) eqn:E0; cbn [negb]; [reflexivity|].
  apply Z.eqb_neq in E0.
  destruct (lz_match_indep a0 a1 s w w' pos d n Hat Hat' ltac:(lia))
    as (k & Hk & Et & Es & Es').
  destruct (lz_match a0 w) as [t w1]. destruct (lz_match a1 w') as [t' w1'].
  cbn [fst snd] in *. subst t' w1 w1'.
  rewrite (IH (wnd_shift w k) (wnd_shift w' k) (pos + k) _ _
             (wnd_at_shift s w pos d n k Hat ltac:(lia))
             (wnd_at_shift s w' pos d n k Hat' ltac:(lia))).
  reflexivity.
Qed.

Lemma tokens_fill_indep (a0 a1 : Z -> Z) (s : list Z) (fuel : nat) :
  forall w w' pos d n,
    wnd_at s w pos d n -> wnd_at s w' pos d n ->
    tokens_fill fuel a0 w (skipn (Z.to_nat (pos + n)) s) =
    tokens_fill fuel a1 w' (skipn (Z.to_nat (pos + n)) s).
Proof.
  induction fuel as [|fuel IH]; intros w w' pos d n Hat Hat'; [reflexivity|].
  cbn [tokens_fill].
  destruct (wnd_read_exact s w pos d n Hat) as (ret & w1 & Er & Hat1 & Hret).
  destruct (wnd_read_exact s w' pos d n Hat') as (ret' & w1' & Er' & Hat1' & Hret').
  rewrite Er, Er'. subst ret'. rewrite <- Hret.
  destruct (wnd_at_wf _ _ _ _ _ Hat1) as (Hwf1 & Ed1 & En1).
  destruct (wnd_at_wf _ _ _ _ _ Hat1') as (Hwf1' & Ed1' & En1').
  destruct (Z.min 256 (zlen s - pos) =? 256) eqn:E256.
  - apply Z.eqb_eq in E256. subst ret. cbn [Z.eqb].
    rewrite E256 in *.
    destruct (lz_match_indep a0 a1 s w1 w1' pos d 256 Hat1 Hat1' ltac:(lia))
      as (k & Hk & Et & Es & Es').
    destruct (lz_match a0 w1) as [t w2]. destruct (lz_match a1 w1') as [t' w2'].
    cbn [fst snd] in *. subst t' w2 w2'.
    pose proof (IH (wnd_shift w1 k) (wnd_shift w1' k) (pos + k) _ _
                  (wnd_at_shift s w1 pos d 256 k Hat1 ltac:(lia))
                  (wnd_at_shift s w1' pos d 256 k Hat1' ltac:(lia))) as E.
    replace (pos + k + (256 - k)) with (pos + 256) in E by lia.
    rewrite E. reflexivity.
  - subst ret. change (EOF =? 0) with false.
    change (negb (EOF =? EOF)) with false. cbv iota.
    rewrite En1, En1'.
    apply (tokens_drain_indep a0 a1 s _ w1 w1' pos d _ Hat1 Hat1').
Qed.

(** X7: The result of [compress] is a function of the input and of the sink
    alone: the contents of the uninitialised context (the window buffer, the
    group array, the count) and of the uninitialised failure-table array
    never reach the return value or the bytes written. *)
Theorem compress_deterministic (x0 x1 : ctx) (a0 a1 : Z -> Z) (s : list Z)
  (o : sink) :
  compress x0 a0 s o = compress x1 a1 s o.
Proof.
  destruct (tokens_chain a0 s x0) as (ts & E & _).
  assert (E' : tokens x1 a1 s = Some ts).
  { rewrite <- E. unfold tokens. symmetry.
    exact (tokens_fill_indep a0 a1 s (S (length s)) (wnd_init (ctx_w x0))
             (wnd_init (ctx_w x1)) 0 0 0 (wnd_at_init s _) (wnd_at_init s _)). }
  rewrite (compress_frame a0 x0 s o ts E), (compress_frame a1 x1 s o ts E').
  reflexivity.
Qed.

(** ** The size of the compressed stream *)

Lemma chain_cost (s : list Z) (ts : list match_t) :
  forall pos pos',
    chain s pos ts pos' ->
    zlen (flat_map tok_bytes ts) <= pos' - pos /\ zlen ts <= pos' - pos.
Proof.
  unfold zlen. induction ts as [|t ts IH]; intros pos pos' H; cbn [chain] in H.
  - subst. cbn. lia.
  - destruct H as (q & (_ & _ & Ht) & Hch). destruct (IH q pos' Hch) as (H1 & H2).
    cbn [flat_map length]. rewrite length_app. unfold tok_bytes at 1.
    destruct (is_ref t); cbn [length].
    + destruct Ht as (_ & Hl & _ & Hq & _). lia.
    + destruct Ht as (Hq & _). lia.
Qed.

Lemma frame_size (n : nat) :
  forall ts,
    (length ts <= n)%nat ->
    zlen (frame lsb_first ts) = zlen (flat_map tok_bytes ts) + (zlen ts + 7) / 8.
Proof.
  unfold zlen. induction n as [|n IH]; intros ts Hn.
  { destruct ts; [reflexivity|cbn in Hn; lia]. }
  destruct (Nat.le_gt_cases (length ts) 8) as [Hle|Hgt].
  - destruct ts as [|t ts']; [reflexivity|].
    rewrite frame_last by (cbn [length] in *; lia).
    unfold group_bytes. cbn [length] in *. lia.
  - rewrite <- (firstn_skipn 8 ts) at 1.
    rewrite frame_full by (rewrite length_firstn; lia).
    rewrite length_app, Nat2Z.inj_add.
    rewrite (IH (skipn 8 ts)) by (rewrite length_skipn; lia).
    assert (E : length (flat_map tok_bytes ts) =
                (length (flat_map tok_bytes (firstn 8 ts)) +
                 length (flat_map tok_bytes (skipn 8 ts)))%nat).
    { rewrite <- length_app, <- flat_map_app, firstn_skipn. reflexivity. }
    unfold group_bytes. cbn [length]. rewrite length_skipn. lia.
Qed.

(** X8: Worst-case expansion: on a sink whose writes succeed [compress]
    writes at most one byte per input byte and one control byte for every
    eight input bytes, the last group rounded up. *)
Theorem compress_expansion_bound (x0 : ctx) (a0 : Z -> Z) (s : list Z) :
  exists oc,
    compress x0 a0 s ideal_sink = Some (0, oc) /\
    zlen (written oc) <= zlen s + (zlen s + 7) / 8.
Proof.
  destruct (tokens_chain a0 s x0) as (ts & Ets & Hch).
  pose proof (compress_frame a0 x0 s ideal_sink ts Ets) as Ec.
  rewrite write_all_ok in Ec by (try apply frame_bytes; intros k; reflexivity).
  cbn [to_ret written ideal_sink app] in Ec.
  eexists. split; [exact Ec|]. cbn [written].
  rewrite (frame_size (length ts) ts) by lia.
  destruct (chain_cost s ts 0 (zlen s) Hch) as (H1 & H2). lia.
Qed.

(** ** Sinks on which a write fails *)

Lemma write_all_prefix (bs : list Z) :
  forall o,
    bytes bs ->
    exists k,
      (k <= length bs)%nat /\
      written (snd (write_all bs o)) = written o ++ firstn k bs /\
      wfail (snd (write_all bs o)) = wfail o /\
      match fst (write_all bs o) with
      | None => k = length bs /\ ferror (snd (write_all bs o)) = ferror o
      | Some e =>
          (k < length bs)%nat /\
          wfail o (length (written o) + k) = Some e /\
          ferror (snd (write_all bs o)) = true
      end.
Proof.
  induction bs as [|b bs IH]; intros o Hb; cbn [write_all].
  - exists O. cbn. rewrite app_nil_r. auto.
  - inversion Hb as [|? ? Hb1 Hb2]; subst. unfold putc.
    destruct (wfail o (length (written o))) as [e|] eqn:Ew.
    + exists O. cbn [fst snd written wfail ferror firstn length].
      rewrite app_nil_r, Nat.add_0_r. repeat split; auto; lia.
    + match goal with |- context [write_all bs ?o1] =>
        destruct (IH o1 Hb2) as (k & Hk & Hw & Hf & Hr) end.
      cbn [written wfail ferror] in Hw, Hf, Hr.
      exists (S k). cbn [length firstn]. split; [lia|].
      rewrite Hw, <- app_assoc. split.
      { f_equal. cbn [app]. f_equal. unfold u8. lia. }
      split; [exact Hf|].
      destruct (fst (write_all bs _)) as [e|].
      * destruct Hr as (Hlt & Hwf & Hfe). rewrite length_app in Hwf.
        cbn [length] in Hwf. repeat split; [lia| |exact Hfe].
        rewrite <- Hwf. f_equal. lia.
      * destruct Hr as (-> & Hfe). auto.
Qed.


(** ** Sources on which a read fails *)

Lemma firstn_past {A : Type} (l l' : list A) (k : nat) :
  firstn (length l + k) (l ++ l') = l ++ firstn k l'.
Proof.
  rewrite firstn_app. rewrite firstn_all2 by lia. f_equal. f_equal. lia.
Qed.

Lemma compress_fill_read_error (a0 : Z -> Z) (s : list Z) (e : Z) (fuel : nat) :
  e <> 0 -> e <> EOF ->
  forall x w2 pos d n pend ts o,
    ctx_inv x pend -> sink_ok o ->
    wnd_at s (ctx_w x) pos d n -> wnd_at s w2 pos d n ->
    tokens_fill fuel a0 w2 (skipn (Z.to_nat (pos + n)) s) = Some ts ->
    exists o' k,
      compress_fill fuel a0 x
        (mk_source (skipn (Z.to_nat (pos + n)) s) (Some e)) o = Some (e, o') /\
      written o' = written o ++ firstn k (frame lsb_first (pend ++ ts)) /\
      wfail o' = wfail o /\ ferror o' = ferror o /\
      (zlen s - pos < 256 -> k = O).
Proof.
  intros He0 Heof.
  induction fuel as [|fuel IH];
    intros x w2 pos d n pend ts o Hinv Hok Hat Hat2 Hts; [discriminate|].
  cbn [tokens_fill compress_fill] in *.
  destruct (wnd_read_src_exact s (Some e) (ctx_w x) pos d n Hat)
    as (ret & w1 & Er & Hat1 & Hret).
  destruct (wnd_read_exact s w2 pos d n Hat2) as (ret2 & w3 & Er2 & Hat3 & Hret2).
  rewrite Er. rewrite Er2 in Hts. cbn [end_ret] in Hret.
  destruct (Z.min 256 (zlen s - pos) =? 256) eqn:E256.
  - apply Z.eqb_eq in E256. subst ret ret2. cbn [Z.eqb] in *.
    rewrite E256 in *.
    destruct (lz_match_indep a0 a0 s w1 w3 pos d 256 Hat1 Hat3 ltac:(lia))
      as (k0 & Hk0 & Et & Es & Es').
    destruct (lz_match a0 w3) as [t w4] eqn:Em3. cbn [fst snd] in Et, Es'.
    destruct (tokens_fill fuel a0 w4 _) as [ts'|] eqn:Ets; [|discriminate].
    injection Hts as <-. subst w4.
    pose proof (wnd_at_shift s w1 pos d 256 k0 Hat1 ltac:(lia)) as Hat1'.
    pose proof (wnd_at_shift s w3 pos d 256 k0 Hat3 ltac:(lia)) as Hat3'.
    replace (pos + 256) with (pos + k0 + (256 - k0)) in Ets |- * by lia.
    pose proof (compress_helper_spec a0 (ctx_set_w x w1) pend o
                  (ctx_inv_set_w x pend w1 Hinv)) as Hs.
    cbn [ctx_set_w ctx_w] in Hs. rewrite Et, Es in Hs.
    pose proof Hinv as (_ & Hlen & _).
    destruct (zlen pend =? 8) eqn:E8.
    + apply Z.eqb_eq in E8.
      rewrite write_all_ok in Hs
        by (auto; apply group_bytes_bytes; unfold zlen in E8; lia).
      destruct Hs as (x' & -> & Hinv' & Hw & _). cbn [Z.eqb negb].
      rewrite <- Hw in Hat1'.
      destruct (IH (ctx_next x') (wnd_shift w3 k0) (pos + k0) _ _ [t] ts'
                  {| written := written o ++ group_bytes lsb_first pend;
                     wfail := wfail o; ferror := ferror o |}
                  Hinv' ltac:(intros j; cbn [wfail]; apply Hok) Hat1' Hat3' Ets)
        as (o' & k & E & Hwr & Hwf & Hfe & _).
      cbn [written wfail ferror] in Hwr, Hwf, Hfe.
      exists o', (length (group_bytes lsb_first pend) + k)%nat.
      split; [exact E|].
      rewrite frame_full by (unfold zlen in E8; lia).
      rewrite firstn_past, Hwr, <- app_assoc.
      repeat split; auto. lia.
    + destruct Hs as (x' & -> & Hinv' & Hw & _). cbn [Z.eqb negb].
      rewrite <- Hw in Hat1'.
      destruct (IH (ctx_next x') (wnd_shift w3 k0) (pos + k0) _ _
                  (pend ++ [t]) ts' o Hinv' Hok Hat1' Hat3' Ets)
        as (o' & k & E & Hwr & Hwf & Hfe & _).
      exists o', k. split; [exact E|].
      rewrite <- app_assoc in Hwr. repeat split; auto. lia.
  - subst ret.
    replace (e =? 0) with false by (symmetry; apply Z.eqb_neq; exact He0).
    replace (e =? EOF) with false by (symmetry; apply Z.eqb_neq; exact Heof).
    cbn [negb]. exists o, O. cbn [firstn]. rewrite app_nil_r. auto.
Qed.

(** X20: A read error on the source of [compress], on a sink whose writes
    succeed: when the bytes [d] of the source are followed by a read error
    that leaves in [errno] a value [e] other than 0 and [EOF], [compress]
    returns [e]; what it has written by then is a beginning of the stream
    that it writes for [d] followed by the end of the file, and nothing at
    all when [d] is shorter than 256 bytes. *)
Theorem compress_read_error (x0 : ctx) (a0 : Z -> Z) (d : list Z) (e : Z)
  (o : sink) :
  e <> 0 -> e <> EOF -> sink_ok o ->
  exists out o' k,
    compress x0 a0 d ideal_sink = Some (0, mk_sink out (fun _ => None) false) /\
    compress x0 a0 (mk_source d (Some e)) o = Some (e, o') /\
    written o' = written o ++ firstn k out /\
    wfail o' = wfail o /\ ferror o' = ferror o /\
    (zlen d < 256 -> k = O).
Proof.
  intros He0 Heof Hok.
  destruct (tokens_chain a0 d x0) as (ts & Ets & _).
  pose proof (compress_frame a0 x0 d ideal_sink ts Ets) as Ei.
  rewrite write_all_ok in Ei by (try apply frame_bytes; intros k; reflexivity).
  cbn [to_ret written ideal_sink app wfail ferror] in Ei.
  unfold tokens in Ets.
  destruct (compress_fill_read_error a0 d e (S (length d)) He0 Heof
              {| ctx_n := 0; ctx_c := ctx_c (ctx_init x0);
                 ctx_msk := ctx_msk (ctx_init x0);
                 ctx_w := ctx_w (ctx_init x0); ctx_m := ctx_m (ctx_init x0) |}
              (wnd_init (ctx_w x0)) 0 0 0 [] ts o)
    as (o' & k & E & Hw & Hwf & Hfe & Hk); auto.
  - repeat split; cbn; try lia; congruence.
  - apply wnd_at_init.
  - apply wnd_at_init.
  - exists (frame lsb_first ts), o', k.
    split; [exact Ei|]. split; [exact E|]. cbn [app] in Hw.
    repeat split; auto. intros Hd. apply Hk. lia.
Qed.

Lemma compress_read_error_witness :
  exists out o' k,
    compress zero_ctx zeros [65; 66] ideal_sink
      = Some (0, mk_sink out (fun _ => None) false) /\
    compress zero_ctx zeros (mk_source [65; 66] (Some 5)) ideal_sink
      = Some (5, o') /\
    written o' = written ideal_sink ++ firstn k out /\
    wfail o' = wfail ideal_sink /\ ferror o' = ferror ideal_sink /\
    (zlen [65; 66] < 256 -> k = O).
Proof.
  apply (compress_read_error zero_ctx zeros [65; 66] 5 ideal_sink).
  - discriminate.
  - discriminate.
  - intros k. reflexivity.
Defined.

(** ** The decoder on arbitrary input *)

Lemma copy_loop_result (fuel : nat) :
  forall buf mo ml c o r b m o',
    copy_loop fuel buf mo ml c o = Some (r, b, m, o') ->
    match r with
    | Some _ => ferror o' = true
    | None => ferror o' = ferror o
    end.
Proof.
  induction fuel as [|fuel IH]; intros buf mo ml c o r b m o' E; [discriminate|].
  cbn [copy_loop] in E. unfold putc in E.
  destruct (wfail o (length (written o))) as [e|].
  - injection E as <- _ _ <-. reflexivity.
  - destruct (negb (c =? 0)).
    + apply IH in E. cbn [ferror] in E. exact E.
    + injection E as <- _ _ <-. reflexivity.
Qed.

Lemma decompress_loop_read_error (e : Z) (fuel : nat) :
  forall d buf mo ml map msk o,
    ferror o = false ->
    decompress_loop fuel (mk_source d (Some e)) buf mo ml map msk o =
    after_error e (decompress_loop fuel d buf mo ml map msk o).
Proof.
  induction fuel as [|fuel IH]; intros d buf mo ml map msk o Ho; [reflexivity|].
  assert (Hend : forall r : Z,
            Some (e, o) = after_error e (Some (r, o))).
  { intros r. cbn [after_error]. rewrite Ho. reflexivity. }
  assert (Htok : forall map c i1,
            (if negb (Z.land map (rol msk) =? 0) then
               match i1 with
               | [] => Some (e, o)
               | c2 :: i2 =>
                   match copy_loop (Z.to_nat RING_SIZE) buf mo (u8 (c + 1)) c2 o
                   with
                   | None => None
                   | Some (Some e', _, _, o1) => Some (fail_ret e' o1, o1)
                   | Some (None, buf1, mo1, o1) =>
                       decompress_loop fuel (mk_source i2 (Some e)) buf1 mo1
                         (u8 (c + 1)) map (rol msk) o1
                   end
               end
             else
               match putc c o with
               | (Some e', o1) => Some (fail_ret e' o1, o1)
               | (None, o1) =>
                   decompress_loop fuel (mk_source i1 (Some e))
                     (upd buf mo (u8 c)) (u8 (mo + 1)) ml map (rol msk) o1
               end) =
            after_error e
              (if negb (Z.land map (rol msk) =? 0) then
                 match i1 with
                 | [] => Some (Z.pos EIO, o)
                 | c2 :: i2 =>
                     match copy_loop (Z.to_nat RING_SIZE) buf mo (u8 (c + 1)) c2 o
                     with
                     | None => None
                     | Some (Some e', _, _, o1) => Some (fail_ret e' o1, o1)
                     | Some (None, buf1, mo1, o1) =>
                         decompress_loop fuel i2 buf1 mo1 (u8 (c + 1)) map
                           (rol msk) o1
                     end
                 end
               else
                 match putc c o with
                 | (Some e', o1) => Some (fail_ret e' o1, o1)
                 | (None, o1) =>
                     decompress_loop fuel i1 (upd buf mo (u8 c)) (u8 (mo + 1))
                       ml map (rol msk) o1
                 end)).
  { intros map' c i1. destruct (negb (Z.land map' (rol msk) =? 0)).
    - destruct i1 as [|c2 i2]; [apply Hend|].
      destruct (copy_loop (Z.to_nat RING_SIZE) buf mo (u8 (c + 1)) c2 o)
        as [[[[r b] m] o1]|] eqn:E; [|reflexivity].
      apply copy_loop_result in E. destruct r as [e'|].
      + cbn [after_error]. rewrite E. reflexivity.
      + apply IH. congruence.
    - pose proof (putc_ferror c o) as Hp.
      destruct (putc c o) as [[e'|] o1].
      + destruct Hp as (Hp & _). cbn [after_error]. rewrite Hp. reflexivity.
      + destruct Hp as (Hp & _). apply IH. congruence. }
  rewrite decompress_loop_S.
  cbn [decompress_loop data rerr feof ferror_in errno_in read_fail negb].
  destruct d as [|c d1]; [apply Hend|].
  destruct (negb (Z.land (rol msk) 1 =? 0)).
  - destruct d1 as [|c' d2]; [apply Hend|]. apply Htok.
  - apply Htok.
Qed.

(** X21: A read error on the source of [decompress]: when the bytes [d] of
    the source are followed by a read error that leaves [e] in [errno]
    where the end of the file would be, [decompress] writes what it writes
    for [d] followed by the end of the file; it returns [e] where that run
    returns 0 or [EIO], and what that run returns when a write has
    failed. *)
Theorem decompress_read_error (buf0 : Z -> Z) (map0 : Z) (d : list Z) (e : Z)
  (o : sink) :
  bytes d -> ferror o = false ->
  exists ret o',
    decompress buf0 map0 d o = Some (ret, o') /\
    decompress buf0 map0 (mk_source d (Some e)) o
    = Some (if ferror o' then ret else e, o').
Proof.
  intros Hd Ho. unfold decompress. cbn [data]. rewrite data_eof.
  rewrite (decompress_loop_read_error e) by exact Ho.
  destruct (decompress_loop_out (S (length d)) d buf0 0 0 map0 MSK_SEED o Hd
              ltac:(lia)) as (ret & o' & out & E & _).
  exists ret, o'. rewrite E. split; reflexivity.
Qed.

Lemma decompress_read_error_witness :
  exists ret o',
    decompress zeros 0 [0; 65] ideal_sink = Some (ret, o') /\
    decompress zeros 0 (mk_source [0; 65] (Some 5)) ideal_sink
    = Some (if ferror o' then ret else 5, o').
Proof.
  apply (decompress_read_error zeros 0 [0; 65] 5 ideal_sink).
  - repeat constructor; lia.
  - reflexivity.
Defined.

(** X10: [decompress] returns for every sequence of bytes, whatever the
    sink does; it only appends to the sink, and what it appends is at most
    128 times as long as its input (a back-reference of two bytes yields at
    most 256). *)
Theorem decompress_output_bound (buf0 : Z -> Z) (map0 : Z) (i : list Z)
  (o : sink) :
  bytes i ->
  exists ret o' out,
    decompress buf0 map0 i o = Some (ret, o') /\
    written o' = written o ++ out /\ zlen out <= 128 * zlen i /\ bytes out /\
    wfail o' = wfail o.
Proof.
  intros Hi. unfold decompress. rewrite data_eof.
  apply decompress_loop_out; auto.
Qed.

Lemma decompress_output_bound_witness :
  bytes [1; 65; 0; 255] /\
  exists ret o' out,
    decompress zeros 0 [1; 65; 0; 255] ideal_sink = Some (ret, o') /\
    written o' = written ideal_sink ++ out /\
    zlen out <= 128 * zlen [1; 65; 0; 255] /\ bytes out /\
    wfail o' = wfail ideal_sink.
Proof.
  assert (H : bytes [1; 65; 0; 255]) by (repeat constructor; lia).
  split; [exact H|].
  apply (decompress_output_bound zeros 0 [1; 65; 0; 255] ideal_sink H).
Defined.

(** X11: [decompress] assigns [map] before it reads it: the first byte of
    the source is always taken as a control byte, so the result does not
    depend on the value that the uninitialised [map] had. *)
Theorem decompress_ignores_map (buf0 : Z -> Z) (map0 map1 : Z) (i : list Z)
  (o : sink) :
  decompress buf0 map0 i o = decompress buf0 map1 i o.
Proof.
  unfold decompress. rewrite data_eof. destruct i as [|c i1]; [reflexivity|].
  rewrite !decompress_loop_S. cbv beta iota zeta.
  change (negb (Z.land (rol MSK_SEED) 1 =? 0)) with true. cbv iota.
  destruct i1; reflexivity.
Qed.

(** ** The token of [lz_match] *)

(** X12: On a window that holds the bytes of [s] around position [pos],
    with a lookahead that is not empty, [lz_match] consumes between 1 and
    all bytes of the lookahead and leaves a window over [s] at the new
    position; its token describes the bytes consumed, and a back-reference
    reaches back no farther than the dictionary. *)
Theorem lz_match_token (a0 : Z -> Z) (s : list Z) (w : wnd) (pos d n : Z) :
  wnd_at s w pos d n -> 1 <= n ->
  exists k,
    1 <= k <= n /\
    wnd_at s (snd (lz_match a0 w)) (pos + k) (Z.min 256 (d + k)) (n - k) /\
    tok_ok s pos (fst (lz_match a0 w)) (pos + k) /\
    (is_ref (fst (lz_match a0 w)) = true ->
     m_ov (fst (lz_match a0 w)) + 1 <= d).
Proof.
  intros Hat Hn.
  destruct (lz_match_at a0 s w pos d n Hat Hn) as (k & Hk & Hat' & Htok).
  exists k. split; [exact Hk|]. split; [exact Hat'|]. split; [exact Htok|].
  destruct (wnd_at_wf _ _ _ _ _ Hat) as (Hwf & Ed & En).
  rewrite lz_match_eq by (auto; lia).
  destruct (not_worth w (kmp_search a0 w)) eqn:Hnw; cbn [fst].
  - unfold is_ref. cbn. discriminate.
  - destruct (worth_bounds a0 w Hwf ltac:(lia) Hnw) as (Ho & _).
    intros _. cbn [m_ov]. lia.
Qed.

Lemma lz_match_token_witness :
  exists k,
    1 <= k <= 4 /\
    wnd_at [65; 66; 65; 66; 65; 66] (snd (lz_match zeros w_ABAB)) (2 + k)
      (Z.min 256 (2 + k)) (4 - k) /\
    tok_ok [65; 66; 65; 66; 65; 66] 2 (fst (lz_match zeros w_ABAB)) (2 + k) /\
    (is_ref (fst (lz_match zeros w_ABAB)) = true ->
     m_ov (fst (lz_match zeros w_ABAB)) + 1 <= 2).
Proof.
  apply (lz_match_token zeros [65; 66; 65; 66; 65; 66] w_ABAB 2 2 4); [|lia].
  unfold wnd_at, w_ABAB. cbn [dictionary lookahead bf].
  split; [lia|]. split; [lia|]. split; [lia|].
  split; [vm_compute; discriminate|].
  split; [reflexivity|]. split; [reflexivity|].
  intros k Hk.
  assert (Hc : k = 0 \/ k = 1 \/ k = 2 \/ k = 3 \/ k = 4 \/ k = 5) by lia.
  repeat (destruct Hc as [Hc|Hc]); subst k; reflexivity.
Defined.

(** ** [encode] *)

Lemma encode_loop_runs_off (m : Z -> match_t) (n : Z) (fuel : nat) :
  forall j o,
    sink_ok o -> 0 <= j -> n <= j \/ 8 < n ->
    encode_loop fuel m n j o = None.
Proof.
  induction fuel as [|fuel IH]; intros j o Hok Hj Hn; [reflexivity|].
  cbn [encode_loop]. unfold CHAR_BIT.
  destruct ((0 <=? j) && (j <? 8)) eqn:Eb; [|reflexivity].
  apply andb_true_iff in Eb. destruct Eb as (_ & Hlt). apply Z.ltb_lt in Hlt.
  rewrite encode_token_eq.
  rewrite write_all_ok
    by (auto; unfold tok_bytes; destruct (is_ref (m j)); repeat constructor;
        unfold u8; lia).
  rewrite wrap32_small by lia.
  replace (j + 1 =? n) with false by (symmetry; apply Z.eqb_neq; lia).
  apply IH; [|lia|lia]. intros k. cbn [wfail]. apply Hok.
Qed.

(** X13: [encode] with a count [n] between 1 and 8 writes the control
    byte and then the bytes of the first [n] tokens of the group array, up
    to the first write that fails. With any other count its loop does not
    stop at the end of the array: on a sink whose writes succeed it runs
    on to index 8, outside the array. *)
Theorem encode_group (m : Z -> match_t) (n c : Z) (o : sink) :
  (1 <= n <= 8 ->
   encode m n c o =
     Some (to_ret (write_all
                     (u8 c :: flat_map tok_bytes (arr_list m (Z.to_nat n))) o))) /\
  (sink_ok o -> n <= 0 \/ 8 < n ->
   encode m n c o = None /\ forall fuel, encode_loop fuel m n 0 o = None).
Proof.
  split.
  - intros Hn. rewrite <- (Z2Nat.id n) at 1 by lia. apply encode_eq. lia.
  - intros Hok Hn. split.
    + unfold encode, putc. rewrite Hok.
      apply encode_loop_runs_off; [|lia|lia]. intros k. cbn [wfail]. apply Hok.
    + intros fuel. apply encode_loop_runs_off; auto; lia.
Qed.

Lemma encode_group_witness :
  encode (fun _ => mk_match 65 0) 2 0 ideal_sink =
    Some (to_ret (write_all
                    (u8 0 :: flat_map tok_bytes
                               (arr_list (fun _ => mk_match 65 0) (Z.to_nat 2)))
                    ideal_sink)) /\
  (encode (fun _ => mk_match 65 0) 0 0 ideal_sink = None /\
   forall fuel, encode_loop fuel (fun _ => mk_match 65 0) 0 0 ideal_sink = None).
Proof.
  split.
  - apply (encode_group (fun _ => mk_match 65 0) 2 0 ideal_sink). lia.
  - apply (encode_group (fun _ => mk_match 65 0) 0 0 ideal_sink);
      [intros k; reflexivity|lia].
Defined.

(** ** The program *)

Lemma compress_returns (x0 : ctx) (a0 : Z -> Z) (s : list Z) (o : sink) :
  exists ret o' out,
    compress x0 a0 s o = Some (ret, o') /\
    written o' = written o ++ out /\ wfail o' = wfail o.
Proof.
  destruct (tokens_chain a0 s x0) as (ts & Ets & _).
  rewrite (compress_frame a0 x0 s o ts Ets).
  destruct (write_all_prefix (frame lsb_first ts) o (frame_bytes ts))
    as (k & _ & Hw & Hf & _).
  destruct (write_all (frame lsb_first ts) o) as [[e|] o'];
    cbn [fst snd to_ret] in *; eauto 6.
Qed.

Lemma match_decompress_iff (a : String.string) :
  match_decompress a = true <-> a = "-d"%string \/ a = "--decompress"%string.
Proof.
  unfold match_decompress. rewrite orb_true_iff, !String.eqb_eq. reflexivity.
Qed.

(** X14: [main] with an argument vector that is not empty returns for
    every input: it only appends to [stdout], and it prints to [stderr]
    exactly when it returns a value other than 0. *)
Theorem main_returns (x0 : ctx) (a0 buf0 : Z -> Z) (map0 : Z)
  (argv : list String.string) (stdin : list Z) (stdout : sink) :
  argv <> [] -> bytes stdin ->
  exists ret o' ds out,
    main x0 a0 buf0 map0 argv stdin stdout = Some (ret, o', ds) /\
    (ds = [] <-> ret = 0) /\
    written o' = written stdout ++ out /\ wfail o' = wfail stdout.
Proof.
  intros Hargv Hin. destruct argv as [|argv0 args]; [congruence|].
  assert (Hrep : forall r : option (Z * sink),
            (exists ret o' out, r = Some (ret, o') /\
               written o' = written stdout ++ out /\ wfail o' = wfail stdout) ->
            exists ret o' ds out,
              report (prog_name argv0) r = Some (ret, o', ds) /\
              (ds = [] <-> ret = 0) /\
              written o' = written stdout ++ out /\ wfail o' = wfail stdout).
  { intros r (ret & o' & out & -> & Hw & Hf). cbn [report].
    exists ret, o'. eexists. exists out. split; [reflexivity|].
    split; [|auto]. destruct (ret =? 0) eqn:E; cbn [negb].
    - apply Z.eqb_eq in E. tauto.
    - apply Z.eqb_neq in E. split; [discriminate|contradiction]. }
  assert (Huse : exists ret o' ds out,
            Some (fst (usage (prog_name argv0)), stdout,
                  snd (usage (prog_name argv0))) = Some (ret, o', ds) /\
            (ds = [] <-> ret = 0) /\
            written o' = written stdout ++ out /\ wfail o' = wfail stdout).
  { do 3 eexists. exists []. split; [reflexivity|]. cbn [usage fst snd].
    rewrite app_nil_r. repeat split; discriminate. }
  cbn [main]. destruct args as [|a [|b r]]; [| |exact Huse].
  - apply Hrep. apply compress_returns.
  - destruct (match_decompress a); [|exact Huse].
    apply Hrep.
    destruct (decompress_loop_out (S (length stdin)) stdin buf0 0 0 map0
                MSK_SEED stdout Hin ltac:(lia))
      as (ret & o' & out & E & Hw & _ & _ & Hf).
    exists ret, o', out. auto.
Qed.

Lemma main_returns_witness :
  exists ret o' ds out,
    main zero_ctx zeros zeros 0 ["./lzpi"%string; "-d"%string] [0; 65]
      ideal_sink = Some (ret, o', ds) /\
    (ds = [] <-> ret = 0) /\
    written o' = written ideal_sink ++ out /\ wfail o' = wfail ideal_sink.
Proof.
  apply (main_returns zero_ctx zeros zeros 0 ["./lzpi"%string; "-d"%string]
           [0; 65] ideal_sink).
  - discriminate.
  - repeat constructor; lia.
Defined.

(** X16: Round trip through the program: run without arguments on the
    bytes [s], [main] returns 0 and prints nothing to [stderr]; run with
    the flag [-d] or [--decompress] on what that run wrote, it returns 0,
    prints nothing and writes [s]. *)
Theorem main_round_trip (x0 : ctx) (a0 buf0 : Z -> Z) (map0 : Z)
  (p q flag : String.string) (s : list Z) :
  bytes s -> flag = "-d"%string \/ flag = "--decompress"%string ->
  exists oc od,
    main x0 a0 buf0 map0 [p] s ideal_sink = Some (0, oc, []) /\
    main x0 a0 buf0 map0 [q; flag] (written oc) ideal_sink = Some (0, od, []) /\
    written od = s.
Proof.
  intros Hs Hflag. apply match_decompress_iff in Hflag.
  destruct (tokens_chain a0 s x0) as (ts & Ets & Hch).
  pose proof (compress_frame a0 x0 s ideal_sink ts Ets) as Ec.
  rewrite write_all_ok in Ec by (try apply frame_bytes; intros k; reflexivity).
  cbn [to_ret written ideal_sink app] in Ec.
  destruct (decompress_frame s Hs buf0 map0 ts ideal_sink
              ltac:(intros k; reflexivity) eq_refl Hch) as (od & Ed & Hw).
  exists {| written := frame lsb_first ts; wfail := fun _ => None;
            ferror := false |}, od.
  cbn [main]. rewrite Ec, Hflag. cbn [report written].
  rewrite Ed. cbn [report Z.eqb negb]. auto.
Qed.

Lemma main_round_trip_witness :
  exists oc od,
    main zero_ctx zeros zeros 0 ["lzpi"%string] [65; 66; 65; 66; 65; 66]
      ideal_sink = Some (0, oc, []) /\
    main zero_ctx zeros zeros 0 ["lzpi"%string; "--decompress"%string]
      (written oc) ideal_sink = Some (0, od, []) /\
    written od = [65; 66; 65; 66; 65; 66].
Proof.
  apply (main_round_trip zero_ctx zeros zeros 0 "lzpi"%string "lzpi"%string
           "--decompress"%string [65; 66; 65; 66; 65; 66]).
  - repeat constructor; lia.
  - right. reflexivity.
Defined.

(** ** The name of the program *)

Lemma has_slash_app (a b : String.string) :
  has_slash (String.append a (String.String "/"%char b)) = true.
Proof.
  induction a as [|c a IH]; cbn [String.append has_slash].
  - reflexivity.
  - rewrite IH. apply orb_true_r.
Qed.

Lemma after_last_slash_spec (s : String.string) :
  match after_last_slash s with
  | Some t =>
      has_slash t = false /\
      exists pre, s = String.append pre (String.String "/"%char t)
  | None => has_slash s = false
  end.
Proof.
  induction s as [|c r IH]; cbn [after_last_slash has_slash]; [reflexivity|].
  destruct (after_last_slash r) as [t|].
  - destruct IH as (Ht & pre & ->). split; [exact Ht|].
    exists (String.String c pre). reflexivity.
  - destruct (Ascii.eqb c "/"%char) eqn:E.
    + apply Ascii.eqb_eq in E. subst c. split; [exact IH|].
      exists String.EmptyString. reflexivity.
    + exact IH.
Qed.

(** X17: The name that [main] uses in its messages is the part of
    [argv[0]] after its last slash, and all of [argv[0]] when it holds no
    slash: the name holds no slash itself. *)
Theorem prog_name_basename (argv0 : String.string) :
  has_slash (prog_name argv0) = false /\
  (has_slash argv0 = false -> prog_name argv0 = argv0) /\
  (has_slash argv0 = true ->
   exists pre,
     argv0 = String.append pre (String.String "/"%char (prog_name argv0))).
Proof.
  unfold prog_name. pose proof (after_last_slash_spec argv0) as H.
  destruct (after_last_slash argv0) as [t|].
  - destruct H as (Ht & pre & E). split; [exact Ht|]. split.
    + intros Hn. rewrite E, has_slash_app in Hn. discriminate.
    + intros _. exists pre. exact E.
  - split; [exact H|]. split; [reflexivity|]. intros Hn. congruence.
Qed.

Lemma prog_name_basename_witness :
  prog_name "lzpi"%string = "lzpi"%string /\
  exists pre,
    "/usr/bin/lzpi"%string =
      String.append pre (String.String "/"%char (prog_name "/usr/bin/lzpi"%string)).
Proof.
  split.
  - apply (prog_name_basename "lzpi"%string). reflexivity.
  - apply (prog_name_basename "/usr/bin/lzpi"%string). reflexivity.
Defined.

(** ** A back-reference before any output *)

Lemma copy_loop_S (fuel : nat) (buf : Z -> Z) (mo ml c : Z) (o : sink) :
  copy_loop (S fuel) buf mo ml c o =
    let buf1 := upd buf mo (u8 (buf (u8 (mo - ml)))) in
    match putc (buf1 mo) o with
    | (Some e, o1) => Some (Some e, buf1, u8 (mo + 1), o1)
    | (None, o1) =>
        if negb (c =? 0) then copy_loop fuel buf1 (u8 (mo + 1)) ml (c - 1) o1
        else Some (None, buf1, u8 (mo + 1), o1)
    end.
Proof. reflexivity. Qed.

(** X18: When the first token of the source is a back-reference, nothing
    has been decoded yet that it could refer to: the first byte that
    [decompress] writes is then the one that the uninitialised [buf] held
    at index [255 - c1], where [c1] is the offset byte of the token. *)
Theorem decompress_reads_uninitialised (buf0 : Z -> Z) (map0 ctl c1 c2 : Z)
  (rest : list Z) (o : sink) :
  sink_ok o -> bytes (ctl :: c1 :: c2 :: rest) -> Z.testbit ctl 0 = true ->
  exists ret o' out,
    decompress buf0 map0 (ctl :: c1 :: c2 :: rest) o = Some (ret, o') /\
    written o' = written o ++ u8 (buf0 (255 - c1)) :: out.
Proof.
  intros Hok Hi Hbit.
  inversion Hi as [|? ? Hctl Hi1]; subst.
  inversion Hi1 as [|? ? Hc1 Hi2]; subst.
  inversion Hi2 as [|? ? Hc2 Hrest]; subst.
  unfold decompress. rewrite data_eof, msk_seed_eq.
  pose proof (decompress_step (length (ctl :: c1 :: c2 :: rest))
                (c1 :: c2 :: rest) buf0 0 0 map0 0 ctl o
                ltac:(lia) Hctl ltac:(congruence)) as E.
  cbn [Z.eqb app] in E. rewrite E, Hbit. clear E.
  replace (Z.to_nat RING_SIZE) with (S (Z.to_nat 255)) by reflexivity.
  rewrite copy_loop_S. cbv zeta.
  rewrite putc_ok by exact Hok.
  replace (u8 (0 - u8 (c1 + 1))) with (255 - c1) by (unfold u8; lia).
  rewrite upd_same, u8_u8.
  set (o1 := {| written := written o ++ [u8 (buf0 (255 - c1))];
                wfail := wfail o; ferror := ferror o |}).
  assert (Hrest' : forall buf mo ml map msk o2 out1,
            written o2 = written o1 ++ out1 ->
            exists ret o' out,
              decompress_loop (length (ctl :: c1 :: c2 :: rest)) rest buf mo ml
                map msk o2 = Some (ret, o') /\
              written o' = written o ++ u8 (buf0 (255 - c1)) :: out).
  { intros buf mo ml map msk o2 out1 Hw2.
    destruct (decompress_loop_out (length (ctl :: c1 :: c2 :: rest)) rest buf mo
                ml map msk o2 Hrest ltac:(cbn [length]; lia))
      as (ret & o' & out & E & Hw & _).
    exists ret, o', (out1 ++ out). split; [exact E|].
    rewrite Hw, Hw2. subst o1. cbn [written]. rewrite <- !app_assoc.
    reflexivity. }
  destruct (c2 =? 0) eqn:E0; cbn [negb].
  - apply (Hrest' _ _ _ _ _ o1 []). rewrite app_nil_r. reflexivity.
  - apply Z.eqb_neq in E0.
    match goal with |- context [copy_loop _ ?b ?m ?l (c2 - 1) o1] =>
      destruct (copy_loop_out (Z.to_nat 255) b m l (c2 - 1) o1 ltac:(lia))
        as (r & buf' & mo' & o2 & out1 & E & Hw & _) end.
    rewrite E. destruct r as [e|].
    + exists (fail_ret e o2), o2, out1. split; [reflexivity|].
      rewrite Hw. subst o1. cbn [written]. rewrite <- app_assoc. reflexivity.
    + apply (Hrest' _ _ _ _ _ o2 out1). exact Hw.
Qed.

Lemma decompress_reads_uninitialised_witness :
  exists ret o' out,
    decompress (fun k => k) 0 [1; 3; 0; 65] ideal_sink = Some (ret, o') /\
    written o' = written ideal_sink ++ u8 ((fun k => k) (255 - 3)) :: out.
Proof.
  apply (decompress_reads_uninitialised (fun k => k) 0 1 3 0 [65] ideal_sink).
  - intros k. reflexivity.
  - repeat constructor; lia.
  - reflexivity.
Defined.

(** ** A run of equal bytes *)

Lemma tokens_drain_S (fuel : nat) (a0 : Z -> Z) (w : wnd) :
  tokens_drain (S fuel) a0 w =
    if negb (ring_size (lookahead w) =? 0) then
      match tokens_drain fuel a0 (snd (lz_match a0 w)) with
      | None => None
      | Some ts => Some (fst (lz_match a0 w) :: ts)
      end
    else Some [].
Proof. cbn [tokens_drain]. destruct (lz_match a0 w); reflexivity. Qed.

Lemma zn_repeat (b : Z) (n : nat) (k : Z) :
  0 <= k < Z.of_nat n -> zn (repeat b n) k = b.
Proof. intros Hk. unfold zn. apply nth_repeat_lt. lia. Qed.

Lemma run_tokens (x0 : ctx) (a0 : Z -> Z) (b n : Z) :
  3 <= n <= 255 ->
  tokens x0 a0 (repeat b (Z.to_nat n)) =
    Some [mk_match b 0; mk_match 0 (n - 2)].
Proof.
  intros Hn. set (s := repeat b (Z.to_nat n)).
  assert (Hlen : zlen s = n) by (unfold zlen, s; rewrite repeat_length; lia).
  assert (Hzn : forall k, 0 <= k < n -> zn s k = b)
    by (intros k Hk; apply zn_repeat; lia).
  unfold tokens. cbn [tokens_fill].
  destruct (wnd_read_exact s (wnd_init (ctx_w x0)) 0 0 0 (wnd_at_init s _))
    as (ret & w1 & Er & Hat1 & Hret).
  change (skipn (Z.to_nat (0 + 0)) s) with s in Er.
  replace (Z.min 256 (zlen s - 0)) with n in * by lia.
  rewrite Er.
  replace (n =? 256) with false in Hret by (symmetry; apply Z.eqb_neq; lia).
  subst ret. change (EOF =? 0) with false.
  change (negb (EOF =? EOF)) with false. cbv iota.
  destruct (wnd_at_wf _ _ _ _ _ Hat1) as (Hwf1 & Ed1 & En1).
  rewrite En1.
  replace (Z.to_nat n) with (S (S (Z.to_nat (n - 2)))) by lia.
  rewrite tokens_drain_S, En1.
  replace (n =? 0) with false by (symmetry; apply Z.eqb_neq; lia).
  cbn [negb].
  assert (E1 : lz_match a0 w1 = (mk_match b 0, wnd_shift w1 1)).
  { rewrite lz_match_eq by (auto; lia).
    destruct (kmp_search_ok w1 Hwf1 a0 ltac:(lia)) as (Hf & _).
    assert (Hp : p_l (kmp_search a0 w1) = 0).
    { destruct Hf as [(_ & H)|(H & _)]; [exact H|lia]. }
    unfold not_worth. rewrite Hp. change (0 <? 2) with true. cbn [orb].
    rewrite (wnd_at_look s w1 0 0 n 0 Hat1) by lia.
    rewrite Hzn by lia. reflexivity. }
  rewrite E1. cbn [fst snd].
  pose proof (wnd_at_shift s w1 0 0 n 1 Hat1 ltac:(lia)) as Hat2.
  change (0 + 1) with 1 in Hat2. change (Z.min 256 1) with 1 in Hat2.
  set (w2 := wnd_shift w1 1) in *.
  destruct (wnd_at_wf _ _ _ _ _ Hat2) as (Hwf2 & Ed2 & En2).
  rewrite tokens_drain_S, En2.
  replace (n - 1 =? 0) with false by (symmetry; apply Z.eqb_neq; lia).
  cbn [negb].
  assert (E2 : lz_match a0 w2 = (mk_match 0 (n - 2), wnd_shift w2 (n - 1))).
  { rewrite lz_match_eq by (auto; lia).
    destruct (kmp_search_ok w2 Hwf2 a0 ltac:(lia)) as (Hf & Hl).
    assert (Hocc : occurs w2 0 (n - 1)).
    { apply (occurs_at s w2 1 1 (n - 1) 0 (n - 1) Hat2); try lia.
      intros x Hx. rewrite !Hzn by lia. reflexivity. }
    pose proof (Hl 0 (n - 1) ltac:(lia) ltac:(lia) Hocc) as Hge.
    assert (Hp : p_o (kmp_search a0 w2) = 0 /\ p_l (kmp_search a0 w2) = n - 1).
    { destruct Hf as [(Ho & Hl0)|(Ho & Hl1 & _)]; lia. }
    destruct Hp as (Hpo & Hpl).
    assert (Hnw : not_worth w2 (kmp_search a0 w2) = false).
    { rewrite not_worth_eq by auto. rewrite Hpl, En2.
      replace (n - 1 <? 2) with false by (symmetry; apply Z.ltb_ge; lia).
      cbn [orb]. destruct (n - 1 =? 2) eqn:E; [|reflexivity].
      apply Z.eqb_eq in E.
      replace (n - 1 >? 3) with false; [reflexivity|].
      symmetry. rewrite Z.gtb_ltb. apply Z.ltb_ge. lia. }
    rewrite Hnw, Hpo, Hpl, Ed2. f_equal. f_equal; lia. }
  rewrite E2. cbn [fst snd].
  pose proof (wnd_at_shift s w2 1 1 (n - 1) (n - 1) Hat2 ltac:(lia)) as Hat3.
  destruct (wnd_at_wf _ _ _ _ _ Hat3) as (_ & _ & En3).
  replace (Z.to_nat (n - 2)) with (S (Z.to_nat (n - 3))) by lia.
  rewrite tokens_drain_S, En3.
  replace (n - 1 - (n - 1) =? 0) with true by (symmetry; apply Z.eqb_eq; lia).
  reflexivity.
Qed.

(** X19: A run of [n] equal bytes [b], with [n] between 3 and 255, is
    compressed to four bytes: the control byte 2, the literal [b], and the
    back-reference with stored offset 0 and stored length [n - 2]. *)
Theorem compress_run (x0 : ctx) (a0 : Z -> Z) (b n : Z) :
  0 <= b < 256 -> 3 <= n <= 255 ->
  compress x0 a0 (repeat b (Z.to_nat n)) ideal_sink =
    Some (0, {| written := [2; b; 0; n - 2]; wfail := fun _ => None;
                ferror := false |}).
Proof.
  intros Hb Hn.
  rewrite (compress_frame a0 x0 _ ideal_sink _ (run_tokens x0 a0 b n Hn)).
  rewrite frame_last by (cbn [length]; lia).
  assert (E : group_bytes lsb_first [mk_match b 0; mk_match 0 (n - 2)] =
              [2; b; 0; n - 2]).
  { assert (R1 : is_ref (mk_match b 0) = false) by reflexivity.
    assert (R2 : is_ref (mk_match 0 (n - 2)) = true).
    { unfold is_ref. cbn [m_l].
      replace (n - 2 =? 0) with false by (symmetry; apply Z.eqb_neq; lia).
      reflexivity. }
    unfold group_bytes, tok_bytes. cbn [ctrl_from flat_map].
    rewrite R1, R2. cbn [app m_ov m_l]. unfold u8.
    rewrite (Z.mod_small b), (Z.mod_small (n - 2)) by lia. reflexivity. }
  rewrite E.
  rewrite write_all_ok by
    (try (intros k; reflexivity); repeat constructor; lia).
  reflexivity.
Qed.

Lemma compress_run_witness :
  compress zero_ctx zeros (repeat 0 (Z.to_nat 10)) ideal_sink =
    Some (0, {| written := [2; 0; 0; 10 - 2]; wfail := fun _ => None;
                ferror := false |}).
Proof. apply (compress_run zero_ctx zeros 0 10); lia. Defined.
